(** * notify-pr-review: reviewer resolution and the thread/status state machine

    A shallow embedding of the JavaScript sources of the pull-request
    notifier ([src/github.js], [src/mapper.js], [src/slack.js] and the
    action entry point) together with the properties of its natural-language
    specification.

    JavaScript strings are sequences of UTF-16 code units, and none of the
    regular expressions of the program carries the [u] flag, so a string is
    modelled as a list of code units ([N]).  External services (the code
    host and the chat directory) are modelled as an environment of
    responses; every call is recorded in a log, and a call that throws is a
    distinguished response. *)

From Stdlib Require Import NArith List Bool Lia String Ascii.
From stdpp Require Import base option list gmap.
From Equations Require Import Equations.

Local Open Scope N_scope.

(** ** JavaScript strings *)

Module JS.

Abbreviation jsstring := (list N).

(** An ASCII literal as a JavaScript string. *)
Definition lit (s : string) : jsstring :=
  map N_of_ascii (list_ascii_of_string s).
Arguments lit : simpl never.

(** [if (s)] on a string: the empty string is falsy. *)
Definition truthy (s : jsstring) : bool :=
  match s with [] => false | _ => true end.

(** [if (x)] on a value that is a string or [null]/[undefined]. *)
Definition truthy_opt (x : option jsstring) : bool :=
  match x with Some s => truthy s | None => false end.

(** [x] when [if (x)] passes, [null] otherwise. *)
Definition if_truthy (x : option jsstring) : option jsstring :=
  if truthy_opt x then x else None.

(** [x === s] for a value [x] that may be [null] and a string [s]. *)
Definition opt_is (x : option jsstring) (s : jsstring) : bool :=
  bool_decide (x = Some s).

(** [xs.join(sep)] *)
Fixpoint join (sep : jsstring) (xs : list jsstring) : jsstring :=
  match xs with
  | [] => []
  | x :: xs' =>
      match xs' with
      | [] => x
      | _ :: _ => x ++ sep ++ join sep xs'
      end
  end.

(** [a === b] on strings. *)
Definition str_eqb (a b : jsstring) : bool := bool_decide (a = b).

(** [s.startsWith(p)] *)
Fixpoint startsWith (s p : jsstring) {struct p} : bool :=
  match p with
  | [] => true
  | y :: p' =>
      match s with
      | [] => false
      | x :: s' => (x =? y) && startsWith s' p'
      end
  end.

(** [s.endsWith(p)] *)
Definition endsWith (s p : jsstring) : bool :=
  (length p <=? length s)%nat && str_eqb (drop (length s - length p) s) p.

(** [s.includes(p)] *)
Fixpoint includes (s p : jsstring) : bool :=
  startsWith s p ||
  match s with
  | [] => false
  | _ :: s' => includes s' p
  end.

(** [s.substring(n)] *)
Definition substring_from (n : nat) (s : jsstring) : jsstring := drop n s.

(** [s.substring(0, n)] *)
Definition substring_to (n : nat) (s : jsstring) : jsstring := take n s.

(** the white space of [String.prototype.trim] and of the class [\s]:
    WhiteSpace and LineTerminator code units. *)
Definition is_space (c : N) : bool :=
  ((9 <=? c) && (c <=? 13)) || (c =? 32) || (c =? 160) || (c =? 5760)
  || ((8192 <=? c) && (c <=? 8202)) || (c =? 8232) || (c =? 8233)
  || (c =? 8239) || (c =? 8287) || (c =? 12288) || (c =? 65279).

(** what [.] does not match (no [s] flag): the line terminators. *)
Definition is_line_terminator (c : N) : bool :=
  (c =? 10) || (c =? 13) || (c =? 8232) || (c =? 8233).

Fixpoint trimStart (s : jsstring) : jsstring :=
  match s with
  | c :: s' => if is_space c then trimStart s' else s
  | [] => []
  end.

(** [s.trim()] *)
Definition trim (s : jsstring) : jsstring :=
  rev (trimStart (rev (trimStart s))).

(** [s.split(sep)] for a separator of one code unit. *)
Fixpoint split_on (sep : N) (s : jsstring) : list jsstring :=
  match s with
  | [] => [[]]
  | c :: s' =>
      if c =? sep then [] :: split_on sep s'
      else match split_on sep s' with
           | cur :: more => (c :: cur) :: more
           | [] => [[c]]
           end
  end.

(** [s.split(/\s+/)]: the pieces between maximal runs of white space; a
    run at either end of the string leaves an empty piece there.
    [in_sep] tells that the scan is inside a run of white space. *)
Fixpoint split_ws_from (in_sep : bool) (s : jsstring) : list jsstring :=
  match s with
  | [] => [[]]
  | c :: s' =>
      if is_space c then
        if in_sep then split_ws_from true s' else [] :: split_ws_from true s'
      else match split_ws_from false s' with
           | cur :: more => (c :: cur) :: more
           | [] => [[c]]
           end
  end.

Definition split_ws (s : jsstring) : list jsstring := split_ws_from false s.

End JS.

Import JS.

(** ** Insertion-ordered sets

    [new Set(array)], [set.add(x)] and [Array.from(set)]: a JavaScript
    [Set] keeps its elements in insertion order, and adding an element that
    is present changes nothing. *)

Module JSSet.

Definition add (set : list jsstring) (x : jsstring) : list jsstring :=
  if decide (x ∈ set) then set else set ++ [x].

Definition add_all (set : list jsstring) (xs : list jsstring) : list jsstring :=
  foldl add set xs.

(** [[...new Set(xs)]] *)
Definition of_array (xs : list jsstring) : list jsstring := add_all [] xs.

End JSSet.

(** ** src/github.js: the pure functions *)

Module Github.

(** [[a-zA-Z0-9]] *)
Definition is_alnum (c : N) : bool :=
  ((48 <=? c) && (c <=? 57)) || ((65 <=? c) && (c <=? 90))
  || ((97 <=? c) && (c <=? 122)).

(** [[a-zA-Z0-9-]] *)
Definition is_handle_char (c : N) : bool := is_alnum c || (c =? 45).

(** the greedy [[a-zA-Z0-9-]*]: the longest run at the head of [s]. *)
Fixpoint handle_run (s : jsstring) : jsstring :=
  match s with
  | c :: s' => if is_handle_char c then c :: handle_run s' else []
  | [] => []
  end.

(** [[a-zA-Z0-9-]*[a-zA-Z0-9]] inside a run: the star gives characters back
    until the last alphanumeric of the run; no alphanumeric, no match. *)
Fixpoint upto_last_alnum (r : jsstring) : option jsstring :=
  match r with
  | [] => None
  | c :: r' =>
      match upto_last_alnum r' with
      | Some t => Some (c :: t)
      | None => if is_alnum c then Some [c] else None
      end
  end.

(** group 1 of [/@([a-zA-Z0-9](?:[a-zA-Z0-9-]*[a-zA-Z0-9])?)/] when the
    [@] was just read and [s] is what follows it. *)
Definition match_handle (s : jsstring) : option jsstring :=
  match s with
  | c :: s' =>
      if is_alnum c
      then Some (c :: default [] (upto_last_alnum (handle_run s')))
      else None
  | [] => None
  end.

(** [[...text.matchAll(mentionPattern)].map(match => match[1])]: the
    search resumes where the last match ended. *)
Equations matchAll_mentions (s : jsstring) : list jsstring by wf (length s) lt :=
matchAll_mentions [] := [];
matchAll_mentions (c :: s') with (if c =? 64 then match_handle s' else None) := {
  | Some h => h :: matchAll_mentions (drop (length h) s')
  | None => matchAll_mentions s'
}.
Next Obligation. rewrite length_drop. lia. Qed.

(** [extractMentions(text)]; [text] may be [null]. *)
Definition extractMentions (text : option jsstring) : list jsstring :=
  if negb (truthy_opt text) then []
  else JSSet.of_array (matchAll_mentions (default [] text)).

(** [(.+?)] followed by the literal [term]: the shortest non-empty run of
    characters other than line terminators after which [term] follows. *)
Fixpoint lazy_until (term : jsstring) (s : jsstring) : option jsstring :=
  match s with
  | [] => None
  | c :: s' =>
      if is_line_terminator c then None
      else if startsWith s' term then Some [c]
      else option_map (cons c) (lazy_until term s')
  end.

(** group 1 of [s.match(/<prefix>(.+?) -->/)]: the leftmost position where
    the pattern matches. *)
Fixpoint match_marker (prefix : jsstring) (s : jsstring) : option jsstring :=
  match (if startsWith s prefix
         then lazy_until (lit " -->") (drop (length prefix) s)
         else None) with
  | Some captured => Some captured
  | None =>
      match s with
      | [] => None
      | _ :: s' => match_marker prefix s'
      end
  end.

Definition thread_ts_prefix : jsstring := lit "<!-- slack-thread-ts: ".
Definition status_prefix : jsstring := lit "<!-- slack-status: ".

(** the body of [getSlackThreadTs] once the pull request is fetched:
    [body.match(/<!-- slack-thread-ts: (.+?) -->/)], then
    [match && match[1]]. *)
Definition thread_ts_of_body (body : jsstring) : option jsstring :=
  match match_marker thread_ts_prefix body with
  | Some ts => if truthy ts then Some ts else None
  | None => None
  end.

Record rule := { pattern : jsstring; owners : list jsstring }.

(** one turn of the loop of [parseCodeowners] over the lines. *)
Definition parse_line (rules : list rule) (line : jsstring) : list rule :=
  let trimmed := trim line in
  if negb (truthy trimmed) || startsWith trimmed (lit "#") then rules
  else
    let parts := split_ws trimmed in
    if (length parts <? 2)%nat then rules
    else
      let pattern := default [] (head parts) in
      let owners :=
        map (substring_from 1)
            (List.filter (fun o => startsWith o (lit "@")) (drop 1 parts)) in
      if (0 <? length owners)%nat
      then rules ++ [{| pattern := pattern; owners := owners |}]
      else rules.

(** the rules in file order, before [rules.reverse()]. *)
Definition rules_in_file_order (content : jsstring) : list rule :=
  foldl parse_line [] (split_on 10 content).

Definition parseCodeowners (content : jsstring) : list rule :=
  rev (rules_in_file_order content).

Definition matchPattern (file pattern : jsstring) : bool :=
  if str_eqb pattern (lit "*") then true
  else if startsWith pattern (lit "*.") then
    let ext := substring_from 1 pattern in
    endsWith file ext
  else if endsWith pattern (lit "/") then
    startsWith file pattern
    || startsWith file (substring_to (length pattern - 1) pattern)
  else if startsWith pattern (lit "/") then
    str_eqb file (substring_from 1 pattern)
    || startsWith file (substring_from 1 pattern ++ lit "/")
  else includes file pattern.

(** the inner loop of [getCodeOwners]: the first rule that matches, then
    [break]. *)
Fixpoint first_match (file : jsstring) (rules : list rule) : option rule :=
  match rules with
  | [] => None
  | r :: rules' =>
      if matchPattern file r.(pattern) then Some r else first_match file rules'
  end.

(** one turn of the outer loop of [getCodeOwners]. *)
Definition add_file_owners (rules : list rule) (ownersSet : list jsstring)
    (file : jsstring) : list jsstring :=
  match first_match file rules with
  | Some r => JSSet.add_all ownersSet r.(owners)
  | None => ownersSet
  end.

(** both loops, then [Array.from(ownersSet)]. *)
Definition owners_of_files (rules : list rule) (changedFiles : list jsstring)
    : list jsstring :=
  foldl (add_file_owners rules) [] changedFiles.

End Github.

Import Github.

(** ** The outside world

    The code host and the chat directory answer the calls of the program.
    Every call is logged; a call may throw.  The pull requests of the code
    host are the only state the program changes there. *)

Module World.

(** the fields of a pull request payload that the handlers decide on and
    persist; the fields that only the message composer renders (the diff
    statistics, the link of the author, the assignees, the names of the
    repository) are left out. *)
Record pull_request := {
  pr_number : N;
  pr_title : jsstring;
  pr_html_url : jsstring;
  pr_user_login : jsstring;
  pr_body : option jsstring;
  pr_base_ref : jsstring;
  pr_head_ref : jsstring;
  pr_draft : bool;
  pr_requested_reviewers : list jsstring
}.

(** the record built by [parsePRData]. *)
Record prData := {
  number : N;
  title : jsstring;
  url : jsstring;
  author : jsstring;
  body : jsstring;
  base : jsstring;
  head : jsstring;
  isDraft : bool;
  reviewers : list jsstring
}.

(** the record built by [parseCommentData]. *)
Record commentData := {
  eventType : jsstring;
  prNumber : N;
  c_author : jsstring;
  c_body : option jsstring;
  c_url : jsstring;
  reviewState : option jsstring
}.

(** what [createPRNotificationMessage] is given. *)
Record pr_message := {
  m_prData : prData;
  m_reviewerSlackIds : list jsstring;
  m_authorSlackId : option jsstring;
  m_status : jsstring
}.

(** what [createCommentMessage] is given. *)
Record comment_message := {
  cm_commentData : commentData;
  cm_mentionedSlackIds : list jsstring;
  cm_authorSlackId : option jsstring
}.

Inductive event :=
| EvLookupByEmail (email : jsstring)
| EvLookupByEmailMember (name : jsstring)
| EvGetByUsername (username : jsstring)
| EvPullsGet (n : N)
| EvPullsUpdate (n : N) (new_body : jsstring)
| EvListFiles (n : N)
| EvGetContent (path : jsstring)
| EvPostMessage (channel : jsstring) (m : pr_message)
| EvChatUpdate (channel ts : jsstring) (m : pr_message)
| EvThreadReply (channel thread_ts : jsstring) (m : comment_message)
| EvNotifying (count : nat) (source : jsstring).

(** the answer of [users.lookupByEmail]: [result.ok] and [result.user.id]. *)
Record lookup_response := { l_ok : bool; l_user : option jsstring }.

(** the answer of [chat.postMessage] and [chat.update]. *)
Record chat_response := { r_ok : bool; r_ts : jsstring }.

(** the answers of the services; [None] is a call that throws. *)
Record Env := {
  users_lookupByEmail : jsstring -> option lookup_response;
  users_lookupByEmail_member : jsstring -> option lookup_response;
  users_getByUsername : jsstring -> option (option jsstring);
  pulls_listFiles : N -> option (list jsstring);
  repos_getContent : jsstring -> option jsstring;
  base64_decode : jsstring -> jsstring;
  chat_postMessage : jsstring -> option jsstring -> option chat_response;
  chat_update : jsstring -> jsstring -> option chat_response
}.

Record world := { prs : gmap N pull_request; log : list event }.

Inductive outcome (A : Type) :=
| Ret (a : A)
| Throw.
Arguments Ret {A} a.
Arguments Throw {A}.

Definition M (A : Type) : Type := world -> outcome A * world.

Definition ret {A} (a : A) : M A := fun w => (Ret a, w).

Definition throw {A} : M A := fun w => (Throw, w).

Definition bind {A B} (m : M A) (k : A -> M B) : M B :=
  fun w =>
    match m w with
    | (Ret a, w') => k a w'
    | (Throw, w') => (Throw, w')
    end.

(** [try { m } catch (error) { handler }] *)
Definition try_catch {A} (m : M A) (handler : M A) : M A :=
  fun w =>
    match m w with
    | (Ret a, w') => (Ret a, w')
    | (Throw, w') => handler w'
    end.

(** the world after some more calls were logged. *)
Definition logged (w : world) (es : list event) : world :=
  {| prs := w.(prs); log := w.(log) ++ es |}.

Definition emit (e : event) : M unit :=
  fun w => (Ret tt, logged w [e]).

(** a call to a service whose answer does not depend on the state. *)
Definition call {A} (e : event) (answer : option A) : M A :=
  bind (emit e) (fun _ =>
    match answer with
    | Some a => ret a
    | None => throw
    end).

(** [octokit.rest.pulls.get]: throws when the pull request is unknown. *)
Definition pulls_get (n : N) : M pull_request :=
  bind (emit (EvPullsGet n)) (fun _ w =>
    match w.(prs) !! n with
    | Some pr => (Ret pr, w)
    | None => (Throw, w)
    end).

(** [octokit.rest.pulls.update] of the body. *)
Definition pulls_update (n : N) (new_body : jsstring) : M unit :=
  bind (emit (EvPullsUpdate n new_body)) (fun _ w =>
    match w.(prs) !! n with
    | Some pr =>
        let pr' := {| pr_number := pr.(pr_number); pr_title := pr.(pr_title);
                      pr_html_url := pr.(pr_html_url);
                      pr_user_login := pr.(pr_user_login);
                      pr_body := Some new_body;
                      pr_base_ref := pr.(pr_base_ref);
                      pr_head_ref := pr.(pr_head_ref);
                      pr_draft := pr.(pr_draft);
                      pr_requested_reviewers := pr.(pr_requested_reviewers) |} in
        (Ret tt, {| prs := <[n := pr']> w.(prs); log := w.(log) |})
    | None => (Throw, w)
    end).

End World.

Import World.

Notation "'let*' x ':=' m 'in' k" := (bind m (fun x => k))
  (at level 10, x pattern, m at level 100, k at level 200).

(** the configuration object of [src/config.js].  [email_mappings] holds
    the own properties of the mapping object, a plain object. *)
Record config := {
  email_mappings : gmap jsstring jsstring;
  default_reviewers : list jsstring;
  auto_match_by_email : bool
}.

(** the names of the members that a plain object inherits from
    [Object.prototype]. *)
Definition object_prototype_members : list jsstring :=
  [lit "constructor"; lit "__defineGetter__"; lit "__defineSetter__";
   lit "hasOwnProperty"; lit "__lookupGetter__"; lit "__lookupSetter__";
   lit "isPrototypeOf"; lit "propertyIsEnumerable"; lit "toString";
   lit "valueOf"; lit "__proto__"; lit "toLocaleString"].

(** what a property read gives on the mapping object: a string of its
    own, or a member inherited from [Object.prototype] (a function, or the
    prototype itself under [__proto__]), which is no string and is
    truthy. *)
Inductive mapped_value :=
| own_string (s : jsstring)
| inherited_member (name : jsstring).

(** [o[key]] on a plain object [o] with the own properties [own]: an own
    property shadows an inherited member of the same name; [None] is
    [undefined]. *)
Definition get_property (own : gmap jsstring jsstring) (key : jsstring)
    : option mapped_value :=
  match own !! key with
  | Some s => Some (own_string s)
  | None =>
      if bool_decide (key ∈ object_prototype_members)
      then Some (inherited_member key)
      else None
  end.

(** ** src/mapper.js *)

Module Mapper.
Section WithEnv.
Context (env : Env).

Definition emailToSlackId (email : jsstring) : M (option jsstring) :=
  try_catch
    (let* result := call (EvLookupByEmail email)
                         (env.(users_lookupByEmail) email) in
     match result.(l_ok), result.(l_user) with
     | true, Some id => ret (Some id)
     | _, _ => ret None
     end)
    (ret None).

(** [emailToSlackId] on an argument that is no string but the member of
    [Object.prototype] of a name: the same code, the call going out with
    that value as the email. *)
Definition emailToSlackId_member (name : jsstring) : M (option jsstring) :=
  try_catch
    (let* result := call (EvLookupByEmailMember name)
                         (env.(users_lookupByEmail_member) name) in
     match result.(l_ok), result.(l_user) with
     | true, Some id => ret (Some id)
     | _, _ => ret None
     end)
    (ret None).

Definition getGitHubUserEmail (username : jsstring) : M (option jsstring) :=
  try_catch
    (let* user_email := call (EvGetByUsername username)
                             (env.(users_getByUsername) username) in
     ret user_email)
    (ret None).

(** block 1 of [mapGitHubUserToSlack], "Check if there's a mapping in
    config file": [Some slackId] when the block returns [slackId]. *)
Definition by_mapping (githubUsername : jsstring) (cfg : config)
    : M (option jsstring) :=
  let mappedEmail := get_property cfg.(email_mappings) githubUsername in
  match mappedEmail with
  | Some (own_string email) =>
      if truthy email then
        let* slackId := emailToSlackId email in
        ret (if_truthy slackId)
      else ret None
  | Some (inherited_member name) =>
      let* slackId := emailToSlackId_member name in
      ret (if_truthy slackId)
  | None => ret None
  end.

(** block 2, "Try auto-matching by GitHub email if enabled". *)
Definition by_auto_match (githubUsername : jsstring) (cfg : config)
    : M (option jsstring) :=
  if cfg.(auto_match_by_email) then
    let* githubEmail := getGitHubUserEmail githubUsername in
    if truthy_opt githubEmail then
      let* slackId := emailToSlackId (default [] githubEmail) in
      ret (if_truthy slackId)
    else ret None
  else ret None.

Definition mapGitHubUserToSlack (githubUsername : jsstring) (cfg : config)
    : M (option jsstring) :=
  let* returned := by_mapping githubUsername cfg in
  match returned with
  | Some slackId => ret (Some slackId)
  | None =>
      let* returned := by_auto_match githubUsername cfg in
      match returned with
      | Some slackId => ret (Some slackId)
      | None => ret None
      end
  end.

(** the loop of [mapGitHubUsersToSlack], [slackIds] being the array built
    so far. *)
Fixpoint mapGitHubUsersToSlack_loop (githubUsernames : list jsstring)
    (cfg : config) (slackIds : list jsstring) : M (list jsstring) :=
  match githubUsernames with
  | [] => ret slackIds
  | username :: rest =>
      let* slackId := mapGitHubUserToSlack username cfg in
      mapGitHubUsersToSlack_loop rest cfg
        (match if_truthy slackId with
         | Some id => slackIds ++ [id]
         | None => slackIds
         end)
  end.

Definition mapGitHubUsersToSlack (githubUsernames : list jsstring)
    (cfg : config) : M (list jsstring) :=
  mapGitHubUsersToSlack_loop githubUsernames cfg [].

Fixpoint getDefaultReviewersSlackIds_loop (defaultReviewers : list jsstring)
    (slackIds : list jsstring) : M (list jsstring) :=
  match defaultReviewers with
  | [] => ret slackIds
  | email :: rest =>
      let* slackId := emailToSlackId email in
      getDefaultReviewersSlackIds_loop rest
        (match if_truthy slackId with
         | Some id => slackIds ++ [id]
         | None => slackIds
         end)
  end.

Definition getDefaultReviewersSlackIds (defaultReviewers : list jsstring)
    : M (list jsstring) :=
  getDefaultReviewersSlackIds_loop defaultReviewers [].

End WithEnv.
End Mapper.

Import Mapper.

(** ** src/github.js: the functions that call the code host *)

Module GithubIO.
Section WithEnv.
Context (env : Env).

(** [context.payload] of a [pull_request] event, as [parsePRData] reads
    it: the pull request and the repository, either of which may be
    missing. *)
Record pr_context := {
  payload_pull_request : option pull_request;
  payload_has_repository : bool
}.

Definition parsePRData (context : pr_context) : M prData :=
  match context.(payload_pull_request) with
  | None => throw
  | Some pull_request =>
      (* [context.payload.repository.name]: a TypeError without it *)
      if context.(payload_has_repository) then
        ret {| number := pull_request.(pr_number);
               title := pull_request.(pr_title);
               url := pull_request.(pr_html_url);
               author := pull_request.(pr_user_login);
               body := default [] pull_request.(pr_body);
               base := pull_request.(pr_base_ref);
               head := pull_request.(pr_head_ref);
               isDraft := pull_request.(pr_draft);
               reviewers := pull_request.(pr_requested_reviewers) |}
      else throw
  end.

(** [context] of the three comment-like events, as [parseCommentData]
    reads it. *)
Inductive comment_context :=
| issue_comment (issue_is_pull_request : bool) (issue_number : N)
    (login : jsstring) (comment_body : option jsstring) (html_url : jsstring)
| pull_request_review (pr_number : N) (login : jsstring)
    (review_body : option jsstring) (html_url : jsstring)
    (state : option jsstring)
| pull_request_review_comment (pr_number : N) (login : jsstring)
    (comment_body : option jsstring) (html_url : jsstring)
| other_event (eventName : jsstring).

Definition parseCommentData (context : comment_context) : M commentData :=
  match context with
  | issue_comment is_pr n login b u =>
      if negb is_pr then throw
      else ret {| eventType := lit "issue_comment"; prNumber := n;
                  c_author := login; c_body := b; c_url := u;
                  reviewState := None |}
  | pull_request_review n login b u st =>
      ret {| eventType := lit "pull_request_review"; prNumber := n;
             c_author := login;
             c_body := Some (if truthy_opt b then default [] b else []);
             c_url := u; reviewState := st |}
  | pull_request_review_comment n login b u =>
      ret {| eventType := lit "pull_request_review_comment"; prNumber := n;
             c_author := login; c_body := b; c_url := u;
             reviewState := None |}
  | other_event _ => throw
  end.

Definition getSlackThreadTs (prNumber : N) : M (option jsstring) :=
  try_catch
    (let* pr := pulls_get prNumber in
     let body := default [] pr.(pr_body) in
     ret (thread_ts_of_body body))
    (ret None).

Definition getChangedFiles (prNumber : N) : M (list jsstring) :=
  try_catch
    (call (EvListFiles prNumber) (env.(pulls_listFiles) prNumber))
    (ret []).

Definition codeowners_paths : list jsstring :=
  [lit ".github/CODEOWNERS"; lit "CODEOWNERS"; lit "docs/CODEOWNERS"].

(** the loop over the candidate paths; [None] is [codeownersContent]
    still [null] at the end. *)
Fixpoint find_codeowners (paths : list jsstring) : M (option jsstring) :=
  match paths with
  | [] => ret None
  | path :: rest =>
      let* hit :=
        try_catch
          (let* content := call (EvGetContent path)
                                (env.(repos_getContent) path) in
           if truthy content
           then ret (Some (env.(base64_decode) content))
           else ret None)
          (ret None) in
      match hit with
      | Some codeownersContent => ret (Some codeownersContent)
      | None => find_codeowners rest
      end
  end.

Definition getCodeOwners (prNumber : N) : M (list jsstring) :=
  try_catch
    (let* changedFiles := getChangedFiles prNumber in
     if (length changedFiles =? 0)%nat then ret []
     else
       let* codeownersContent := find_codeowners codeowners_paths in
       if negb (truthy_opt codeownersContent) then ret []
       else
         let rules := parseCodeowners (default [] codeownersContent) in
         ret (owners_of_files rules changedFiles))
    (ret []).

End WithEnv.
End GithubIO.

Import GithubIO.

(** ** The status helpers of src/github.js *)

Module Status.

(** Modelled from the spec: the table [PR_STATUS] is imported by the entry
    point from [./src/github] but is not in the sources at hand; the
    values are those of the status enumeration of the data model. *)
Definition REVIEW_PENDING : jsstring := lit "review-pending".
Definition IN_REVIEW : jsstring := lit "in-review".
Definition APPROVED : jsstring := lit "approved".
Definition CHANGES_REQUESTED : jsstring := lit "changes-requested".
Definition MERGED : jsstring := lit "merged".
Definition CLOSED : jsstring := lit "closed".

(** the two marker comments appended to the body by [handlePROpened]:
    [`\n\n<!-- slack-thread-ts: ${ts} -->\n<!-- slack-status: ${status} -->`] *)
Definition pointer_markers (ts status : jsstring) : jsstring :=
  lit "

<!-- slack-thread-ts: " ++ ts ++ lit " -->
<!-- slack-status: " ++ status ++ lit " -->".

(** Modelled from the spec: the reader of the status marker, which
    [getPRStatus] applies to the body, is not in the sources at hand; the
    marker is extracted by the same tolerant pattern as the thread marker,
    [/<!-- slack-status: (.+?) -->/]. *)
Definition status_of_body (body : jsstring) : option jsstring :=
  match_marker status_prefix body.

(** Modelled from the spec: [getPRStatus] is not in the sources at hand; it
    reads the pointer back from the code host, a failed read being a miss,
    and a pull request without a status marker is in the initial status. *)
Definition getPRStatus (prNumber : N) : M jsstring :=
  try_catch
    (let* pr := pulls_get prNumber in
     ret (default REVIEW_PENDING (status_of_body (default [] pr.(pr_body)))))
    (ret REVIEW_PENDING).

(** the body with its first status marker replaced by [marker], if it has
    one. *)
Fixpoint replace_status_marker (marker : jsstring) (s : jsstring)
    : option jsstring :=
  match (if startsWith s status_prefix
         then lazy_until (lit " -->") (drop (length status_prefix) s)
         else None) with
  | Some captured =>
      Some (marker
            ++ drop (length status_prefix + length captured + 4)%nat s)
  | None =>
      match s with
      | [] => None
      | c :: s' => option_map (cons c) (replace_status_marker marker s')
      end
  end.

(** Modelled from the spec: [updatePRStatus] is not in the sources at hand;
    it persists the new status into the pointer, overwriting the status
    marker alone (appending one when the body has none); the write is on
    the critical path and its failure propagates. *)
Definition updatePRStatus (prNumber : N) (newStatus : jsstring) : M unit :=
  let* pr := pulls_get prNumber in
  let body := default [] pr.(pr_body) in
  let marker := status_prefix ++ newStatus ++ lit " -->" in
  pulls_update prNumber
    (default (body ++ [10] ++ marker) (replace_status_marker marker body)).

End Status.

Import Status.

(** ** src/slack.js: sending *)

Module Slack.
Section WithEnv.
Context (env : Env).

Definition createPRNotificationMessage (d : prData)
    (reviewerSlackIds : list jsstring) (authorSlackId : option jsstring)
    (status : jsstring) : pr_message :=
  {| m_prData := d; m_reviewerSlackIds := reviewerSlackIds;
     m_authorSlackId := authorSlackId; m_status := status |}.

Definition createCommentMessage (c : commentData)
    (mentionedSlackIds : list jsstring) (authorSlackId : option jsstring)
    : comment_message :=
  {| cm_commentData := c; cm_mentionedSlackIds := mentionedSlackIds;
     cm_authorSlackId := authorSlackId |}.

Definition sendSlackMessage (channel : jsstring) (message : pr_message)
    : M chat_response :=
  try_catch
    (let* result := call (EvPostMessage channel message)
                         (env.(chat_postMessage) channel None) in
     if result.(r_ok) then ret result else throw)
    throw.

Definition sendThreadReply (channel threadTs : jsstring)
    (message : comment_message) : M chat_response :=
  try_catch
    (let* result := call (EvThreadReply channel threadTs message)
                         (env.(chat_postMessage) channel (Some threadTs)) in
     if result.(r_ok) then ret result else throw)
    throw.

Definition updateSlackMessage (channel messageTs : jsstring)
    (message : pr_message) : M chat_response :=
  try_catch
    (let* result := call (EvChatUpdate channel messageTs message)
                         (env.(chat_update) channel messageTs) in
     if result.(r_ok) then ret result else throw)
    throw.

End WithEnv.
End Slack.

Import Slack.

(** ** The entry point: the two handlers *)

Module Action.
Section WithEnv.
Context (env : Env).

(** [xs.forEach(x => { if (x !== author) set.add(x); })] *)
Definition add_all_but (author : jsstring) (set xs : list jsstring)
    : list jsstring :=
  JSSet.add_all set (List.filter (fun x => negb (str_eqb x author)) xs).

(** one source of reviewers, [xs] under the name [name], added to the
    set and to the list of sources:
    [if (xs.length > 0) { xs.forEach(...); sources.push(name); }] *)
Definition collect (author name : jsstring) (xs : list jsstring)
    (so_far : list jsstring * list jsstring)
    : list jsstring * list jsstring :=
  if (0 <? length xs)%nat
  then (add_all_but author so_far.1 xs, so_far.2 ++ [name])
  else so_far.

(** the block of [handlePROpened] from [let reviewerSlackIds = []] to the
    end of the default reviewers: the identities to notify and the label
    of their sources. *)
Definition reviewers_to_notify (allReviewers sources : list jsstring)
    (cfg : config) : M (list jsstring * jsstring) :=
  let* (reviewerSlackIds, reviewerSource) :=
    (if (0 <? length allReviewers)%nat then
       let* ids := mapGitHubUsersToSlack env allReviewers cfg in
       ret (ids, join (lit " + ") sources)
     else ret ([], lit "none")) in
  if (0 <? length cfg.(default_reviewers))%nat then
    let* defaultSlackIds :=
      getDefaultReviewersSlackIds env cfg.(default_reviewers) in
    let uniqueSlackIds :=
      JSSet.of_array (reviewerSlackIds ++ defaultSlackIds) in
    if (0 <? length defaultSlackIds)%nat
    then ret (uniqueSlackIds, join (lit " + ") (sources ++ [lit "default"]))
    else ret (uniqueSlackIds, reviewerSource)
  else ret (reviewerSlackIds, reviewerSource).

Definition handlePROpened (context : pr_context) (cfg : config)
    (slackChannel : jsstring) : M unit :=
  let* prData := parsePRData context in
  let* authorSlackId :=
    mapGitHubUserToSlack env prData.(author) cfg in
  let collected :=
    collect prData.(author) (lit "reviewers") prData.(reviewers) ([], []) in
  let* codeOwners := getCodeOwners env prData.(number) in
  let collected :=
    collect prData.(author) (lit "codeowners") codeOwners collected in
  let* (reviewerSlackIds, reviewerSource) :=
    reviewers_to_notify collected.1 collected.2 cfg in
  let* _ := emit (EvNotifying (length reviewerSlackIds) reviewerSource) in
  let initialStatus := REVIEW_PENDING in
  let message :=
    createPRNotificationMessage prData reviewerSlackIds authorSlackId
      initialStatus in
  let* result := sendSlackMessage env slackChannel message in
  let* _ := pulls_update prData.(number)
      (prData.(body) ++ pointer_markers result.(r_ts) initialStatus) in
  ret tt.

(** the new status that [handleComment] derives from the event and the
    status read back. *)
Definition nextStatus (reviewState : option jsstring)
    (currentStatus : jsstring) : jsstring :=
  if opt_is reviewState (lit "approved") then APPROVED
  else if opt_is reviewState (lit "changes_requested") then CHANGES_REQUESTED
  else if str_eqb currentStatus REVIEW_PENDING then IN_REVIEW
  else currentStatus.

(** the block of [handleComment] under [if (newStatus !== currentStatus)]:
    the status is persisted, the pull request fetched again and the head
    message rendered again. *)
Definition refresh_head_message (commentData : commentData) (cfg : config)
    (slackChannel threadTs newStatus : jsstring) : M unit :=
  let* _ := updatePRStatus commentData.(prNumber) newStatus in
  let* pr := pulls_get commentData.(prNumber) in
  (* [parsePRData({ payload: { pull_request: pr } })]: the payload has no
     [repository] *)
  let* parsed := parsePRData {| payload_pull_request := Some pr;
                                payload_has_repository := false |} in
  let prData :=
    {| number := parsed.(number); title := parsed.(title);
       url := parsed.(url); author := parsed.(author);
       body := default [] pr.(pr_body);
       base := parsed.(base); head := parsed.(head);
       isDraft := parsed.(isDraft); reviewers := parsed.(reviewers) |} in
  let allReviewers :=
    add_all_but pr.(pr_user_login) [] pr.(pr_requested_reviewers) in
  let* reviewerSlackIds := mapGitHubUsersToSlack env allReviewers cfg in
  let* authorSlackIdForUpdate :=
    mapGitHubUserToSlack env pr.(pr_user_login) cfg in
  let updatedMessage :=
    createPRNotificationMessage prData reviewerSlackIds
      authorSlackIdForUpdate newStatus in
  let* _ := updateSlackMessage env slackChannel threadTs updatedMessage in
  ret tt.

(** [reviewState === 'approved' || reviewState === 'changes_requested'] *)
Definition is_verdict (reviewState : option jsstring) : bool :=
  opt_is reviewState (lit "approved")
  || opt_is reviewState (lit "changes_requested").

(** the array [targetUsers] of [handleComment] before it goes through a
    [Set]: [author] is the login of the pull request fetched for a
    verdict. *)
Definition targetUsers_of (verdict_author : list jsstring)
    (comment_body : option jsstring) : list jsstring :=
  let mentions := extractMentions comment_body in
  if (0 <? length mentions)%nat then verdict_author ++ mentions
  else verdict_author.

(** the rest of [handleComment], from [let targetUsers = []] on. *)
Definition notify_thread (commentData : commentData) (cfg : config)
    (slackChannel threadTs : jsstring) : M unit :=
  let* targetUsers :=
    (if is_verdict commentData.(reviewState) then
       let* pr := pulls_get commentData.(prNumber) in
       ret [pr.(pr_user_login)]
     else ret []) in
  let targetUsers := targetUsers_of targetUsers commentData.(c_body) in
  if (length targetUsers =? 0)%nat then ret tt
  else
    let targetUsers := JSSet.of_array targetUsers in
    let* targetSlackIds := mapGitHubUsersToSlack env targetUsers cfg in
    if (length targetSlackIds =? 0)%nat then ret tt
    else
      let* authorSlackId :=
        mapGitHubUserToSlack env commentData.(c_author) cfg in
      let message :=
        createCommentMessage commentData targetSlackIds authorSlackId in
      let* _ := sendThreadReply env slackChannel threadTs message in
      ret tt.

Definition handleComment (context : comment_context) (cfg : config)
    (slackChannel : jsstring) : M unit :=
  let* commentData := parseCommentData context in
  if str_eqb commentData.(c_author) (lit "github-actions[bot]") then ret tt
  else
    let* threadTs := getSlackThreadTs commentData.(prNumber) in
    match if_truthy threadTs with
    | None => ret tt
    | Some threadTs =>
        let* currentStatus := getPRStatus commentData.(prNumber) in
        let newStatus := nextStatus commentData.(reviewState) currentStatus in
        let* _ :=
          (if negb (str_eqb newStatus currentStatus)
           then refresh_head_message commentData cfg slackChannel threadTs
                  newStatus
           else ret tt) in
        notify_thread commentData cfg slackChannel threadTs
    end.

End WithEnv.
End Action.

Import Action.

(** ** A scenario

    The pull request 7 of [alice], with the handles, the emails and the
    chat identities of the examples of the specification. *)

Module Scenario.

Definition alice : jsstring := lit "alice".
Definition bob : jsstring := lit "bob".
Definition bobby : jsstring := lit "bobby".
Definition carol : jsstring := lit "carol".

(** the chat directory: four users, an email whose lookup throws, and no
    user for any other email. *)
Definition directory (email : jsstring) : option lookup_response :=
  if str_eqb email (lit "alice@co.com")
  then Some {| l_ok := true; l_user := Some (lit "U1") |}
  else if str_eqb email (lit "bob@co.com")
  then Some {| l_ok := true; l_user := Some (lit "U2") |}
  else if str_eqb email (lit "carol@co.com")
  then Some {| l_ok := true; l_user := Some (lit "U3") |}
  else if str_eqb email (lit "dave@co.com")
  then Some {| l_ok := true; l_user := Some (lit "U4") |}
  else if str_eqb email (lit "boom@co.com") then None
  else Some {| l_ok := false; l_user := None |}.

(** the ownership file: everything to [bob], the documentation to
    [carol]. *)
Definition codeowners : jsstring := lit "* @bob
docs/ @carol".

Definition env : Env :=
  {| users_lookupByEmail := directory;
     users_lookupByEmail_member := fun _ => None;
     users_getByUsername := fun _ => Some None;
     pulls_listFiles := fun _ => Some [lit "src/a.js"; lit "docs/x.md"];
     repos_getContent := fun path =>
       if str_eqb path (lit "CODEOWNERS") then Some codeowners else None;
     base64_decode := fun content => content;
     chat_postMessage := fun _ _ =>
       Some {| r_ok := true; r_ts := lit "123.45" |};
     chat_update := fun _ ts => Some {| r_ok := true; r_ts := ts |} |}.

(** the same, without an ownership file. *)
Definition env_no_codeowners : Env :=
  {| users_lookupByEmail := directory;
     users_lookupByEmail_member := fun _ => None;
     users_getByUsername := fun _ => Some None;
     pulls_listFiles := fun _ => Some [lit "src/a.js"; lit "docs/x.md"];
     repos_getContent := fun _ => None;
     base64_decode := fun content => content;
     chat_postMessage := fun _ _ =>
       Some {| r_ok := true; r_ts := lit "123.45" |};
     chat_update := fun _ ts => Some {| r_ok := true; r_ts := ts |} |}.

Definition mappings : gmap jsstring jsstring :=
  list_to_map [ (alice, lit "alice@co.com"); (bob, lit "bob@co.com");
                (bobby, lit "bob@co.com"); (carol, lit "carol@co.com");
                (lit "erin", lit "boom@co.com") ].

Definition cfg : config :=
  {| email_mappings := mappings;
     default_reviewers := [lit "dave@co.com"];
     auto_match_by_email := true |}.

Definition cfg_no_default : config :=
  {| email_mappings := mappings;
     default_reviewers := [];
     auto_match_by_email := true |}.

Definition pr7 (body : option jsstring) (requested : list jsstring)
    : pull_request :=
  {| pr_number := 7; pr_title := lit "Fix things";
     pr_html_url := lit "https://example.org/pull/7";
     pr_user_login := alice; pr_body := body;
     pr_base_ref := lit "main"; pr_head_ref := lit "fix";
     pr_draft := false; pr_requested_reviewers := requested |}.

Definition opened (requested : list jsstring) : pr_context :=
  {| payload_pull_request := Some (pr7 (Some (lit "Fix things")) requested);
     payload_has_repository := true |}.

Definition world_of (body : jsstring) (requested : list jsstring) : world :=
  {| prs := {[ 7 := pr7 (Some body) requested ]}; log := [] |}.

Definition channel : jsstring := lit "C0".

(** the body of pull request 7 once the thread exists, in a status. *)
Definition body_with_pointer (status : jsstring) : jsstring :=
  lit "Fix things" ++ pointer_markers (lit "123.45") status.

Definition bot_comment : comment_context :=
  issue_comment true 7 (lit "github-actions[bot]")
    (Some (lit "Deployed, cc @alice")) (lit "https://example.org/c/1").

Definition plain_comment : comment_context :=
  issue_comment true 7 bob
    (Some (lit "please look @carol and @alice, and @carol again"))
    (lit "https://example.org/c/2").

End Scenario.

(** ** Vocabulary of the statements *)

Module Vocabulary.

(** the text in which each handle of [hs] stands right after an [@] and is
    followed by its gap of [gaps]. *)
Fixpoint weave (hs gaps : list jsstring) : jsstring :=
  match hs, gaps with
  | h :: hs', g :: gaps' => 64 :: h ++ g ++ weave hs' gaps'
  | _, _ => []
  end.

(** a handle starts and ends with an alphanumeric and is made of
    alphanumerics and hyphens. *)
Definition handle_shape (h : jsstring) : Prop :=
  (∃ a, h !! 0%nat = Some a ∧ is_alnum a = true)
  ∧ (∃ z, last h = Some z ∧ is_alnum z = true)
  ∧ Forall (fun c => is_handle_char c = true) h.

(** the handle characters at the head of [g] are hyphens only. *)
Definition only_hyphens_at_head (g : jsstring) : Prop :=
  Forall (fun c => c = 45) (handle_run g).

(** a text without mention: no [@] of it is followed by an
    alphanumeric. *)
Definition no_mention (g : jsstring) : Prop :=
  ∀ pre c rest, g = pre ++ 64 :: c :: rest → is_alnum c = false.

(** the mentions of a text, marked: the text is [g0], then each handle of
    [found] in turn, right after an [@] and followed by its gap; no
    mention is left in [g0] or in a gap; each handle has the shape of a
    handle, and after it the token goes on with hyphens only. *)
Definition mentions_marked (text g0 : jsstring) (found gaps : list jsstring)
    : Prop :=
  length gaps = length found
  ∧ text = g0 ++ weave found gaps
  ∧ no_mention g0
  ∧ Forall no_mention gaps
  ∧ Forall only_hyphens_at_head gaps
  ∧ Forall handle_shape found.

(** the rule that a line of an ownership file stands for, in the words of
    the specification: none for a blank line, a comment line, a line of
    fewer than two tokens and a line without an owner that starts with
    [@]; otherwise the first token as the pattern and the owners that start
    with [@], less the [@]. *)
Definition rule_of_line (line : jsstring) : option rule :=
  let tokens := split_ws (trim line) in
  let at_owners :=
    List.filter (fun o => startsWith o (lit "@")) (drop 1 tokens) in
  if decide (trim line = [] ∨ lit "#" `prefix_of` trim line
             ∨ (length tokens < 2)%nat ∨ at_owners = [])
  then None
  else Some {| pattern := default [] (tokens !! 0%nat);
               owners := map (drop 1) at_owners |}.


(** the ownership file that is found: the content of the first candidate
    path that answers with some content. *)
Definition found_codeowners (env : Env) : option jsstring :=
  omap (fun path =>
          match env.(repos_getContent) path with
          | Some content =>
              if truthy content
              then Some (env.(base64_decode) content)
              else None
          | None => None
          end) codeowners_paths !! 0%nat.

(** what the chat directory gives for an email: a lookup that throws, that
    is not [ok] or that has no user gives nothing. *)
Definition lookup_id (env : Env) (email : jsstring) : option jsstring :=
  match env.(users_lookupByEmail) email with
  | Some result => if result.(l_ok) then result.(l_user) else None
  | None => None
  end.

(** what the chat directory gives when it is asked with a member of
    [Object.prototype] for an email. *)
Definition lookup_member_id (env : Env) (name : jsstring) : option jsstring :=
  match env.(users_lookupByEmail_member) name with
  | Some result => if result.(l_ok) then result.(l_user) else None
  | None => None
  end.

(** step 1 of the resolution: the mapping table, then the directory. The
    table is read as a property of a plain object, so that a handle
    without entry that names a member of [Object.prototype] reads that
    member, and the directory is asked with it. *)
Definition table_step (env : Env) (cfg : config) (handle : jsstring)
    : option jsstring :=
  match get_property cfg.(email_mappings) handle with
  | Some (own_string email) =>
      if truthy email then if_truthy (lookup_id env email) else None
  | Some (inherited_member name) => if_truthy (lookup_member_id env name)
  | None => None
  end.

(** the call that step 1 makes, if any. *)
Definition table_calls (cfg : config) (handle : jsstring) : list event :=
  match get_property cfg.(email_mappings) handle with
  | Some (own_string email) =>
      if truthy email then [EvLookupByEmail email] else []
  | Some (inherited_member name) => [EvLookupByEmailMember name]
  | None => []
  end.

(** the public email of a handle; a lookup that throws gives nothing. *)
Definition public_email (env : Env) (handle : jsstring) : option jsstring :=
  match env.(users_getByUsername) handle with
  | Some email => if_truthy email
  | None => None
  end.

(** step 2 of the resolution: the public email, then the directory. *)
Definition auto_step (env : Env) (handle : jsstring) : option jsstring :=
  match public_email env handle with
  | Some email => if_truthy (lookup_id env email)
  | None => None
  end.

(** the contract of the identity mapper: step 1, then step 2 when
    automatic matching is enabled and step 1 gave nothing, else absent. *)
Definition resolve (env : Env) (cfg : config) (handle : jsstring)
    : option jsstring :=
  match table_step env cfg handle with
  | Some id => Some id
  | None => if cfg.(auto_match_by_email) then auto_step env handle else None
  end.

(** the calls that the resolution of a handle makes, in order. *)
Definition resolve_calls (env : Env) (cfg : config) (handle : jsstring)
    : list event :=
  table_calls cfg handle ++
  match table_step env cfg handle with
  | Some _ => []
  | None =>
      if cfg.(auto_match_by_email) then
        EvGetByUsername handle ::
        match public_email env handle with
        | Some email => [EvLookupByEmail email]
        | None => []
        end
      else []
  end.

(** a thread reply among the calls. *)
Definition is_reply (e : event) : Prop :=
  match e with
  | EvThreadReply _ _ _ => True
  | _ => False
  end.

(** the pull requests of [w'] have the authors they have in [w]. *)
Definition same_logins (w w' : world) : Prop :=
  ∀ n, pr_user_login <$> (prs w' !! n) = pr_user_login <$> (prs w !! n).

(** a computation that only adds calls to the log, none of them a thread
    reply, and that leaves the authors of the pull requests alone. *)
Definition quiet {A} (m : M A) : Prop :=
  ∀ w, ∃ es, log (m w).2 = log w ++ es
             ∧ Forall (fun e => ¬ is_reply e) es
             ∧ same_logins w (m w).2.

(** the people that the thread reply to a comment-like event is for: the
    author of the pull request for a verdict, and the handles mentioned in
    the body. *)
Definition reply_targets (w : world) (c : commentData) : list jsstring :=
  JSSet.of_array
    ((if is_verdict c.(reviewState)
      then option_list (pr_user_login <$> (prs w !! c.(prNumber)))
      else [])
     ++ extractMentions c.(c_body)).

(** the thread reply that a comment-like event calls for in a world: it
    goes to the channel, carries the resolved targets, and there are
    targets. *)
Definition reply_for (env : Env) (cfg : config) (channel : jsstring)
    (c : commentData) (w : world) (e : event) : Prop :=
  ∃ ts, e = EvThreadReply channel ts
              (createCommentMessage c
                 (omap (resolve env cfg) (reply_targets w c))
                 (resolve env cfg c.(c_author)))
        ∧ reply_targets w c ≠ [].

(** a computation that only adds calls to the log, of which the thread
    replies are as [P] says of the world it starts in. *)
Definition replies_satisfy {A} (P : world → event → Prop) (m : M A) : Prop :=
  ∀ w, ∃ es, log (m w).2 = log w ++ es
             ∧ ∀ e, is_reply e → e ∈ es → P w e.

(** a value that a marker comment can carry: not empty, without line
    terminator and without angle bracket. *)
Definition marker_value (v : jsstring) : Prop :=
  v ≠ [] ∧ Forall (fun c => is_line_terminator c = false ∧ c ≠ 60 ∧ c ≠ 62) v.

(** the head message among the calls. *)
Definition is_post (e : event) : Prop :=
  match e with
  | EvPostMessage _ _ => True
  | _ => False
  end.

(** the code owners of a pull request: the owners that the ownership file
    found gives to the changed files. *)
Definition code_owners (env : Env) (prNumber : N) : list jsstring :=
  let files := default [] (env.(pulls_listFiles) prNumber) in
  match files, found_codeowners env with
  | _ :: _, Some c =>
      if truthy c then owners_of_files (parseCodeowners c) files else []
  | _, _ => []
  end.

(** a computation that only adds calls to the log, of which the head
    messages are as [P] says. *)
Definition posts_satisfy {A} (P : event → Prop) (m : M A) : Prop :=
  ∀ w, ∃ es, log (m w).2 = log w ++ es
             ∧ ∀ e, is_post e → e ∈ es → P e.

(** the head message that a PR-opened event calls for: it goes to the
    channel with the initial status, and the identities it names are those
    of the assigned reviewers and of the code owners, the author left out,
    and those of the default reviewers; they are named once each when
    default reviewers are configured. *)
Definition post_for (env : Env) (cfg : config) (channel : jsstring)
    (d : prData) (e : event) : Prop :=
  ∃ m, e = EvPostMessage channel m
    ∧ m.(m_prData) = d
    ∧ m.(m_status) = REVIEW_PENDING
    ∧ (∀ id, id ∈ m.(m_reviewerSlackIds) ↔
         (∃ h, (h ∈ d.(reviewers) ∨ h ∈ code_owners env d.(number))
               ∧ h ≠ d.(author) ∧ resolve env cfg h = Some id)
         ∨ (∃ email, email ∈ cfg.(default_reviewers)
                     ∧ if_truthy (lookup_id env email) = Some id))
    ∧ (cfg.(default_reviewers) ≠ [] → NoDup m.(m_reviewerSlackIds)).

End Vocabulary.

Import Vocabulary.

(** ** src/github.js: the excerpt of the description *)

Module Excerpt.

(** the placeholder for a missing description, an underscore-framed Korean
    phrase of seven code units. *)
Definition no_description : jsstring :=
  [95; 49444; 47749; 32; 50630; 51020; 95].

Definition summarizePRBody (body : option jsstring) : jsstring :=
  let text := default [] body in
  if negb (truthy_opt body) || (length (trim text) =? 0)%nat
  then no_description
  else
    let lines :=
      List.filter (fun line => (0 <? length (trim line))%nat)
        (split_on 10 text) in
    let summary := join [10] (take 3 lines) in
    if (200 <? length summary)%nat
    then substring_to 197 summary ++ lit "..."
    else if truthy summary then summary else no_description.

End Excerpt.

Import Excerpt.

(** ** src/slack.js: the payload of a comment notification *)

Module Composer.

(** the blocks that [createCommentMessage] puts into a message. *)
Inductive block :=
| section_block (text : jsstring)
| context_block (text : jsstring)
| actions_block (button_text url style : jsstring).

Record payload := { p_blocks : list block; p_text : jsstring }.

(** [`<@${id}>`] *)
Definition mention_of (id : jsstring) : jsstring := lit "<@" ++ id ++ lit ">".

(** the emoji and the title of a comment notification, by the state of the
    review and the kind of the event. *)
Definition comment_heading (c : commentData) : jsstring * jsstring :=
  let speech := [55357; 56492] in
  let new_comment := [49352; 32; 53076; 47704; 53944] in
  if truthy_opt c.(reviewState) then
    if opt_is c.(reviewState) (lit "approved")
    then ([9989], [49849; 51064; 32] ++ lit "(Approved)")
    else if opt_is c.(reviewState) (lit "changes_requested")
    then ([55357; 56628],
          [48320; 44221; 32; 50836; 52397; 32] ++ lit "(Changes Requested)")
    else if opt_is c.(reviewState) (lit "commented")
    then (speech, [47532; 48624; 32; 53076; 47704; 53944])
    else (speech, new_comment)
  else if str_eqb c.(eventType) (lit "pull_request_review_comment")
  then ([55357; 56541],
        [53076; 46300; 32; 46972; 51064; 32; 53076; 47704; 53944])
  else (speech, new_comment).

(** the body of a comment as the message shows it: cut at 500 code
    units. *)
Definition truncate_body (comment_body : jsstring) : jsstring :=
  if (500 <? length comment_body)%nat
  then substring_to 497 comment_body ++ lit "..."
  else comment_body.

(** [`> ${truncatedBody.split('\n').join('\n> ')}`] *)
Definition quote_body (truncatedBody : jsstring) : jsstring :=
  lit "> " ++ join (10 :: lit "> ") (split_on 10 truncatedBody).

(** the payload that [createCommentMessage] builds from what it is
    given. *)
Definition createCommentMessage_payload (m : comment_message) : payload :=
  let commentData := m.(cm_commentData) in
  let authorMention :=
    match if_truthy m.(cm_authorSlackId) with
    | Some authorSlackId => mention_of authorSlackId
    | None => lit "@" ++ commentData.(c_author)
    end in
  let mentions := join (lit " ") (map mention_of m.(cm_mentionedSlackIds)) in
  let '(emoji, title) := comment_heading commentData in
  let blocks :=
    [section_block
       (emoji ++ lit " *" ++ title ++ lit "*" ++ [10] ++ authorMention
        ++ [45784; 51060; 32; 53076; 47704; 53944; 47484; 32; 45224; 44220;
            49845; 45768; 45796])] in
  let blocks :=
    if truthy_opt commentData.(c_body)
       && truthy (trim (default [] commentData.(c_body)))
    then blocks
         ++ [section_block
               (quote_body (truncate_body (default [] commentData.(c_body))))]
    else blocks in
  let blocks :=
    if truthy mentions
    then blocks
         ++ [context_block ([55357; 56420; 32; 47704; 49496; 58; 32] ++ mentions)]
    else blocks in
  let blocks :=
    blocks
    ++ [actions_block [53076; 47704; 53944; 32; 48372; 44592]
          commentData.(c_url)
          (if opt_is commentData.(reviewState) (lit "changes_requested")
           then lit "danger" else lit "primary")] in
  {| p_blocks := blocks;
     p_text := title ++ lit ": " ++ commentData.(c_author) |}.

End Composer.

Import Composer.

(** ** src/config.js *)

Module Config.

(** a scalar of the configuration document, as far as [!== false] tells
    scalars apart. *)
Inductive yaml_value :=
| yaml_bool (b : bool)
| yaml_other.

(** the two keys that [loadConfig] reads from the document; [None] is a
    key that is absent (or, for the reviewers, falsy). *)
Record yaml_document := {
  y_default_reviewers : option (list jsstring);
  y_auto_match_by_email : option yaml_value
}.

(** the file system and the YAML parser: a read or a parse that answers
    [None] throws; a parse that answers [Some None] gives [undefined] (an
    empty document). *)
Record file_system := {
  existsSync : jsstring -> bool;
  readFileSync : jsstring -> option jsstring;
  yaml_load : jsstring -> option (option yaml_document)
}.

(** the configuration returned when there is no file and from the
    [catch]. *)
Definition default_config (userMappings : gmap jsstring jsstring) : config :=
  {| email_mappings := userMappings;
     default_reviewers := [];
     auto_match_by_email := true |}.

Definition loadConfig (fs : file_system)
    (userMappings : gmap jsstring jsstring) (configPath : jsstring)
    : config :=
  if negb (fs.(existsSync) configPath) then default_config userMappings
  else
    match fs.(readFileSync) configPath with
    | None => default_config userMappings
    | Some fileContents =>
        match fs.(yaml_load) fileContents with
        | None => default_config userMappings
        | Some None =>
            (* [config.default_reviewers] on [undefined]: a TypeError,
               caught *)
            default_config userMappings
        | Some (Some document) =>
            {| email_mappings := userMappings;
               default_reviewers :=
                 default [] document.(y_default_reviewers);
               auto_match_by_email :=
                 match document.(y_auto_match_by_email) with
                 | Some (yaml_bool false) => false
                 | _ => true
                 end |}
        end
    end.

End Config.

Import Config.

(** ** The entry point: [run] *)

Module Entry.
Section WithEnv.
Context (env : Env).

(** the inputs of the action. *)
Record inputs := {
  slack_bot_token : jsstring;
  slack_channel : jsstring;
  github_token : jsstring;
  config_path : jsstring
}.

(** [github.context]: a [pull_request] event, or an event of another
    name, of which [parseCommentData] knows three. *)
Inductive github_context :=
| pull_request_event (context : pr_context)
| other_named_event (context : comment_context).

(** what the run reports: [core.setFailed] was called, or not. *)
Inductive run_result :=
| succeeded
| failed.

(** [core.getInput(name, { required: true })]: an empty value throws, and
    the value is trimmed. *)
Definition getInput_required (value : jsstring) : M jsstring :=
  if truthy value then ret (trim value) else throw.

(** [github.getOctokit(token)]: an empty token throws. *)
Definition getOctokit (token : jsstring) : M unit :=
  if truthy token then ret tt else throw.

Definition run (i : inputs) (fs : file_system)
    (userMappings : gmap jsstring jsstring) (context : github_context)
    : M run_result :=
  try_catch
    (let* _ := getInput_required i.(slack_bot_token) in
     let* slackChannel := getInput_required i.(slack_channel) in
     let* githubToken := getInput_required i.(github_token) in
     let configPath := trim i.(config_path) in
     let* _ := getOctokit githubToken in
     let config := loadConfig fs userMappings configPath in
     let* _ :=
       match context with
       | pull_request_event c => handlePROpened env c config slackChannel
       | other_named_event (other_event _) => ret tt
       | other_named_event c => handleComment env c config slackChannel
       end in
     ret succeeded)
    (ret failed).

End WithEnv.
End Entry.

Import Entry.

(** ** Further cases *)

Module Cases.

(** an ownership file whose last rule is the catch-all. *)
Definition codeowners_catch_all_last : jsstring := lit "*.js @carol
* @bob".

Definition env_catch_all_last : Env :=
  {| users_lookupByEmail := Scenario.directory;
     users_lookupByEmail_member := fun _ => None;
     users_getByUsername := fun _ => Some None;
     pulls_listFiles := fun _ => Some [lit "src/a.js"; lit "docs/x.md"];
     repos_getContent := fun path =>
       if str_eqb path (lit ".github/CODEOWNERS")
       then Some codeowners_catch_all_last else None;
     base64_decode := fun content => content;
     chat_postMessage := fun _ _ =>
       Some {| r_ok := true; r_ts := lit "123.45" |};
     chat_update := fun _ ts => Some {| r_ok := true; r_ts := ts |} |}.

(** an approving review of pull request 7, by [bob]. *)
Definition approval : comment_context :=
  pull_request_review 7 Scenario.bob (Some (lit "LGTM"))
    (lit "https://example.org/r/1") (Some (lit "approved")).

End Cases.

(** * Properties *)

(** ** JavaScript strings *)

Section StringFacts.
Implicit Types s p a b : jsstring.

Lemma str_eqb_true a b : str_eqb a b = true ↔ a = b.
Proof. unfold str_eqb. apply bool_decide_eq_true. Qed.

Lemma str_eqb_false a b : str_eqb a b = false ↔ a ≠ b.
Proof. unfold str_eqb. apply bool_decide_eq_false. Qed.

Lemma opt_is_true (x : option jsstring) s : opt_is x s = true ↔ x = Some s.
Proof. unfold opt_is. apply bool_decide_eq_true. Qed.

Lemma startsWith_prefix s p : startsWith s p = true ↔ p `prefix_of` s.
Proof.
  revert s. induction p as [|y p IH]; intros s; simpl.
  - split; [intros _; apply prefix_nil | done].
  - destruct s as [|x s].
    + split; [done | intros H; by apply prefix_nil_not in H].
    + rewrite andb_true_iff, N.eqb_eq, IH. split.
      * intros [-> H]. by apply prefix_cons.
      * intros H. split; [symmetry; by eapply prefix_cons_inv_1
                         | by eapply prefix_cons_inv_2].
Qed.

Lemma startsWith_false s p : startsWith s p = false ↔ ¬ p `prefix_of` s.
Proof. rewrite <- startsWith_prefix. by destruct (startsWith s p). Qed.

Lemma endsWith_suffix s p : endsWith s p = true ↔ p `suffix_of` s.
Proof.
  unfold endsWith. rewrite andb_true_iff, Nat.leb_le, str_eqb_true. split.
  - intros [_ H]. exists (take (length s - length p) s).
    pose proof (take_drop (length s - length p) s) as E.
    rewrite H in E. done.
  - intros [k ->]. rewrite length_app. split; [lia|].
    replace (length k + length p - length p)%nat with (length k) by lia.
    by rewrite drop_app_length.
Qed.

Lemma includes_infix s p : includes s p = true ↔ ∃ a b, s = a ++ p ++ b.
Proof.
  induction s as [|x s IH]; simpl.
  - rewrite orb_false_r, startsWith_prefix. split.
    + intros [k Hk]. exists [], k. done.
    + intros (a & b & H). symmetry in H.
      apply app_eq_nil in H as [-> H]. apply app_eq_nil in H as [-> _].
      done.
  - rewrite orb_true_iff, startsWith_prefix, IH. split.
    + intros [[k Hk] | (a & b & ->)].
      * exists [], k. done.
      * exists (x :: a), b. done.
    + intros (a & b & H). destruct a as [|y a]; simpl in H.
      * left. by exists b.
      * right. exists a, b. by inversion H.
Qed.

End StringFacts.

(** ** The pattern matcher *)

(** C5: [matchPattern] decides a match by the first of five rules that
    applies to the pattern, in this order: the pattern [*] matches every
    file; a pattern that starts with [*.] matches exactly the paths that end
    with the pattern less its star; a pattern that ends with [/] matches
    exactly the paths that start with the pattern, with or without its last
    slash; a pattern that starts with [/] is anchored, and matches exactly
    the path it names (the pattern less its first slash) and the paths that
    have that path followed by [/] as a prefix; any other pattern matches
    exactly the paths of which it is a substring. *)
Theorem matchPattern_precedence (file pattern : jsstring) :
  matchPattern file pattern = true ↔
    if decide (pattern = lit "*") then True
    else if decide (lit "*." `prefix_of` pattern) then
      drop 1 pattern `suffix_of` file
    else if decide (lit "/" `suffix_of` pattern) then
      pattern `prefix_of` file
      ∨ take (length pattern - 1) pattern `prefix_of` file
    else if decide (lit "/" `prefix_of` pattern) then
      file = drop 1 pattern ∨ (drop 1 pattern ++ lit "/") `prefix_of` file
    else ∃ a b, file = a ++ pattern ++ b.
Proof.
  unfold matchPattern, substring_from, substring_to.
  destruct (str_eqb pattern (lit "*")) eqn:Hstar.
  { apply str_eqb_true in Hstar. by rewrite decide_True. }
  apply str_eqb_false in Hstar. rewrite decide_False by done.
  destruct (startsWith pattern (lit "*.")) eqn:Hext.
  { apply startsWith_prefix in Hext. rewrite decide_True by done.
    apply endsWith_suffix. }
  apply startsWith_false in Hext. rewrite decide_False by done.
  destruct (endsWith pattern (lit "/")) eqn:Hdir.
  { apply endsWith_suffix in Hdir. rewrite decide_True by done.
    by rewrite orb_true_iff, !startsWith_prefix. }
  assert (¬ lit "/" `suffix_of` pattern) as Hdir'.
  { rewrite <- endsWith_suffix. by rewrite Hdir. }
  rewrite decide_False by done.
  destruct (startsWith pattern (lit "/")) eqn:Hroot.
  { apply startsWith_prefix in Hroot. rewrite decide_True by done.
    by rewrite orb_true_iff, str_eqb_true, startsWith_prefix. }
  apply startsWith_false in Hroot. rewrite decide_False by done.
  apply includes_infix.
Qed.

(** the patterns of the documentation on the paths of a pull request,
    which do not start with a slash: a pattern with a slash at both ends
    falls under the third rule and matches none of them. *)
Example matchPattern_examples :
  matchPattern (lit "src/Button.js") (lit "*") = true
  ∧ matchPattern (lit "src/Button.js") (lit "*.js") = true
  ∧ matchPattern (lit "src/Button.jsx") (lit "*.js") = false
  ∧ matchPattern (lit "docs/a.md") (lit "docs/") = true
  ∧ matchPattern (lit "docs") (lit "docs/") = true
  ∧ matchPattern (lit "src/docs/a.md") (lit "docs/") = false
  ∧ matchPattern (lit "api/v1.js") (lit "/api") = true
  ∧ matchPattern (lit "api") (lit "/api") = true
  ∧ matchPattern (lit "apis/v1.js") (lit "/api") = false
  ∧ matchPattern (lit "backend/a.js") (lit "/backend/") = false
  ∧ matchPattern (lit "src/utils/a.js") (lit "utils") = true.
Proof. repeat split. Qed.

(** ** Insertion-ordered sets *)

Section SetFacts.
Implicit Types set xs : list jsstring.

Lemma elem_of_add set x y : y ∈ JSSet.add set x ↔ y ∈ set ∨ y = x.
Proof.
  unfold JSSet.add. case_decide as Hx.
  - split; [by left | intros [H | ->]; done].
  - by rewrite elem_of_app, list_elem_of_singleton.
Qed.

Lemma NoDup_add set x : NoDup set → NoDup (JSSet.add set x).
Proof.
  intros Hset. unfold JSSet.add. case_decide as Hx; [done|].
  apply NoDup_app. split_and!; [done| |apply NoDup_singleton].
  intros y Hy Hy'. apply list_elem_of_singleton in Hy' as ->. done.
Qed.

Lemma elem_of_add_all xs set y :
  y ∈ JSSet.add_all set xs ↔ y ∈ set ∨ y ∈ xs.
Proof.
  unfold JSSet.add_all. revert set.
  induction xs as [|x xs IH]; intros set; simpl.
  - rewrite elem_of_nil. tauto.
  - rewrite IH, elem_of_add, elem_of_cons. tauto.
Qed.

Lemma NoDup_add_all xs set : NoDup set → NoDup (JSSet.add_all set xs).
Proof.
  unfold JSSet.add_all. revert set.
  induction xs as [|x xs IH]; intros set H; simpl; [done|].
  by apply IH, NoDup_add.
Qed.

Lemma add_all_prefix xs set : set `prefix_of` JSSet.add_all set xs.
Proof.
  unfold JSSet.add_all. revert set.
  induction xs as [|x xs IH]; intros set; simpl; [done|].
  etrans; [|apply IH]. unfold JSSet.add. case_decide; [done|].
  by apply prefix_app_r.
Qed.

Lemma NoDup_of_array xs : NoDup (JSSet.of_array xs).
Proof. apply NoDup_add_all, NoDup_nil_2. Qed.

Lemma elem_of_of_array xs y : y ∈ JSSet.of_array xs ↔ y ∈ xs.
Proof.
  unfold JSSet.of_array. rewrite elem_of_add_all, elem_of_nil. tauto.
Qed.

Lemma NoDup_split_unique (a b a' b' : list jsstring) x :
  NoDup (a ++ x :: b) → a ++ x :: b = a' ++ x :: b' → a = a'.
Proof.
  revert a'. induction a as [|z a IH]; intros a' Hnd Heq.
  - destruct a' as [|y a']; [done|]. simpl in *.
    inversion Heq; subst. apply NoDup_cons in Hnd as [Hx _].
    destruct Hx. rewrite elem_of_app, elem_of_cons. auto.
  - destruct a' as [|y a']; simpl in *.
    + inversion Heq; subst. apply NoDup_cons in Hnd as [Hx _].
      destruct Hx. rewrite elem_of_app, elem_of_cons. auto.
    + inversion Heq; subst. f_equal.
      apply NoDup_cons in Hnd as [_ Hnd]. by apply IH.
Qed.

(** the elements listed before [h] are those met before [h] is first
    met. *)
Lemma of_array_first_appearance xs r1 h r2 :
  JSSet.of_array xs = r1 ++ h :: r2 →
  ∃ m1 m2, xs = m1 ++ h :: m2 ∧ (h ∉ m1) ∧ (∀ y, y ∈ r1 ↔ y ∈ m1).
Proof.
  intros Hr.
  assert (h ∈ xs) as Hin.
  { apply elem_of_of_array. rewrite Hr, elem_of_app, elem_of_cons. auto. }
  apply list_elem_of_split_l in Hin as (m1 & m2 & -> & Hm1).
  exists m1, m2. split_and!; [done..|].
  pose proof (NoDup_of_array (m1 ++ h :: m2)) as Hnd.
  assert (h ∉ JSSet.of_array m1) as Hh.
  { by rewrite elem_of_of_array. }
  unfold JSSet.of_array, JSSet.add_all in Hr, Hnd.
  rewrite foldl_app in Hr, Hnd. simpl in Hr, Hnd.
  fold (JSSet.add_all [] m1) in Hr, Hnd. fold (JSSet.of_array m1) in Hr, Hnd.
  unfold JSSet.add at 2 in Hr. unfold JSSet.add at 2 in Hnd.
  rewrite decide_False in Hr, Hnd by done.
  destruct (add_all_prefix m2 (JSSet.of_array m1 ++ [h])) as [k Hk].
  unfold JSSet.add_all in Hk. rewrite Hk, <- app_assoc in Hr, Hnd.
  simpl in Hr, Hnd.
  apply (NoDup_split_unique _ _ _ _ _ Hnd) in Hr as <-.
  intros y. apply elem_of_of_array.
Qed.

End SetFacts.

(** ** The mention extractor *)

Section Mentions.
Implicit Types s r h g : jsstring.

Lemma is_alnum_handle_char c : is_alnum c = true → is_handle_char c = true.
Proof. unfold is_handle_char. intros ->. done. Qed.

Lemma handle_char_cases c :
  is_handle_char c = true → is_alnum c = false → c = 45.
Proof.
  unfold is_handle_char. intros H Hc. rewrite Hc in H. simpl in H.
  by apply N.eqb_eq.
Qed.

(** the run and what is left of the text. *)
Lemma handle_run_split s :
  ∃ rest, s = handle_run s ++ rest ∧ handle_run rest = [].
Proof.
  induction s as [|c s (rest & Hs & Hrest)]; simpl.
  - by exists [].
  - destruct (is_handle_char c) eqn:Hc.
    + exists rest. split; [simpl; by f_equal | done].
    + exists (c :: s). split; [done|]. simpl. by rewrite Hc.
Qed.

Lemma handle_run_chars s : Forall (fun c => is_handle_char c = true) (handle_run s).
Proof.
  induction s as [|c s IH]; simpl; [done|].
  destruct (is_handle_char c) eqn:Hc; [by constructor | done].
Qed.

Lemma handle_run_app_prefix g s : handle_run g `prefix_of` handle_run (g ++ s).
Proof.
  induction g as [|c g IH]; simpl; [apply prefix_nil|].
  destruct (is_handle_char c); [by apply prefix_cons | done].
Qed.

Lemma handle_run_hyphens r s :
  Forall (fun c => is_handle_char c = true ∧ is_alnum c = false) r →
  handle_run s = [] → handle_run (r ++ s) = r.
Proof.
  induction 1 as [|c r [Hc _] _ IH]; intros Hs; simpl; [done|].
  rewrite Hc. f_equal. by apply IH.
Qed.

(** where the star stops: the last alphanumeric of the run. *)
Lemma upto_last_alnum_Some r t :
  Forall (fun c => is_handle_char c = true) r →
  upto_last_alnum r = Some t →
  ∃ hyphens, r = t ++ hyphens
    ∧ Forall (fun c => is_handle_char c = true ∧ is_alnum c = false) hyphens
    ∧ (∃ z, last t = Some z ∧ is_alnum z = true)
    ∧ Forall (fun c => is_handle_char c = true) t.
Proof.
  intros Hr. revert t. induction Hr as [|c r Hc Hr IH]; intros t; simpl; [done|].
  destruct (upto_last_alnum r) as [t'|] eqn:Ht'.
  - intros [= <-]. destruct (IH t' eq_refl) as (hy & -> & Hhy & (z & Hz & Hzc) & Ht).
    exists hy. split_and!; [done..| |by constructor].
    exists z. split; [|done]. destruct t' as [|? ?]; [done|].
    by rewrite last_cons_cons.
  - destruct (is_alnum c) eqn:Hcc; [|done]. intros [= <-].
    exists r. split_and!; [done| |by exists c|by constructor].
    clear IH Hc Hcc. induction Hr as [|d r Hd Hr IH]; [done|].
    simpl in Ht'. destruct (upto_last_alnum r); [done|].
    destruct (is_alnum d) eqn:Hdc; [done|]. constructor; [done|by apply IH].
Qed.

Lemma upto_last_alnum_None r :
  Forall (fun c => is_handle_char c = true) r →
  upto_last_alnum r = None →
  Forall (fun c => is_handle_char c = true ∧ is_alnum c = false) r.
Proof.
  induction 1 as [|d r Hd Hr IH]; [done|]. simpl.
  destruct (upto_last_alnum r); [done|].
  destruct (is_alnum d) eqn:Hdc; [done|]. intros _.
  constructor; [done|by apply IH].
Qed.

Lemma Forall_hyphens r :
  Forall (fun c => is_handle_char c = true ∧ is_alnum c = false) r →
  Forall (fun c => c = 45) r.
Proof.
  intros H. eapply Forall_impl; [exact H|].
  intros c [H1 H2]. by apply handle_char_cases.
Qed.

(** a handle read after an [@] is a prefix of what follows the [@], has
    the shape of a handle, and only hyphens of its token are left out. *)
Lemma match_handle_Some s h :
  match_handle s = Some h →
  ∃ rest, s = h ++ rest ∧ handle_shape h ∧ only_hyphens_at_head rest.
Proof.
  unfold match_handle. destruct s as [|c s]; [done|].
  destruct (is_alnum c) eqn:Hc; [|done]. intros [= <-].
  destruct (handle_run_split s) as (rest & Hs & Hrest).
  pose proof (handle_run_chars s) as Hrun.
  destruct (upto_last_alnum (handle_run s)) as [t|] eqn:Ht; simpl.
  - destruct (upto_last_alnum_Some _ _ Hrun Ht)
      as (hy & Hr & Hhy & (z & Hz & Hzc) & Hchars).
    exists (hy ++ rest). split_and!.
    + rewrite Hs at 1. rewrite Hr. by rewrite <- app_assoc.
    + split_and!.
      * by exists c.
      * exists z. split; [|done]. destruct t; [done|].
        by rewrite last_cons_cons.
      * constructor; [by apply is_alnum_handle_char | done].
    + unfold only_hyphens_at_head. rewrite handle_run_hyphens by done.
      by apply Forall_hyphens.
  - pose proof (upto_last_alnum_None _ Hrun Ht) as Hhy.
    exists s. split_and!; [done | | ].
    + split_and!; [by exists c | by exists c |].
      constructor; [by apply is_alnum_handle_char | done].
    + unfold only_hyphens_at_head. by apply Forall_hyphens.
Qed.

Lemma matchAll_mentions_cons c s :
  matchAll_mentions (c :: s) =
    match (if c =? 64 then match_handle s else None) with
    | Some h => h :: matchAll_mentions (drop (length h) s)
    | None => matchAll_mentions s
    end.
Proof.
  simp matchAll_mentions.
  destruct (if c =? 64 then match_handle s else None); by simp matchAll_mentions.
Qed.

(** the matches stand in the text in the order in which they are listed,
    each right after an [@] and each a whole token less its last hyphens. *)
Lemma matchAll_mentions_weave s :
  ∃ g0 gaps,
    length gaps = length (matchAll_mentions s)
    ∧ s = g0 ++ weave (matchAll_mentions s) gaps
    ∧ Forall only_hyphens_at_head gaps
    ∧ Forall handle_shape (matchAll_mentions s).
Proof.
  remember (length s) as n eqn:Hn. revert s Hn.
  induction (lt_wf n) as [n _ IH]. intros s ->.
  destruct s as [|c s].
  - exists [], []. by simp matchAll_mentions.
  - rewrite matchAll_mentions_cons.
    destruct (if c =? 64 then match_handle s else None) as [h|] eqn:Hm.
    + destruct (c =? 64) eqn:Hc; [|done]. apply N.eqb_eq in Hc as ->.
      apply match_handle_Some in Hm as (rest & -> & Hshape & Hrest).
      rewrite drop_app_length.
      destruct (IH (length rest)) with (s := rest)
        as (g0 & gaps & Hlen & Hweave & Hgaps & Hshapes);
        [simpl; rewrite length_app; lia | done |].
      exists [], (g0 :: gaps). split_and!.
      * simpl. by rewrite Hlen.
      * simpl. by rewrite <- Hweave.
      * constructor; [|done]. unfold only_hyphens_at_head in *.
        rewrite Hweave in Hrest.
        destruct (handle_run_app_prefix g0
                    (weave (matchAll_mentions rest) gaps)) as [k Hk].
        rewrite Hk in Hrest. by apply Forall_app in Hrest as [? _].
      * by constructor.
    + destruct (IH (length s)) with (s := s)
        as (g0 & gaps & Hlen & Hweave & Hgaps & Hshapes);
        [simpl; lia | done |].
      exists (c :: g0), gaps. split_and!; [done| |done..].
      simpl. by rewrite <- Hweave.
Qed.

Lemma no_mention_tail c g : no_mention (c :: g) → no_mention g.
Proof.
  intros H pre c' rest ->. by apply (H (c :: pre) c' rest).
Qed.

Lemma no_mention_head g : no_mention (64 :: g) → match_handle g = None.
Proof.
  intros H. destruct g as [|c g]; [done|]. cbn [match_handle].
  by rewrite (H [] c g eq_refl).
Qed.

Lemma weave_handle_run (found gaps : list jsstring) :
  handle_run (weave found gaps) = [].
Proof. by destruct found, gaps. Qed.

Lemma handle_run_app_end g s :
  handle_run s = [] → handle_run (g ++ s) = handle_run g.
Proof.
  intros Hs. induction g as [|c g IH]; [done|]. cbn [app handle_run].
  by rewrite IH.
Qed.

Lemma handle_run_app_chars h s :
  Forall (fun c => is_handle_char c = true) h →
  handle_run (h ++ s) = h ++ handle_run s.
Proof.
  induction 1 as [|c h Hc _ IH]; [done|]. cbn [app handle_run].
  by rewrite Hc, IH.
Qed.

Lemma upto_last_alnum_hyphens r :
  Forall (fun c => c = 45) r → upto_last_alnum r = None.
Proof.
  induction 1 as [|c r -> _ IH]; [done|]. cbn [upto_last_alnum].
  by rewrite IH.
Qed.

Lemma upto_last_alnum_app h r z :
  last h = Some z → is_alnum z = true → upto_last_alnum r = None →
  upto_last_alnum (h ++ r) = Some h.
Proof.
  intros Hz Hzc Hr. induction h as [|a h IH]; [done|].
  cbn [app upto_last_alnum]. destruct h as [|b h].
  - injection Hz as ->. cbn [app]. by rewrite Hr, Hzc.
  - rewrite last_cons_cons in Hz. by rewrite (IH Hz).
Qed.

(** a handle followed by hyphens only, as far as its token goes, is read
    whole and alone. *)
Lemma match_handle_exact h t :
  handle_shape h → only_hyphens_at_head t → match_handle (h ++ t) = Some h.
Proof.
  intros ((a & Ha & Hac) & (z & Hz & Hzc) & Hchars) Ht.
  destruct h as [|c h]; [done|]. injection Ha as ->.
  apply Forall_cons in Hchars as [_ Hchars].
  cbn [app match_handle]. rewrite Hac, handle_run_app_chars by done.
  apply upto_last_alnum_hyphens in Ht.
  destruct h as [|b h].
  - cbn [app]. by rewrite Ht.
  - rewrite last_cons_cons in Hz. by rewrite (upto_last_alnum_app _ _ z).
Qed.

Lemma no_mention_matches g : no_mention g → matchAll_mentions g = [].
Proof.
  induction g as [|c g IH]; intros Hg; [by simp matchAll_mentions|].
  rewrite matchAll_mentions_cons.
  assert ((if c =? 64 then match_handle g else None) = None) as ->.
  { destruct (N.eqb_spec c 64) as [->|]; [by apply no_mention_head | done]. }
  apply IH. by eapply no_mention_tail.
Qed.

(** the marking of a text is unique: the handles marked are the matches
    of the scan. *)
Lemma matchAll_mentions_marked s g0 (found gaps : list jsstring) :
  mentions_marked s g0 found gaps → matchAll_mentions s = found.
Proof.
  revert s g0 gaps. induction found as [|h found IH]; intros s g0 gaps.
  - intros (Hlen & -> & Hg0 & _). destruct gaps; [|done].
    cbn [weave]. rewrite app_nil_r. by apply no_mention_matches.
  - intros (Hlen & -> & Hg0 & Hgaps & Hhy & Hshapes).
    destruct gaps as [|g gaps]; [done|]. cbn [weave].
    apply Forall_cons in Hgaps as [Hg Hgaps].
    apply Forall_cons in Hhy as [Hgh Hhy].
    apply Forall_cons in Hshapes as [Hh Hshapes].
    induction g0 as [|c g0 IHg0].
    + cbn [app]. rewrite matchAll_mentions_cons. cbn [N.eqb Pos.eqb].
      rewrite match_handle_exact; [|done|].
      2: { unfold only_hyphens_at_head.
           by rewrite handle_run_app_end by apply weave_handle_run. }
      rewrite drop_app_length. f_equal.
      apply (IH _ g gaps). split_and!; [|done..]. by injection Hlen.
    + cbn [app]. rewrite matchAll_mentions_cons.
      assert ((if c =? 64
               then match_handle (g0 ++ 64 :: h ++ g ++ weave found gaps)
               else None) = None) as ->.
      { destruct (N.eqb_spec c 64) as [->|]; [|done].
        destruct g0 as [|c' g0]; [done|]. cbn [app match_handle].
        by rewrite (Hg0 [] c' g0 eq_refl). }
      apply IHg0. by eapply no_mention_tail.
Qed.

(** every text has its marking. *)
Lemma matchAll_mentions_marking s :
  ∃ g0 gaps, mentions_marked s g0 (matchAll_mentions s) gaps.
Proof.
  remember (length s) as n eqn:Hn. revert s Hn.
  induction (lt_wf n) as [n _ IH]. intros s ->.
  destruct s as [|c s].
  - exists [], []. simp matchAll_mentions.
    split_and!; [done..| |constructor|constructor|constructor].
    by intros [|? ?] ? ? ?.
  - rewrite matchAll_mentions_cons.
    destruct (if c =? 64 then match_handle s else None) as [h|] eqn:Hm.
    + destruct (c =? 64) eqn:Hc; [|done]. apply N.eqb_eq in Hc as ->.
      apply match_handle_Some in Hm as (rest & -> & Hshape & Hrest).
      rewrite drop_app_length.
      destruct (IH (length rest)) with (s := rest)
        as (g0 & gaps & Hlen & Hweave & Hg0 & Hgaps & Hhy & Hshapes);
        [simpl; rewrite length_app; lia | done |].
      exists [], (g0 :: gaps). split_and!.
      * simpl. by rewrite Hlen.
      * simpl. by rewrite <- Hweave.
      * by intros [|? ?] ? ? ?.
      * by constructor.
      * constructor; [|done]. unfold only_hyphens_at_head in *.
        rewrite Hweave in Hrest.
        destruct (handle_run_app_prefix g0
                    (weave (matchAll_mentions rest) gaps)) as [k Hk].
        rewrite Hk in Hrest. by apply Forall_app in Hrest as [? _].
      * by constructor.
    + destruct (IH (length s)) with (s := s)
        as (g0 & gaps & Hlen & Hweave & Hg0 & Hgaps & Hhy & Hshapes);
        [simpl; lia | done |].
      exists (c :: g0), gaps. split_and!; [done| | |done..].
      * simpl. by rewrite <- Hweave.
      * intros [|c0 pre] c' rest Heq.
        -- injection Heq as -> Heq. rewrite N.eqb_refl in Hm.
           rewrite Hweave, Heq in Hm. cbn [app match_handle] in Hm.
           by destruct (is_alnum c').
        -- injection Heq as _ Heq. by apply (Hg0 pre c' rest).
Qed.

(** a [Set] built from an array lists it with every repetition after the
    first left out. *)
Lemma of_array_remove_dups (xs : list jsstring) :
  JSSet.of_array xs = reverse (remove_dups (reverse xs)).
Proof.
  induction xs as [|x xs IH] using rev_ind; [done|].
  unfold JSSet.of_array, JSSet.add_all in *. rewrite foldl_app. cbn [foldl].
  rewrite reverse_app. cbn [reverse rev_append app remove_dups].
  change (rev_append [x] []) with [x]. cbn [app remove_dups].
  rewrite IH. unfold JSSet.add.
  destruct (decide_rel elem_of x (reverse xs)) as [Hx|Hx].
  - rewrite decide_True; [done|].
    by rewrite elem_of_reverse, elem_of_remove_dups.
  - rewrite decide_False by (by rewrite elem_of_reverse, elem_of_remove_dups).
    change (rev_append (x :: remove_dups (reverse xs)) [])
      with (reverse (x :: remove_dups (reverse xs))).
    by rewrite reverse_cons.
Qed.

(** C8: every text has one marking of its mentions: the handles that
    stand in it right after an [@], in the order of the text, each with
    the shape of a handle (it starts and ends with an alphanumeric and is
    made of alphanumerics and hyphens, so that a handle of one character
    is allowed and none starts or ends with a hyphen), each a whole token
    less its last hyphens, with no mention left between them. Whatever
    the marking, [extractMentions] lists exactly its handles, each once,
    at the place of its first appearance: the handles listed before a
    handle are those that stand in the text before it first does, and the
    list is the list of the handles marked with every repetition after
    the first left out. *)
Theorem extractMentions_first_appearance (text : option jsstring) :
  (∃ g0 found gaps, mentions_marked (default [] text) g0 found gaps)
  ∧ ∀ g0 found gaps,
      mentions_marked (default [] text) g0 found gaps →
      NoDup (extractMentions text)
      ∧ (∀ h, h ∈ extractMentions text ↔ h ∈ found)
      ∧ (∀ (r1 : list jsstring) h (r2 : list jsstring),
           extractMentions text = r1 ++ h :: r2 →
           ∃ m1 m2, found = m1 ++ h :: m2 ∧ (h ∉ m1)
                    ∧ (∀ y, y ∈ r1 ↔ y ∈ m1))
      ∧ extractMentions text = reverse (remove_dups (reverse found))
      ∧ Forall handle_shape (extractMentions text).
Proof.
  assert (extractMentions text
          = JSSet.of_array (matchAll_mentions (default [] text))) as ->.
  { unfold extractMentions. destruct text as [[|c t]|]; simpl; try done. }
  split.
  { destruct (matchAll_mentions_marking (default [] text)) as (g0 & gaps & H).
    by exists g0, (matchAll_mentions (default [] text)), gaps. }
  intros g0 found gaps Hmarked.
  rewrite (matchAll_mentions_marked _ _ _ _ Hmarked).
  destruct Hmarked as (_ & _ & _ & _ & _ & Hshapes).
  split_and!.
  - apply NoDup_of_array.
  - intros h. apply elem_of_of_array.
  - intros r1 h r2. apply of_array_first_appearance.
  - apply of_array_remove_dups.
  - apply Forall_forall. intros h Hh. rewrite elem_of_of_array in Hh.
    rewrite Forall_forall in Hshapes. by apply Hshapes.
Qed.

End Mentions.

(** the handles of a text, in the order of their first appearance. *)
Example extractMentions_example :
  extractMentions
    (Some (lit "cc @foo-bar, @foo- and @-x; @a, a@d.com, @foo-bar, @b--c-"))
  = [lit "foo-bar"; lit "foo"; lit "a"; lit "d"; lit "b--c"].
Proof. reflexivity. Qed.

(** ** The status state machine *)

(** C1: the status that [handleComment] derives for a comment-like event
    from the status read back: a review whose state is [approved] gives
    [approved] and one whose state is [changes_requested] gives
    [changes-requested], whatever the current status; for any other event
    the status moves to [in-review] from [review-pending], and from any
    other status it does not move: the status changes if and only if the
    current status is exactly [review-pending], so that the new status is
    [in-review] exactly from [review-pending] and from [in-review]
    itself. *)
Theorem nextStatus_transition (reviewState : option jsstring)
    (currentStatus : jsstring) :
  (reviewState = Some (lit "approved") ->
     nextStatus reviewState currentStatus = lit "approved")
  ∧ (reviewState = Some (lit "changes_requested") ->
       nextStatus reviewState currentStatus = lit "changes-requested")
  ∧ (reviewState ≠ Some (lit "approved") ->
     reviewState ≠ Some (lit "changes_requested") ->
       (currentStatus = lit "review-pending" ->
          nextStatus reviewState currentStatus = lit "in-review")
       ∧ (currentStatus ≠ lit "review-pending" ->
            nextStatus reviewState currentStatus = currentStatus)
       ∧ (nextStatus reviewState currentStatus ≠ currentStatus
          ↔ currentStatus = lit "review-pending")
       ∧ (nextStatus reviewState currentStatus = lit "in-review"
          ↔ currentStatus = lit "review-pending"
            ∨ currentStatus = lit "in-review")).
Proof.
  unfold nextStatus. split_and!.
  - intros ->. done.
  - intros ->. done.
  - intros Ha Hc.
    destruct (opt_is reviewState (lit "approved")) eqn:E1.
    { by apply opt_is_true in E1. }
    destruct (opt_is reviewState (lit "changes_requested")) eqn:E2.
    { by apply opt_is_true in E2. }
    destruct (str_eqb currentStatus REVIEW_PENDING) eqn:E3.
    + apply str_eqb_true in E3 as ->. split_and!; [done..| |].
      * split; [done|]. intros _. by vm_compute.
      * split; [by left | done].
    + apply str_eqb_false in E3. split_and!; [done..| |].
      * split; [intros H; by destruct H | intros H; by destruct E3].
      * split; [by right | by intros [|]].
Qed.

(** the scenarios of the specification: a plain comment on a pending pull
    request, a second plain comment, and a request for changes from each
    status. *)
Example nextStatus_scenarios :
  nextStatus None REVIEW_PENDING = IN_REVIEW
  ∧ nextStatus None IN_REVIEW = IN_REVIEW
  ∧ nextStatus (Some (lit "commented")) APPROVED = APPROVED
  ∧ Forall (fun st => nextStatus (Some (lit "changes_requested")) st
                      = CHANGES_REQUESTED)
      [REVIEW_PENDING; IN_REVIEW; APPROVED; CHANGES_REQUESTED; MERGED; CLOSED].
Proof. split_and!; [done..|]. repeat constructor. Qed.

(** ** The ownership file *)

Section Codeowners.
Implicit Types line content : jsstring.

Lemma truthy_false s : truthy s = false ↔ s = [].
Proof. by destruct s. Qed.

(** one turn of the loop adds the rule of the line, if the line has one. *)
Lemma parse_line_rule_of_line rules line :
  parse_line rules line =
    match rule_of_line line with
    | Some r => rules ++ [r]
    | None => rules
    end.
Proof.
  unfold parse_line, rule_of_line, substring_from.
  destruct (truthy (trim line)) eqn:Hblank; cbn [negb orb].
  2: { apply truthy_false in Hblank. rewrite decide_True; auto. }
  assert (trim line ≠ []) as Hblank'.
  { intros E. by rewrite E in Hblank. }
  destruct (startsWith (trim line) (lit "#")) eqn:Hcomment.
  { apply startsWith_prefix in Hcomment. rewrite decide_True; auto. }
  apply startsWith_false in Hcomment.
  destruct (length (split_ws (trim line)) <? 2)%nat eqn:Hshort.
  { apply Nat.ltb_lt in Hshort. rewrite decide_True; auto. }
  apply Nat.ltb_ge in Hshort.
  rewrite length_map.
  destruct (List.filter _ (drop 1 (split_ws (trim line)))) as [|o os] eqn:Hat.
  { cbn. rewrite decide_True; auto. }
  cbn. rewrite decide_False by (intros [?|[?|[?|?]]]; [done..|lia|done]).
  by rewrite head_lookup.
Qed.

Lemma foldl_parse_line rules lines :
  foldl parse_line rules lines = rules ++ omap rule_of_line lines.
Proof.
  revert rules. induction lines as [|line lines IH]; intros rules; simpl.
  - by rewrite app_nil_r.
  - rewrite IH, parse_line_rule_of_line.
    destruct (rule_of_line line); [by rewrite <- app_assoc | done].
Qed.

Lemma rules_in_file_order_lines content :
  rules_in_file_order content = omap rule_of_line (split_on 10 content).
Proof. unfold rules_in_file_order. by rewrite foldl_parse_line. Qed.

(** the owners of a rule are the tokens after the pattern that start with
    [@], less the [@]. *)
Lemma elem_of_at_owners (tokens : list jsstring) (o : jsstring) :
  o ∈ map (drop 1) (List.filter (fun t => startsWith t (lit "@")) tokens)
  ↔ (64 :: o) ∈ tokens.
Proof.
  change (lit "@") with [64].
  rewrite !list_elem_of_In, in_map_iff. split.
  - intros (t & <- & Ht). apply filter_In in Ht as [Ht Hat].
    destruct t as [|c t]; [done|]. simpl in Hat.
    apply andb_true_iff in Hat as [Hc _]. by apply N.eqb_eq in Hc as ->.
  - intros Ht. exists (64 :: o). split; [done|].
    apply filter_In. by split.
Qed.

(** C10: for every ownership-file text, the rules parsed are, in reverse
    order, the rules of its lines, where a blank line, a line starting with
    [#], a line of fewer than two white-space-separated tokens and a line
    none of whose owner tokens starts with [@] give no rule; so every rule
    parsed comes from a line that is none of these, its pattern is the
    first token of the line, and its owners, of which there is at least
    one, are exactly the later tokens that start with [@], with the [@]
    stripped. *)
Theorem parseCodeowners_lines (content : jsstring) :
  parseCodeowners content = rev (omap rule_of_line (split_on 10 content))
  ∧ ∀ r, r ∈ parseCodeowners content ->
      r.(owners) ≠ []
      ∧ ∃ line, let tokens := split_ws (trim line) in
          line ∈ split_on 10 content
          ∧ trim line ≠ []
          ∧ ¬ lit "#" `prefix_of` trim line
          ∧ (2 <= length tokens)%nat
          ∧ tokens !! 0%nat = Some r.(pattern)
          ∧ (∀ o, o ∈ r.(owners) ↔ (64 :: o) ∈ drop 1 tokens).
Proof.
  unfold parseCodeowners. rewrite rules_in_file_order_lines.
  split; [done|]. intros r Hr.
  apply list_elem_of_In, in_rev, list_elem_of_In in Hr.
  apply list_elem_of_omap in Hr as (line & Hline & Hrule).
  unfold rule_of_line in Hrule. case_decide as Hskip; [done|].
  injection Hrule as <-. simpl.
  assert (trim line ≠ [] ∧ ¬ lit "#" `prefix_of` trim line
          ∧ (2 <= length (split_ws (trim line)))%nat
          ∧ List.filter (fun o => startsWith o (lit "@"))
              (drop 1 (split_ws (trim line))) ≠ [])
    as (Hblank & Hcomment & Hshort & Hat).
  { split_and!; try (intros ?; apply Hskip; auto; fail).
    destruct (decide (length (split_ws (trim line)) < 2)%nat); [|lia].
    destruct Hskip; auto. }
  split.
  - intros E. apply Hat. by apply map_eq_nil in E.
  - exists line. simpl. split_and!; [done..| |].
    + destruct (split_ws (trim line)); [simpl in Hshort; lia | done].
    + intros o. apply elem_of_at_owners.
Qed.

(** the parse of the ownership file of the documentation. *)
Example parseCodeowners_example :
  parseCodeowners (lit "# owners
*       @alice @bob

*.js    @carol dave
/api/   erin
solo
docs/   @org/team")
  = [ {| pattern := lit "docs/"; owners := [lit "org/team"] |};
      {| pattern := lit "*.js"; owners := [lit "carol"] |};
      {| pattern := lit "*"; owners := [lit "alice"; lit "bob"] |} ].
Proof. reflexivity. Qed.

End Codeowners.

(** ** The ownership resolver *)

Section Resolver.
Context (env : Env).
Implicit Types (rules : list rule) (file o : jsstring) (w : world).

Lemma first_match_app file rules1 rules2 :
  first_match file (rules1 ++ rules2) =
    match first_match file rules1 with
    | Some r => Some r
    | None => first_match file rules2
    end.
Proof.
  induction rules1 as [|r rules1 IH]; simpl; [done|].
  by destruct (matchPattern file (pattern r)).
Qed.


Lemma elem_of_add_file_owners rules (ownersSet : list jsstring) file o :
  o ∈ add_file_owners rules ownersSet file
  ↔ o ∈ ownersSet ∨ ∃ r, first_match file rules = Some r ∧ o ∈ r.(owners).
Proof.
  unfold add_file_owners. destruct (first_match file rules) as [r|].
  - rewrite elem_of_add_all. split.
    + intros [?|?]; [by left | right; by exists r].
    + intros [?|(r' & [= <-] & ?)]; auto.
  - split; [by left | intros [?|(r' & ? & ?)]; done].
Qed.

Lemma elem_of_owners_fold rules (files ownersSet : list jsstring) o :
  o ∈ foldl (add_file_owners rules) ownersSet files
  ↔ o ∈ ownersSet
    ∨ ∃ file r, file ∈ files ∧ first_match file rules = Some r
                ∧ o ∈ r.(owners).
Proof.
  revert ownersSet. induction files as [|f files IH]; intros ownersSet; simpl.
  - split; [by left | intros [?|(file & r & H & _)]; [done|]].
    by apply elem_of_nil in H.
  - rewrite IH, elem_of_add_file_owners. split.
    + intros [[?|(r & ? & ?)]|(file & r & ? & ? & ?)].
      * by left.
      * right. exists f, r. split_and!; [left|..]; done.
      * right. exists file, r. split_and!; [by right|..]; done.
    + intros [?|(file & r & Hf & ? & ?)]; [by left; left|].
      apply elem_of_cons in Hf as [->|Hf].
      * left. right. by exists r.
      * right. by exists file, r.
Qed.





End Resolver.

(** ** The identity mapper *)

Section MapperFacts.
Context (env : Env).
Implicit Types (w : world) (cfg : config) (handle email : jsstring).

Lemma logged_nil w : logged w [] = w.
Proof. destruct w. unfold logged. simpl. by rewrite app_nil_r. Qed.

Lemma logged_logged w es1 es2 :
  logged (logged w es1) es2 = logged w (es1 ++ es2).
Proof. unfold logged. simpl. by rewrite app_assoc. Qed.

Lemma emailToSlackId_run email w :
  emailToSlackId env email w
  = (Ret (lookup_id env email), logged w [EvLookupByEmail email]).
Proof.
  unfold emailToSlackId, lookup_id, try_catch, call, bind, emit, ret, throw.
  destruct (users_lookupByEmail env email) as [[[] [id|]]|]; done.
Qed.

Lemma getGitHubUserEmail_run handle w :
  getGitHubUserEmail env handle w
  = (Ret (default None (env.(users_getByUsername) handle)),
     logged w [EvGetByUsername handle]).
Proof.
  unfold getGitHubUserEmail, try_catch, call, bind, emit, ret, throw.
  by destruct (users_getByUsername env handle).
Qed.

Lemma emailToSlackId_member_run name w :
  emailToSlackId_member env name w
  = (Ret (lookup_member_id env name), logged w [EvLookupByEmailMember name]).
Proof.
  unfold emailToSlackId_member, lookup_member_id, try_catch, call, bind, emit,
    ret, throw.
  destruct (users_lookupByEmail_member env name) as [[[] [id|]]|]; done.
Qed.

Lemma by_mapping_run handle cfg w :
  by_mapping env handle cfg w
  = (Ret (table_step env cfg handle), logged w (table_calls cfg handle)).
Proof.
  unfold by_mapping, table_step, table_calls.
  destruct (get_property (email_mappings cfg) handle) as [[email|name]|];
    cbv zeta.
  - destruct (truthy email).
    + unfold bind. by rewrite emailToSlackId_run.
    + unfold ret. by rewrite logged_nil.
  - unfold bind. by rewrite emailToSlackId_member_run.
  - unfold ret. by rewrite logged_nil.
Qed.

(** step 1 makes at most one call, a lookup in the directory. *)
Lemma table_calls_cases cfg handle :
  table_calls cfg handle = []
  ∨ (∃ email, table_calls cfg handle = [EvLookupByEmail email])
  ∨ (∃ name, table_calls cfg handle = [EvLookupByEmailMember name]).
Proof.
  unfold table_calls.
  destruct (get_property (email_mappings cfg) handle) as [[email|name]|];
    [destruct (truthy email)|..]; eauto.
Qed.

Lemma by_auto_match_run handle cfg w :
  by_auto_match env handle cfg w
  = (Ret (if cfg.(auto_match_by_email) then auto_step env handle else None),
     logged w (if cfg.(auto_match_by_email) then
                 EvGetByUsername handle ::
                 match public_email env handle with
                 | Some email => [EvLookupByEmail email]
                 | None => []
                 end
               else [])).
Proof.
  unfold by_auto_match, auto_step, public_email.
  destruct (auto_match_by_email cfg).
  2: { unfold ret. by rewrite logged_nil. }
  unfold bind. rewrite getGitHubUserEmail_run.
  destruct (users_getByUsername env handle) as [[e|]|]; cbn; try done.
  unfold if_truthy, truthy_opt. cbn.
  destruct (truthy e); cbn; [|done].
  rewrite emailToSlackId_run. unfold ret. by rewrite logged_logged.
Qed.

(** the resolution of one handle: its result and its calls. *)
Lemma mapGitHubUserToSlack_run handle cfg w :
  mapGitHubUserToSlack env handle cfg w
  = (Ret (resolve env cfg handle), logged w (resolve_calls env cfg handle)).
Proof.
  unfold mapGitHubUserToSlack, resolve, resolve_calls.
  unfold bind at 1. rewrite by_mapping_run.
  destruct (table_step env cfg handle) as [id|].
  - unfold ret. by rewrite app_nil_r.
  - unfold bind. rewrite by_auto_match_run, logged_logged.
    by destruct (if auto_match_by_email cfg then auto_step env handle else None).
Qed.

Lemma if_truthy_idem (x : option jsstring) : if_truthy (if_truthy x) = if_truthy x.
Proof. unfold if_truthy. by destruct (truthy_opt x) eqn:E; rewrite ?E. Qed.

(** what the resolution returns passes [if (slackId)]. *)
Lemma resolve_truthy cfg handle :
  if_truthy (resolve env cfg handle) = resolve env cfg handle.
Proof.
  assert (if_truthy (table_step env cfg handle) = table_step env cfg handle)
    as Htable.
  { unfold table_step.
    destruct (get_property (email_mappings cfg) handle) as [[email|name]|];
      [destruct (truthy email)|..]; try done; apply if_truthy_idem. }
  unfold resolve, auto_step.
  destruct (table_step env cfg handle) as [id|]; [done|].
  destruct (auto_match_by_email cfg); [|done].
  destruct (public_email env handle); [apply if_truthy_idem | done].
Qed.

Lemma mapGitHubUsersToSlack_loop_run (handles : list jsstring) cfg
    (slackIds : list jsstring) w :
  mapGitHubUsersToSlack_loop env handles cfg slackIds w
  = (Ret (slackIds ++ omap (resolve env cfg) handles),
     logged w (concat (map (resolve_calls env cfg) handles))).
Proof.
  revert slackIds w. induction handles as [|h handles IH]; intros slackIds w.
  - cbn. unfold ret. by rewrite app_nil_r, logged_nil.
  - cbn [mapGitHubUsersToSlack_loop]. unfold bind.
    rewrite mapGitHubUserToSlack_run, IH, logged_logged, resolve_truthy.
    cbn. destruct (resolve env cfg h); [by rewrite <- app_assoc | done].
Qed.

Lemma mapGitHubUsersToSlack_run (handles : list jsstring) cfg w :
  mapGitHubUsersToSlack env handles cfg w
  = (Ret (omap (resolve env cfg) handles),
     logged w (concat (map (resolve_calls env cfg) handles))).
Proof. apply mapGitHubUsersToSlack_loop_run. Qed.

Lemma getDefaultReviewersSlackIds_loop_run (emails slackIds : list jsstring) w :
  getDefaultReviewersSlackIds_loop env emails slackIds w
  = (Ret (slackIds ++ omap (fun e => if_truthy (lookup_id env e)) emails),
     logged w (map EvLookupByEmail emails)).
Proof.
  revert slackIds w. induction emails as [|e emails IH]; intros slackIds w.
  - cbn. unfold ret. by rewrite app_nil_r, logged_nil.
  - cbn [getDefaultReviewersSlackIds_loop]. unfold bind.
    rewrite emailToSlackId_run, IH, logged_logged.
    cbn. destruct (if_truthy (lookup_id env e)); [by rewrite <- app_assoc | done].
Qed.

(** C6: the resolution of a handle never fails; it is step 1 (the mapping
    table, then the chat directory), then step 2 (the public email of the
    handle, then the chat directory) when automatic matching is enabled and
    step 1 gave nothing, and absent otherwise; step 1 comes first: the
    directory is asked for the mapped email before anything else, a handle
    without entry that names a member of [Object.prototype] has the
    directory asked with that member, and any other handle without entry
    makes no call in step 1; the code host is asked for the public email
    exactly when automatic matching is enabled and step 1 gave nothing, and
    for no other handle.  The batch resolves the handles one by one in the
    order of the input and returns the identities found in that order,
    the unresolved handles leaving no entry; a lookup that throws is a
    miss, and the batch goes on. *)
Theorem mapGitHubUsersToSlack_resolution (cfg : config) (handle : jsstring)
    (handles : list jsstring) (w : world) :
  mapGitHubUserToSlack env handle cfg w
    = (Ret (resolve env cfg handle), logged w (resolve_calls env cfg handle))
  ∧ (∀ email, cfg.(email_mappings) !! handle = Some email → email ≠ [] →
       ∃ rest, resolve_calls env cfg handle = EvLookupByEmail email :: rest)
  ∧ (cfg.(email_mappings) !! handle = None →
     if decide (handle ∈ object_prototype_members)
     then ∃ rest, resolve_calls env cfg handle
                  = EvLookupByEmailMember handle :: rest
     else table_step env cfg handle = None
          ∧ ∀ e, e ∈ resolve_calls env cfg handle →
                 cfg.(auto_match_by_email) = true
                 ∧ (e = EvGetByUsername handle
                    ∨ ∃ email, public_email env handle = Some email
                               ∧ e = EvLookupByEmail email))
  ∧ (EvGetByUsername handle ∈ resolve_calls env cfg handle
     ↔ cfg.(auto_match_by_email) = true ∧ table_step env cfg handle = None)
  ∧ (∀ u, EvGetByUsername u ∈ resolve_calls env cfg handle → u = handle)
  ∧ mapGitHubUsersToSlack env handles cfg w
    = (Ret (omap (resolve env cfg) handles),
       logged w (concat (map (resolve_calls env cfg) handles)))
  ∧ (∀ email, env.(users_lookupByEmail) email = None →
       lookup_id env email = None)
  ∧ (∀ name, env.(users_lookupByEmail_member) name = None →
       lookup_member_id env name = None)
  ∧ (env.(users_getByUsername) handle = None → auto_step env handle = None).
Proof.
  split_and!.
  - apply mapGitHubUserToSlack_run.
  - intros email Hmap Hemail. unfold resolve_calls, table_calls, get_property.
    rewrite Hmap. destruct email; [done|]. cbn [truthy app]. eauto.
  - intros Hmap. unfold resolve_calls, table_step, table_calls, get_property.
    rewrite Hmap. case_decide as Hmember.
    + rewrite bool_decide_true by done. cbn [app]. eauto.
    + rewrite bool_decide_false by done. split; [done|]. cbn [app].
      intros e. destruct (auto_match_by_email cfg); [|by intros ?%elem_of_nil].
      intros [->|He]%elem_of_cons; [by auto|]. split; [done|]. right.
      destruct (public_email env handle) as [email|];
        [|by apply elem_of_nil in He].
      apply list_elem_of_singleton in He as ->. by exists email.
  - unfold resolve_calls.
    destruct (table_calls_cases cfg handle) as [->|[[email ->]|[name ->]]];
      destruct (table_step env cfg handle) as [id|];
      destruct (auto_match_by_email cfg); cbn;
      rewrite ?elem_of_cons, ?elem_of_nil; split; try done;
        try (intros [? ?]; done); try (intros [[=]|[]]; fail); auto.
  - intros u. unfold resolve_calls.
    destruct (table_calls_cases cfg handle) as [->|[[email ->]|[name ->]]];
      destruct (table_step env cfg handle) as [id|];
      destruct (auto_match_by_email cfg);
      destruct (public_email env handle); cbn;
      rewrite ?elem_of_cons, ?elem_of_nil; intros H;
      repeat (destruct H as [H|H]); first [done | congruence].
  - apply mapGitHubUsersToSlack_run.
  - intros email H. unfold lookup_id. by rewrite H.
  - intros name H. unfold lookup_member_id. by rewrite H.
  - intros H. unfold auto_step, public_email. by rewrite H.
Qed.

End MapperFacts.

(** ** The comment handler *)

Section CommentFacts.
Context (env : Env).
Implicit Types (w : world) (cfg : config) (c : commentData).

Lemma same_logins_refl w : same_logins w w.
Proof. by intros n. Qed.

Lemma same_logins_trans w1 w2 w3 :
  same_logins w1 w2 → same_logins w2 w3 → same_logins w1 w3.
Proof. intros H12 H23 n. by rewrite H23. Qed.

Lemma quiet_ret {A} (a : A) : quiet (ret a).
Proof.
  intros w. exists []. cbn. rewrite app_nil_r.
  split_and!; [done|constructor|apply same_logins_refl].
Qed.

Lemma quiet_throw {A} : quiet (@throw A).
Proof.
  intros w. exists []. cbn. rewrite app_nil_r.
  split_and!; [done|constructor|apply same_logins_refl].
Qed.

Lemma quiet_bind {A B} (m : M A) (k : A → M B) :
  quiet m → (∀ a, quiet (k a)) → quiet (bind m k).
Proof.
  intros Hm Hk w. unfold bind.
  destruct (Hm w) as (es1 & Hlog1 & Hes1 & Hsame1).
  destruct (m w) as [[a|] w1]; cbn in *.
  - destruct (Hk a w1) as (es2 & Hlog2 & Hes2 & Hsame2).
    exists (es1 ++ es2). split_and!.
    + by rewrite Hlog2, Hlog1, app_assoc.
    + by apply Forall_app.
    + by eapply same_logins_trans.
  - by exists es1.
Qed.

Lemma quiet_try_catch {A} (m handler : M A) :
  quiet m → quiet handler → quiet (try_catch m handler).
Proof.
  intros Hm Hh w. unfold try_catch.
  destruct (Hm w) as (es1 & Hlog1 & Hes1 & Hsame1).
  destruct (m w) as [[a|] w1]; cbn in *.
  - by exists es1.
  - destruct (Hh w1) as (es2 & Hlog2 & Hes2 & Hsame2).
    exists (es1 ++ es2). split_and!.
    + by rewrite Hlog2, Hlog1, app_assoc.
    + by apply Forall_app.
    + by eapply same_logins_trans.
Qed.

Lemma quiet_emit e : ¬ is_reply e → quiet (emit e).
Proof.
  intros He w. exists [e]. cbn.
  split_and!; [done|constructor; [done|constructor]|by intros n].
Qed.

Lemma quiet_call {A} e (answer : option A) :
  ¬ is_reply e → quiet (call e answer).
Proof.
  intros He. apply quiet_bind; [by apply quiet_emit|].
  intros _. destruct answer; [apply quiet_ret | apply quiet_throw].
Qed.

Lemma pulls_get_run n w :
  pulls_get n w
  = (match prs w !! n with Some pr => Ret pr | None => Throw end,
     logged w [EvPullsGet n]).
Proof. unfold pulls_get, bind, emit. cbn. by destruct (prs w !! n). Qed.

Lemma quiet_pulls_get n : quiet (pulls_get n).
Proof.
  apply quiet_bind; [apply quiet_emit; by intros []|]. intros _ w. exists [].
  rewrite app_nil_r. destruct (prs w !! n); cbn;
    (split_and!; [done|constructor|apply same_logins_refl]).
Qed.

Lemma quiet_pulls_update n new_body : quiet (pulls_update n new_body).
Proof.
  apply quiet_bind; [apply quiet_emit; by intros []|]. intros _ w. exists [].
  rewrite app_nil_r. destruct (prs w !! n) as [pr|] eqn:Hpr; cbn.
  - split_and!; [done|constructor|]. intros k. cbn.
    destruct (decide (k = n)) as [->|Hk].
    + by rewrite lookup_insert_eq, Hpr.
    + by rewrite lookup_insert_ne.
  - split_and!; [done|constructor|apply same_logins_refl].
Qed.

Lemma resolve_calls_no_reply cfg handle :
  Forall (fun e => ¬ is_reply e) (resolve_calls env cfg handle).
Proof.
  unfold resolve_calls. apply Forall_app. split.
  - destruct (table_calls_cases cfg handle) as [->|[[email ->]|[name ->]]];
      repeat constructor; by intros [].
  - destruct (table_step env cfg handle); [constructor|].
    destruct (auto_match_by_email cfg); [|constructor].
    destruct (public_email env handle); repeat constructor; by intros [].
Qed.

Lemma batch_calls_no_reply cfg (handles : list jsstring) :
  Forall (fun e => ¬ is_reply e)
    (concat (map (resolve_calls env cfg) handles)).
Proof.
  induction handles as [|h handles IH]; cbn; [constructor|].
  apply Forall_app. split; [apply resolve_calls_no_reply | done].
Qed.

Lemma quiet_mapGitHubUserToSlack handle cfg :
  quiet (mapGitHubUserToSlack env handle cfg).
Proof.
  intros w. rewrite mapGitHubUserToSlack_run. eexists. cbn.
  split_and!; [done|apply resolve_calls_no_reply|by intros n].
Qed.

Lemma quiet_mapGitHubUsersToSlack (handles : list jsstring) cfg :
  quiet (mapGitHubUsersToSlack env handles cfg).
Proof.
  unfold mapGitHubUsersToSlack. generalize (@nil jsstring) as slackIds.
  induction handles as [|h handles IH]; intros slackIds; cbn.
  - apply quiet_ret.
  - apply quiet_bind; [apply quiet_mapGitHubUserToSlack|]. intros a. apply IH.
Qed.

Lemma quiet_getSlackThreadTs n : quiet (getSlackThreadTs n).
Proof.
  apply quiet_try_catch; [|apply quiet_ret].
  apply quiet_bind; [apply quiet_pulls_get|]. intros pr. apply quiet_ret.
Qed.

Lemma quiet_getPRStatus n : quiet (getPRStatus n).
Proof.
  apply quiet_try_catch; [|apply quiet_ret].
  apply quiet_bind; [apply quiet_pulls_get|]. intros pr. apply quiet_ret.
Qed.

Lemma quiet_updatePRStatus n status : quiet (updatePRStatus n status).
Proof.
  apply quiet_bind; [apply quiet_pulls_get|]. intros pr.
  apply quiet_pulls_update.
Qed.

Lemma quiet_updateSlackMessage channel ts m :
  quiet (updateSlackMessage env channel ts m).
Proof.
  apply quiet_try_catch; [|apply quiet_throw].
  apply quiet_bind; [apply quiet_call; by intros []|].
  intros r. destruct (r_ok r); [apply quiet_ret | apply quiet_throw].
Qed.

Lemma quiet_parsePRData context : quiet (parsePRData context).
Proof.
  unfold parsePRData. destruct (payload_pull_request context); [|apply quiet_throw].
  destruct (payload_has_repository context); [apply quiet_ret | apply quiet_throw].
Qed.

Lemma quiet_refresh_head_message c cfg channel ts status :
  quiet (refresh_head_message env c cfg channel ts status).
Proof.
  unfold refresh_head_message.
  apply quiet_bind; [apply quiet_updatePRStatus|]. intros _.
  apply quiet_bind; [apply quiet_pulls_get|]. intros pr.
  apply quiet_bind; [apply quiet_parsePRData|]. intros parsed.
  apply quiet_bind; [apply quiet_mapGitHubUsersToSlack|]. intros ids.
  apply quiet_bind; [apply quiet_mapGitHubUserToSlack|]. intros id.
  apply quiet_bind; [apply quiet_updateSlackMessage|]. intros _.
  apply quiet_ret.
Qed.

Lemma quiet_replies {A} (P : world → event → Prop) (m : M A) :
  quiet m → replies_satisfy P m.
Proof.
  intros Hm w. destruct (Hm w) as (es & Hlog & Hes & _).
  exists es. split; [done|]. intros e He Hin.
  rewrite Forall_forall in Hes. by destruct (Hes e Hin).
Qed.

Lemma replies_bind {A B} (P : world → event → Prop) (m : M A) (k : A → M B) :
  (∀ w w' e, same_logins w w' → P w' e → P w e) →
  quiet m → (∀ a, replies_satisfy P (k a)) → replies_satisfy P (bind m k).
Proof.
  intros Hstable Hm Hk w. unfold bind.
  destruct (Hm w) as (es1 & Hlog1 & Hes1 & Hsame1).
  rewrite Forall_forall in Hes1.
  destruct (m w) as [[a|] w1]; cbn in *.
  - destruct (Hk a w1) as (es2 & Hlog2 & Hes2).
    exists (es1 ++ es2). split; [by rewrite Hlog2, Hlog1, app_assoc|].
    intros e He [Hin|Hin]%elem_of_app.
    + by destruct (Hes1 e Hin).
    + eapply Hstable; [exact Hsame1|]. by apply Hes2.
  - exists es1. split; [done|]. intros e He Hin. by destruct (Hes1 e Hin).
Qed.

Lemma targetUsers_of_app (verdict_author : list jsstring)
    (comment_body : option jsstring) :
  targetUsers_of verdict_author comment_body
  = verdict_author ++ extractMentions comment_body.
Proof.
  unfold targetUsers_of.
  destruct (extractMentions comment_body); cbn; [by rewrite app_nil_r | done].
Qed.

Lemma reply_targets_same_logins w w' c :
  same_logins w w' → reply_targets w' c = reply_targets w c.
Proof. intros H. unfold reply_targets. by rewrite (H (prNumber c)). Qed.

Lemma reply_for_stable cfg channel c w w' e :
  same_logins w w' →
  reply_for env cfg channel c w' e → reply_for env cfg channel c w e.
Proof.
  intros H (ts & -> & Hne). exists ts.
  by rewrite <- (reply_targets_same_logins w w' c H).
Qed.

Lemma sendThreadReply_log channel ts m w :
  log (sendThreadReply env channel ts m w).2
  = log w ++ [EvThreadReply channel ts m].
Proof.
  unfold sendThreadReply, try_catch, call, bind, emit, ret, throw.
  destruct (chat_postMessage env channel (Some ts)) as [[[] ?]|]; done.
Qed.

Lemma of_array_nil_inv (xs : list jsstring) : JSSet.of_array xs = [] → xs = [].
Proof.
  intros H. apply elem_of_nil_inv. intros x Hx.
  apply elem_of_of_array in Hx. rewrite H in Hx. by apply elem_of_nil in Hx.
Qed.

(** the tail of the handler sends at most the reply that the event calls
    for. *)
Lemma notify_thread_replies c cfg channel ts :
  replies_satisfy (reply_for env cfg channel c)
    (notify_thread env c cfg channel ts).
Proof.
  intros w. unfold notify_thread.
  set (P := reply_for env cfg channel c).
  (* the targets, once the author is fetched *)
  assert (∀ (va : list jsstring) w1,
    same_logins w w1 →
    va = (if is_verdict (reviewState c)
          then option_list (pr_user_login <$> (prs w !! prNumber c))
          else []) →
    ∃ es, log ((let targetUsers := targetUsers_of va (c_body c) in
                if (length targetUsers =? 0)%nat then ret tt
                else
                  let targetUsers := JSSet.of_array targetUsers in
                  let* targetSlackIds :=
                    mapGitHubUsersToSlack env targetUsers cfg in
                  if (length targetSlackIds =? 0)%nat then ret tt
                  else
                    let* authorSlackId :=
                      mapGitHubUserToSlack env (c_author c) cfg in
                    let message :=
                      createCommentMessage c targetSlackIds authorSlackId in
                    let* _ := sendThreadReply env channel ts message in
                    ret tt) w1).2 = log w1 ++ es
          ∧ ∀ e, is_reply e → e ∈ es → P w e) as Htail.
  { intros va w1 Hsame Hva. cbn zeta. rewrite targetUsers_of_app.
    destruct (length (va ++ extractMentions (c_body c)) =? 0)%nat eqn:Hlen.
    { exists []. cbn. rewrite app_nil_r. split; [done|].
      by intros e _ ?%elem_of_nil. }
    unfold bind at 1. rewrite mapGitHubUsersToSlack_run.
    pose proof (batch_calls_no_reply cfg
      (JSSet.of_array (va ++ extractMentions (c_body c)))) as Hbatch.
    pose proof (resolve_calls_no_reply cfg (c_author c)) as Hauthor.
    rewrite Forall_forall in Hbatch, Hauthor.
    destruct (length (omap _ _) =? 0)%nat eqn:Hids.
    { eexists. cbn. split; [done|]. intros e He Hin.
      by destruct (Hbatch e Hin). }
    unfold bind at 1. rewrite mapGitHubUserToSlack_run.
    unfold bind at 1.
    pose proof (sendThreadReply_log channel ts
      (createCommentMessage c
         (omap (resolve env cfg)
            (JSSet.of_array (va ++ extractMentions (c_body c))))
         (resolve env cfg (c_author c)))
      (logged (logged w1 (concat (map (resolve_calls env cfg)
                 (JSSet.of_array (va ++ extractMentions (c_body c))))))
              (resolve_calls env cfg (c_author c)))) as Hsend.
    assert (∀ e, is_reply e →
      e ∈ concat (map (resolve_calls env cfg)
                    (JSSet.of_array (va ++ extractMentions (c_body c))))
          ++ resolve_calls env cfg (c_author c)
          ++ [EvThreadReply channel ts
                (createCommentMessage c
                   (omap (resolve env cfg)
                      (JSSet.of_array (va ++ extractMentions (c_body c))))
                   (resolve env cfg (c_author c)))] →
      P w e) as Hreply.
    { intros e He Hin.
      apply elem_of_app in Hin as [Hin|Hin]; [by destruct (Hbatch e Hin)|].
      apply elem_of_app in Hin as [Hin|Hin]; [by destruct (Hauthor e Hin)|].
      apply list_elem_of_singleton in Hin as ->.
      exists ts. unfold reply_targets. rewrite <- Hva. split; [done|].
      intros Hnil. apply of_array_nil_inv in Hnil.
      rewrite Hnil in Hlen. done. }
    destruct (sendThreadReply _ _ _ _ _) as [[r|] w2]; cbn in Hsend |- *;
      rewrite Hsend, <- !app_assoc; eexists; (split; [done|]);
      exact Hreply. }
  unfold bind at 1.
  destruct (is_verdict (reviewState c)) eqn:Hverdict.
  - unfold bind at 1. rewrite pulls_get_run.
    destruct (prs w !! prNumber c) as [pr|] eqn:Hpr.
    + destruct (Htail [pr_user_login pr] (logged w [EvPullsGet (prNumber c)]))
        as (es & Hlog & Hes); [by intros n | done |].
      exists (EvPullsGet (prNumber c) :: es). split.
      * etrans; [exact Hlog|]. cbn. by rewrite <- app_assoc.
      * intros e He [->|Hin]%elem_of_cons; [done | by apply Hes].
    + exists [EvPullsGet (prNumber c)]. split; [done|].
      intros e He ->%list_elem_of_singleton. done.
  - destruct (Htail [] w) as (es & Hlog & Hes); [done..|]. by exists es.
Qed.

Lemma parseCommentData_pure (context : comment_context) w :
  (parseCommentData context w).2 = w.
Proof.
  destruct context as [[] ? ? ? ?| | |]; done.
Qed.

Lemma is_verdict_true (reviewState : option jsstring) :
  is_verdict reviewState = true
  ↔ reviewState = Some (lit "approved")
    ∨ reviewState = Some (lit "changes_requested").
Proof. unfold is_verdict. by rewrite orb_true_iff, !opt_is_true. Qed.

Lemma elem_of_reply_targets w c u :
  u ∈ reply_targets w c
  ↔ (is_verdict c.(reviewState) = true
     ∧ pr_user_login <$> (prs w !! c.(prNumber)) = Some u)
    ∨ u ∈ extractMentions c.(c_body).
Proof.
  unfold reply_targets. rewrite elem_of_of_array, elem_of_app.
  destruct (is_verdict (reviewState c)).
  - destruct (pr_user_login <$> prs w !! prNumber c) as [login|]; cbn.
    + rewrite list_elem_of_singleton. split.
      * intros [->|?]; auto.
      * intros [[_ [= ->]]|?]; auto.
    + rewrite elem_of_nil. split; [intros [[]|?]; auto | intros [[_ [=]]|?]; auto].
  - rewrite elem_of_nil. split; [intros [[]|?]; auto | intros [[[=] _]|?]; auto].
Qed.

(** the whole handler sends at most the reply that the event calls for. *)
Lemma handleComment_replies (context : comment_context) cfg channel w c :
  parseCommentData context w = (Ret c, w) →
  ∃ es, log (handleComment env context cfg channel w).2 = log w ++ es
        ∧ ∀ e, is_reply e → e ∈ es → reply_for env cfg channel c w e.
Proof.
  intros Hparse. unfold handleComment. unfold bind at 1. rewrite Hparse.
  destruct (str_eqb (c_author c) (lit "github-actions[bot]")).
  { exists []. cbn. rewrite app_nil_r. split; [done|].
    by intros e _ ?%elem_of_nil. }
  revert w Hparse. intros w _. revert w.
  change (replies_satisfy (reply_for env cfg channel c)
    (let* threadTs := getSlackThreadTs (prNumber c) in
     match if_truthy threadTs with
     | Some threadTs0 =>
         let* currentStatus := getPRStatus (prNumber c) in
         let newStatus := nextStatus (reviewState c) currentStatus in
         let* _ := if negb (str_eqb newStatus currentStatus)
                   then refresh_head_message env c cfg channel threadTs0
                          newStatus
                   else ret tt in
         notify_thread env c cfg channel threadTs0
     | None => ret tt
     end)).
  apply replies_bind;
    [intros ? ? ?; apply reply_for_stable | apply quiet_getSlackThreadTs |].
  intros threadTs. destruct (if_truthy threadTs) as [ts|];
    [|apply quiet_replies, quiet_ret].
  apply replies_bind;
    [intros ? ? ?; apply reply_for_stable | apply quiet_getPRStatus |].
  intros currentStatus. cbn zeta.
  apply replies_bind; [intros ? ? ?; apply reply_for_stable | |].
  - destruct (negb _); [apply quiet_refresh_head_message | apply quiet_ret].
  - intros _. apply notify_thread_replies.
Qed.

(** the replies of the comment handler, as far as it sends one: whatever
    the handler sends as a thread reply is the reply to the people that
    the event targets: the author of the pull request when the review
    state is [approved] or [changes_requested], and every handle mentioned
    in the body; these people are resolved to chat identities in that
    order; no reply is sent when there is no such person; and for an event
    that is not a verdict the author is among them only if the body
    mentions the author. *)
Theorem handleComment_thread_targets (context : comment_context)
    (cfg : config) (channel : jsstring) (w : world) :
  ∃ es, log (handleComment env context cfg channel w).2 = log w ++ es
    ∧ ∀ ch ts m, EvThreadReply ch ts m ∈ es →
        ∃ c, parseCommentData context w = (Ret c, w)
          ∧ ch = channel
          ∧ m = createCommentMessage c
                  (omap (resolve env cfg) (reply_targets w c))
                  (resolve env cfg c.(c_author))
          ∧ reply_targets w c ≠ []
          ∧ (∀ u, u ∈ reply_targets w c ↔
               ((c.(reviewState) = Some (lit "approved")
                 ∨ c.(reviewState) = Some (lit "changes_requested"))
                ∧ pr_user_login <$> (prs w !! c.(prNumber)) = Some u)
               ∨ u ∈ extractMentions c.(c_body))
          ∧ (c.(reviewState) ≠ Some (lit "approved") →
             c.(reviewState) ≠ Some (lit "changes_requested") →
             ∀ u, u ∈ reply_targets w c → u ∈ extractMentions c.(c_body)).
Proof.
  pose proof (parseCommentData_pure context w) as Hpure.
  destruct (parseCommentData context w) as [[c|] w0] eqn:Hparse;
    cbn in Hpure; subst w0.
  - destruct (handleComment_replies context cfg channel w c Hparse)
      as (es & Hlog & Hes).
    exists es. split; [done|]. intros ch ts m Hin.
    destruct (Hes (EvThreadReply ch ts m) I Hin) as (ts' & [= -> -> ->] & Hne).
    exists c. split_and!; [done..| |].
    + intros u. rewrite elem_of_reply_targets, is_verdict_true. done.
    + intros Ha Hc u Hu. apply elem_of_reply_targets in Hu as [[Hv _]|Hu];
        [|done]. apply is_verdict_true in Hv as [?|?]; done.
  - exists []. unfold handleComment, bind. rewrite Hparse. cbn.
    rewrite app_nil_r. split; [done|]. by intros ch ts m ?%elem_of_nil.
Qed.

(** C9: a comment-like event whose author is [github-actions[bot]] makes
    the handler return at once: no call is made, so neither the thread
    pointer nor the status is read, and nothing is changed or sent. *)
Theorem handleComment_skips_bot (context : comment_context) (cfg : config)
    (channel : jsstring) (w : world) (c : commentData) :
  parseCommentData context w = (Ret c, w) →
  c.(c_author) = lit "github-actions[bot]" →
  handleComment env context cfg channel w = (Ret tt, w).
Proof.
  intros Hparse Hbot. unfold handleComment, bind. rewrite Hparse, Hbot. done.
Qed.

End CommentFacts.

(** ** The thread pointer *)

Section Pointer.
Implicit Types (s a r v p : jsstring).

Lemma startsWith_app_newline p a r :
  10 ∉ p → startsWith (a ++ 10 :: r) p = startsWith a p.
Proof.
  revert a. induction p as [|y p IH]; intros a Hp; [done|].
  apply not_elem_of_cons in Hp as [Hy Hp].
  destruct a as [|x a]; cbn [app startsWith].
  - apply N.eqb_neq in Hy. by rewrite Hy.
  - by rewrite IH.
Qed.

Lemma lazy_until_app_newline p a r :
  10 ∉ p → lazy_until p (a ++ 10 :: r) = lazy_until p a.
Proof.
  intros Hp. induction a as [|c a IH]; cbn; [done|].
  by rewrite startsWith_app_newline, IH.
Qed.

Lemma startsWith_length s p : startsWith s p = true → (length p <= length s)%nat.
Proof. intros [k ->]%startsWith_prefix. rewrite length_app. lia. Qed.

(** a match does not span a line feed: the text before it is searched
    first, then the text after it. *)
Lemma match_marker_app_newline p a r :
  10 ∉ p → p ≠ [] →
  match_marker p (a ++ 10 :: r) =
    match match_marker p a with
    | Some captured => Some captured
    | None => match_marker p r
    end.
Proof.
  intros Hp Hne.
  assert (10 ∉ lit " -->") as Hterm.
  { apply (bool_decide_unpack _). by vm_compute. }
  induction a as [|c a IH].
  - destruct p as [|y p]; [done|].
    apply not_elem_of_cons in Hp as [Hy _].
    cbn [app match_marker startsWith].
    apply N.eqb_neq in Hy. by rewrite Hy.
  - cbn [app match_marker].
    change (c :: a ++ 10 :: r) with ((c :: a) ++ 10 :: r).
    rewrite (startsWith_app_newline p (c :: a) r Hp).
    destruct (startsWith (c :: a) p) eqn:Hstart; [|by rewrite IH].
    rewrite drop_app_le by (by apply startsWith_length).
    rewrite lazy_until_app_newline by done.
    destruct (lazy_until (lit " -->") (drop (length p) (c :: a))); [done|].
    by rewrite IH.
Qed.

(** the capture stops at the end of a value that a marker can carry. *)
Lemma lazy_until_value v r :
  marker_value v → lazy_until (lit " -->") (v ++ lit " -->" ++ r) = Some v.
Proof.
  intros [Hne Hv]. induction Hv as [|c v (Hlt & _ & _) Hv IH]; [done|].
  cbn [app lazy_until]. rewrite Hlt.
  destruct v as [|c' v].
  { by cbn. }
  assert (startsWith ((c' :: v) ++ lit " -->" ++ r) (lit " -->") = false)
    as ->.
  { apply startsWith_false. intros [k Hk].
    change (lit " -->") with [32; 45; 45; 62] in Hk.
    clear IH Hne.
    destruct v as [|c2 [|c3 [|c4 v]]]; cbn in Hk; try (by inversion Hk).
    inversion Hk; subst. rewrite !Forall_cons in Hv.
    by destruct Hv as (_ & _ & _ & (_ & _ & ?) & _). }
  by rewrite IH.
Qed.

Lemma match_marker_unfold p s :
  match_marker p s =
    match (if startsWith s p
           then lazy_until (lit " -->") (drop (length p) s)
           else None) with
    | Some captured => Some captured
    | None =>
        match s with
        | [] => None
        | _ :: s' => match_marker p s'
        end
    end.
Proof. by destruct s. Qed.

Lemma match_marker_here p v r :
  marker_value v →
  match_marker p (p ++ v ++ lit " -->" ++ r) = Some v.
Proof.
  intros Hv. rewrite match_marker_unfold.
  assert (startsWith (p ++ v ++ lit " -->" ++ r) p = true) as ->.
  { apply startsWith_prefix. by eexists. }
  by rewrite drop_app_length, lazy_until_value.
Qed.

Lemma match_marker_here_end p v :
  marker_value v → match_marker p (p ++ v ++ lit " -->") = Some v.
Proof.
  intros Hv. rewrite <- (match_marker_here p v [] Hv). by rewrite app_nil_r.
Qed.

Lemma match_marker_no_bracket p (y : N) s :
  Forall (fun c => c ≠ y) s → match_marker (y :: p) s = None.
Proof.
  induction 1 as [|c s Hc Hs IH]; [done|].
  cbn [match_marker startsWith].
  apply N.eqb_neq in Hc. by rewrite Hc.
Qed.

(** the marker of the thread does not read as a marker of the status. *)
Lemma status_not_in_thread_marker v :
  marker_value v →
  match_marker status_prefix (thread_ts_prefix ++ v ++ lit " -->") = None.
Proof.
  intros [_ Hv].
  assert (Forall (fun c => c ≠ 60) (v ++ lit " -->")) as Hrest.
  { apply Forall_app. split.
    - eapply Forall_impl; [exact Hv|]. by intros c (_ & ? & _).
    - change (lit " -->") with [32; 45; 45; 62]. by repeat constructor. }
  pose proof (match_marker_no_bracket
    [33; 45; 45; 32; 115; 108; 97; 99; 107; 45; 115; 116; 97; 116; 117; 115;
     58; 32] 60 _ Hrest) as Hnone.
  change status_prefix with
    [60; 33; 45; 45; 32; 115; 108; 97; 99; 107; 45; 115; 116; 97; 116; 117;
     115; 58; 32].
  change thread_ts_prefix with
    [60; 33; 45; 45; 32; 115; 108; 97; 99; 107; 45; 116; 104; 114; 101; 97;
     100; 45; 116; 115; 58; 32].
  cbn. exact Hnone.
Qed.

Lemma lazy_until_nonempty p s v : lazy_until p s = Some v → v ≠ [].
Proof.
  destruct s as [|c s]; cbn; [done|].
  destruct (is_line_terminator c); [done|].
  destruct (startsWith s p); [by intros [= <-]|].
  destruct (lazy_until p s); cbn; [by intros [= <-] | done].
Qed.

Lemma match_marker_nonempty p s v : match_marker p s = Some v → v ≠ [].
Proof.
  induction s as [|c s IH]; rewrite match_marker_unfold.
  - destruct (startsWith [] p); [|done].
    destruct (lazy_until _ _) eqn:E; [|done].
    intros [= <-]. by eapply lazy_until_nonempty.
  - destruct (startsWith (c :: s) p); [|done].
    destruct (lazy_until _ _) eqn:E; [|done].
    intros [= <-]. by eapply lazy_until_nonempty.
Qed.

Lemma thread_ts_of_body_marker s :
  thread_ts_of_body s = match_marker thread_ts_prefix s.
Proof.
  unfold thread_ts_of_body.
  destruct (match_marker thread_ts_prefix s) as [v|] eqn:E; [|done].
  apply match_marker_nonempty in E. by destruct v.
Qed.

Lemma pointer_markers_shape ts status :
  pointer_markers ts status
  = 10 :: [] ++ 10 :: (thread_ts_prefix ++ ts ++ lit " -->")
      ++ 10 :: status_prefix ++ status ++ lit " -->".
Proof.
  unfold pointer_markers.
  change (lit "

<!-- slack-thread-ts: ") with (10 :: 10 :: thread_ts_prefix).
  change (lit " -->
<!-- slack-status: ") with (lit " -->" ++ 10 :: status_prefix).
  cbn [app]. f_equal. f_equal. by rewrite <- !app_assoc.
Qed.

(** C3, as amended: for a body in which neither marker is read yet, and
    for a thread timestamp and a status that are not empty and hold neither
    a line terminator nor an angle bracket, the body with the two marker
    comments appended reads back exactly that timestamp and that status,
    whatever else the body holds. *)
Theorem pointer_round_trip (body ts status : jsstring) :
  thread_ts_of_body body = None →
  status_of_body body = None →
  marker_value ts →
  marker_value status →
  thread_ts_of_body (body ++ pointer_markers ts status) = Some ts
  ∧ status_of_body (body ++ pointer_markers ts status) = Some status.
Proof.
  intros Hts Hstatus Hv1 Hv2.
  rewrite thread_ts_of_body_marker in Hts |- *.
  unfold status_of_body in *.
  assert ((10 ∉ thread_ts_prefix) ∧ (10 ∉ status_prefix)) as [Hp1 Hp2].
  { split; apply (bool_decide_unpack _); by vm_compute. }
  assert (thread_ts_prefix ≠ [] ∧ status_prefix ≠ []) as [Hn1 Hn2].
  { done. }
  rewrite pointer_markers_shape. split.
  - rewrite match_marker_app_newline, Hts by done.
    rewrite match_marker_app_newline by done.
    rewrite match_marker_app_newline by done.
    by rewrite match_marker_here_end.
  - rewrite match_marker_app_newline, Hstatus by done.
    rewrite match_marker_app_newline by done.
    rewrite match_marker_app_newline by done.
    change (match_marker status_prefix []) with (@None jsstring).
    rewrite status_not_in_thread_marker by done.
    by rewrite match_marker_here_end.
Qed.

(** C3, as stated, fails: a body that already carries a thread marker
    reads back the old timestamp after the markers are written. *)
Lemma pointer_round_trip_counterexample :
  ¬ ∀ body ts status : jsstring,
      thread_ts_of_body (body ++ pointer_markers ts status) = Some ts
      ∧ status_of_body (body ++ pointer_markers ts status) = Some status.
Proof.
  intros H.
  destruct (H (lit "<!-- slack-thread-ts: 999.9 -->") (lit "123.45")
              (lit "in-review")) as [Hts _].
  vm_compute in Hts. discriminate.
Qed.

Lemma pointer_round_trip_witness :
  thread_ts_of_body
    (lit "Fix things" ++ pointer_markers (lit "123.45") (lit "in-review"))
  = Some (lit "123.45")
  ∧ status_of_body
      (lit "Fix things" ++ pointer_markers (lit "123.45") (lit "in-review"))
    = Some (lit "in-review").
Proof.
  apply (pointer_round_trip (lit "Fix things") (lit "123.45")
           (lit "in-review")).
  - reflexivity.
  - reflexivity.
  - vm_compute. split; [discriminate|].
    repeat (constructor; [split_and!; done|]). constructor.
  - vm_compute. split; [discriminate|].
    repeat (constructor; [split_and!; done|]). constructor.
Defined.

End Pointer.

(** ** The PR-opened handler *)

Section OpenedFacts.
Context (env : Env).
Implicit Types (w : world) (cfg : config) (d : prData).

Lemma getChangedFiles_logged prNumber w :
  getChangedFiles env prNumber w
  = (Ret (default [] (env.(pulls_listFiles) prNumber)),
     logged w [EvListFiles prNumber]).
Proof.
  unfold getChangedFiles, try_catch, call, bind, emit, ret, throw.
  by destruct (pulls_listFiles env prNumber).
Qed.

Lemma find_codeowners_logged (paths : list jsstring) w :
  ∃ es, find_codeowners env paths w =
          (Ret (omap (fun path =>
                        match env.(repos_getContent) path with
                        | Some content =>
                            if truthy content
                            then Some (env.(base64_decode) content)
                            else None
                        | None => None
                        end) paths !! 0%nat), logged w es)
        ∧ Forall (fun e => ¬ is_post e) es.
Proof.
  revert w. induction paths as [|path paths IH]; intros w.
  - exists []. by rewrite logged_nil.
  - cbn [find_codeowners omap list_omap].
    unfold try_catch, call, bind, emit, ret, throw. cbn [fst snd].
    destruct (repos_getContent env path) as [content|]; cbn.
    + destruct (truthy content); cbn.
      { exists [EvGetContent path]. split; [done|].
        constructor; [by intros []|constructor]. }
      destruct (IH (logged w [EvGetContent path])) as (es & -> & Hes).
      exists (EvGetContent path :: es). rewrite logged_logged.
      split; [done|]. constructor; [by intros []|done].
    + destruct (IH (logged w [EvGetContent path])) as (es & -> & Hes).
      exists (EvGetContent path :: es). rewrite logged_logged.
      split; [done|]. constructor; [by intros []|done].
Qed.

Lemma getCodeOwners_logged prNumber w :
  ∃ es, getCodeOwners env prNumber w
        = (Ret (code_owners env prNumber), logged w es)
        ∧ Forall (fun e => ¬ is_post e) es.
Proof.
  unfold getCodeOwners, code_owners, found_codeowners, try_catch, bind.
  rewrite getChangedFiles_logged.
  destruct (default [] (pulls_listFiles env prNumber)) as [|f files].
  { exists [EvListFiles prNumber]. split; [done|].
    constructor; [by intros []|constructor]. }
  cbn [length Nat.eqb].
  destruct (find_codeowners_logged codeowners_paths
              (logged w [EvListFiles prNumber])) as (es & -> & Hes).
  exists (EvListFiles prNumber :: es). rewrite logged_logged.
  split; [|constructor; [by intros []|done]].
  destruct (omap _ codeowners_paths !! 0%nat) as [c|]; cbn; [|done].
  by destruct (truthy c).
Qed.

Lemma elem_of_add_all_but (author : jsstring) (set xs : list jsstring) h :
  h ∈ add_all_but author set xs ↔ h ∈ set ∨ (h ∈ xs ∧ h ≠ author).
Proof.
  unfold add_all_but. rewrite elem_of_add_all.
  rewrite (list_elem_of_In (List.filter _ _)), filter_In, <- list_elem_of_In.
  rewrite negb_true_iff, str_eqb_false. tauto.
Qed.

Lemma elem_of_collect (author name : jsstring) (xs : list jsstring)
    (so_far : list jsstring * list jsstring) h :
  h ∈ (collect author name xs so_far).1
  ↔ h ∈ so_far.1 ∨ (h ∈ xs ∧ h ≠ author).
Proof.
  unfold collect. destruct xs as [|x xs]; cbn [length Nat.ltb Nat.leb fst].
  - split; [by left | intros [?|[?%elem_of_nil _]]; done].
  - apply elem_of_add_all_but.
Qed.

Lemma sendSlackMessage_log channel m w :
  log (sendSlackMessage env channel m w).2 = log w ++ [EvPostMessage channel m].
Proof.
  unfold sendSlackMessage, try_catch, call, bind, emit, ret, throw.
  destruct (chat_postMessage env channel None) as [[[] ?]|]; done.
Qed.

Lemma posts_step {A B} (P : event → Prop) (Q : A → Prop) (m : M A)
    (k : A → M B) :
  (∀ w, ∃ a es, m w = (Ret a, logged w es)
                ∧ Forall (fun e => ¬ is_post e) es ∧ Q a) →
  (∀ a, Q a → posts_satisfy P (k a)) →
  posts_satisfy P (bind m k).
Proof.
  intros Hm Hk w. unfold bind.
  destruct (Hm w) as (a & es1 & -> & Hes1 & Ha).
  destruct (Hk a Ha (logged w es1)) as (es2 & Hlog & Hes2).
  exists (es1 ++ es2). split; [by rewrite Hlog, app_assoc|].
  intros e He [Hin|Hin]%elem_of_app; [|by apply Hes2].
  rewrite Forall_forall in Hes1. by destruct (Hes1 e Hin).
Qed.

(** the identities to notify: those of the handles collected and those of
    the default reviewers, once each when default reviewers are
    configured. *)
Lemma reviewers_to_notify_run (allReviewers sources : list jsstring) cfg w :
  ∃ a es, reviewers_to_notify env allReviewers sources cfg w
          = (Ret a, logged w es)
    ∧ Forall (fun e => ¬ is_post e) es
    ∧ ((∀ id, id ∈ a.1 ↔
          (∃ h, h ∈ allReviewers ∧ resolve env cfg h = Some id)
          ∨ (∃ email, email ∈ cfg.(default_reviewers)
                      ∧ if_truthy (lookup_id env email) = Some id))
       ∧ (cfg.(default_reviewers) ≠ [] → NoDup a.1)).
Proof.
  unfold reviewers_to_notify, getDefaultReviewersSlackIds.
  assert (∀ (l : list jsstring) (f : jsstring → option jsstring) id,
            id ∈ omap f l ↔ ∃ h, h ∈ l ∧ f h = Some id) as Homap.
  { intros l f id. apply list_elem_of_omap. }
  assert (Forall (fun e => ¬ is_post e)
            (concat (map (resolve_calls env cfg) allReviewers))) as Hcalls.
  { induction allReviewers as [|h l IH]; cbn; [constructor|].
    apply Forall_app. split; [|done]. unfold resolve_calls.
    apply Forall_app. split.
    - destruct (table_calls_cases cfg h) as [->|[[email ->]|[name ->]]];
        repeat constructor; by intros [].
    - destruct (table_step env cfg h); [constructor|].
      destruct (auto_match_by_email cfg); [|constructor].
      destruct (public_email env h); repeat constructor; by intros []. }
  assert (Forall (fun e => ¬ is_post e)
            (map EvLookupByEmail (default_reviewers cfg))) as Hdefault.
  { apply Forall_forall. intros e (email & -> & _)%list_elem_of_fmap.
    by intros []. }
  assert (∀ (c : bool) (x y : list jsstring * jsstring),
            (if c then ret x else ret y) = ret (if c then x else y)) as Hif.
  { by intros []. }
  assert (∀ (c : bool) (x : list jsstring) (y1 y2 : jsstring),
            (if c then (x, y1) else (x, y2)).1 = x) as Hfst.
  { by intros []. }
  unfold bind at 1.
  destruct allReviewers as [|h0 l0]; cbn [length Nat.ltb Nat.leb].
  - unfold ret at 1.
    destruct (default_reviewers cfg) as [|e0 es0];
      cbn [length Nat.ltb Nat.leb].
    + exists ([], lit "none"), []. unfold ret. rewrite logged_nil.
      split_and!; [done|constructor| |done].
      intros id. cbn. rewrite elem_of_nil. split; [done|].
      by intros [(h & ?%elem_of_nil & _)|(email & ?%elem_of_nil & _)].
    + unfold bind. rewrite getDefaultReviewersSlackIds_loop_run. cbn [app].
      rewrite Hif. unfold ret. eexists _, _.
      split_and!; [reflexivity | done | |].
      * intros id. rewrite Hfst, elem_of_of_array, Homap. split.
        -- intros ?. by right.
        -- intros [(h & ?%elem_of_nil & _)|?]; done.
      * intros _. rewrite Hfst. apply NoDup_of_array.
  - unfold bind at 1. rewrite mapGitHubUsersToSlack_run. unfold ret at 1.
    destruct (default_reviewers cfg) as [|e0 es0];
      cbn [length Nat.ltb Nat.leb].
    + eexists (_, _), _. unfold ret. split_and!; [done..| |done].
      intros id. cbn [fst]. rewrite Homap. split; [by left|].
      by intros [?|(email & ?%elem_of_nil & _)].
    + unfold bind. rewrite getDefaultReviewersSlackIds_loop_run. cbn [app].
      rewrite logged_logged, Hif. unfold ret. eexists _, _.
      split_and!; [reflexivity | by apply Forall_app | |].
      * intros id.
        by rewrite Hfst, elem_of_of_array, elem_of_app, !Homap.
      * intros _. rewrite Hfst. apply NoDup_of_array.
Qed.

Lemma pulls_update_log n new_body w :
  log (pulls_update n new_body w).2 = log w ++ [EvPullsUpdate n new_body].
Proof.
  unfold pulls_update, bind, emit. cbn. by destruct (prs w !! n).
Qed.

(** what the handler sends as a head message is the head message that the
    event calls for. *)
Lemma handlePROpened_posts (context : pr_context) cfg (channel : jsstring)
    w d :
  parsePRData context w = (Ret d, w) →
  ∃ es, log (handlePROpened env context cfg channel w).2 = log w ++ es
        ∧ ∀ e, is_post e → e ∈ es → post_for env cfg channel d e.
Proof.
  intros Hparse. unfold handlePROpened. unfold bind at 1. rewrite Hparse.
  set (P := post_for env cfg channel d).
  match goal with
  | |- ∃ es, log (?m w).2 = _ ∧ _ => enough (posts_satisfy P m) as Hm
  end.
  { exact (Hm w). }
  clear w Hparse.
  apply (posts_step P (fun a => a = resolve env cfg (author d))).
  { intros w. eexists _, _. rewrite mapGitHubUserToSlack_run.
    split_and!; [reflexivity| |reflexivity].
    unfold resolve_calls. apply Forall_app. split.
    - destruct (table_calls_cases cfg (author d))
        as [->|[[email ->]|[name ->]]]; repeat constructor; by intros [].
    - destruct (table_step env cfg (author d)); [constructor|].
      destruct (auto_match_by_email cfg); [|constructor].
      destruct (public_email env (author d)); repeat constructor;
        by intros []. }
  intros authorSlackId ->. cbn zeta.
  apply (posts_step P (fun a => a = code_owners env (number d))).
  { intros w. destruct (getCodeOwners_logged (number d) w) as (es & -> & Hes).
    by eexists _, _. }
  intros codeOwners ->.
  eapply posts_step; [intros w; apply reviewers_to_notify_run|].
  intros [ids source] [Hmem Hnd]. cbn [fst] in Hmem, Hnd.
  apply (posts_step P (fun _ => True)).
  { intros w. eexists _, _. unfold emit. split_and!; [reflexivity| |done].
    constructor; [by intros []|constructor]. }
  intros _ _ w. unfold bind.
  pose proof (sendSlackMessage_log channel
    (createPRNotificationMessage d ids (resolve env cfg (author d))
       REVIEW_PENDING) w) as Hsend.
  assert (P (EvPostMessage channel
               (createPRNotificationMessage d ids
                  (resolve env cfg (author d)) REVIEW_PENDING))) as HP.
  { eexists. split_and!; [reflexivity..| |done].
    intros id. cbn [m_reviewerSlackIds createPRNotificationMessage].
    rewrite Hmem. apply or_iff_compat_r. split.
    - intros (h & Hh & Hid). exists h.
      rewrite !elem_of_collect in Hh. cbn [fst] in Hh.
      rewrite elem_of_nil in Hh. tauto.
    - intros (h & Hh & Hne & Hid). exists h. split; [|done].
      rewrite !elem_of_collect. cbn [fst]. tauto. }
  destruct (sendSlackMessage _ _ _ _) as [[result|] w1]; cbn [fst snd] in *.
  - pose proof (pulls_update_log (number d)
        (body d ++ pointer_markers (r_ts result) REVIEW_PENDING) w1) as Hupd.
    destruct (pulls_update _ _ w1) as [[[]|] w2]; unfold ret;
      cbn [fst snd] in *; rewrite Hupd, Hsend, <- app_assoc;
      (eexists; split; [reflexivity|]);
      intros e He [->|[->|[]%elem_of_nil]%elem_of_cons]%elem_of_cons;
      done.
  - rewrite Hsend. eexists. split; [reflexivity|].
    by intros e He ->%list_elem_of_singleton.
Qed.

End OpenedFacts.

(** ** The scenario, run *)

Section ScenarioFacts.
Import Scenario.

Lemma handleComment_skips_bot_witness :
  handleComment env bot_comment cfg channel
    (world_of (body_with_pointer REVIEW_PENDING) [bob])
  = (Ret tt, world_of (body_with_pointer REVIEW_PENDING) [bob]).
Proof.
  eapply (handleComment_skips_bot env bot_comment cfg channel
            (world_of (body_with_pointer REVIEW_PENDING) [bob])).
  - reflexivity.
  - reflexivity.
Defined.

(** a plain comment on a pull request in review: the status stays, and the
    reply goes to the two people mentioned, once each, not to the
    author of the pull request as such. *)
Example handleComment_plain_comment :
  let r := handleComment env plain_comment cfg channel
             (world_of (body_with_pointer IN_REVIEW) [bob]) in
  r.1 = Ret tt
  ∧ ∃ c, last (log r.2)
         = Some (EvThreadReply channel (lit "123.45")
                   (createCommentMessage c [lit "U3"; lit "U1"]
                      (Some (lit "U2"))))
         ∧ reply_targets (world_of (body_with_pointer IN_REVIEW) [bob]) c
           = [carol; alice].
Proof.
  vm_compute. split; [reflexivity|]. eexists. split; reflexivity.
Qed.

(** the first comment on a pending pull request: the new status is
    persisted, then [parsePRData] fails on the payload without repository
    and the handler fails with it. *)
Example handleComment_first_comment :
  let r := handleComment env plain_comment cfg channel
             (world_of (body_with_pointer REVIEW_PENDING) [bob]) in
  r.1 = Throw
  ∧ (pr_body <$> (prs r.2 !! 7))
    = Some (Some (body_with_pointer IN_REVIEW)).
Proof. vm_compute. split; reflexivity. Qed.

(** a lookup that throws is a miss for its handle only. *)
Example mapGitHubUsersToSlack_throwing_lookup :
  (mapGitHubUsersToSlack env [bob; lit "erin"; lit "nobody"; carol] cfg
     (world_of (lit "Fix things") [])).1
  = Ret [lit "U2"; lit "U3"].
Proof. vm_compute. reflexivity. Qed.

(** the aggregation of the specification: assigned reviewers [alice] and
    [bob], author [alice], owners [bob] and [carol], one default reviewer:
    the identities of [bob], [carol] and the default reviewer, and the
    label of the three sources. *)
Example handlePROpened_three_sources :
  let r := handlePROpened env (opened [alice; bob]) cfg channel
             (world_of (lit "Fix things") [alice; bob]) in
  r.1 = Ret tt
  ∧ (∃ m, EvPostMessage channel m ∈ log r.2
          ∧ m.(m_reviewerSlackIds) = [lit "U2"; lit "U3"; lit "U4"]
          ∧ m.(m_status) = lit "review-pending")
  ∧ EvNotifying 3 (lit "reviewers + codeowners + default") ∈ log r.2
  ∧ (pr_body <$> (prs r.2 !! 7))
    = Some (Some (body_with_pointer REVIEW_PENDING)).
Proof.
  vm_compute. split_and!; [reflexivity| |repeat constructor|reflexivity].
  eexists. split_and!; [repeat constructor|reflexivity..].
Qed.

(** no reviewer from any source: the message still goes to the channel. *)
Example handlePROpened_no_reviewer :
  let r := handlePROpened env_no_codeowners (opened []) cfg_no_default
             channel (world_of (lit "Fix things") []) in
  r.1 = Ret tt
  ∧ (∃ m, EvPostMessage channel m ∈ log r.2 ∧ m.(m_reviewerSlackIds) = [])
  ∧ EvNotifying 0 (lit "none") ∈ log r.2.
Proof.
  vm_compute. split_and!; [reflexivity| |repeat constructor].
  eexists. split; [repeat constructor|reflexivity].
Qed.

(** C2, where the code departs from it: two handles of one person are
    assigned and no default reviewer is configured; the list of identities
    that goes into the message names that person twice. *)
Theorem handlePROpened_duplicate_identity :
  let r := handlePROpened env_no_codeowners (opened [bob; bobby])
             cfg_no_default channel
             (world_of (lit "Fix things") [bob; bobby]) in
  r.1 = Ret tt
  ∧ ∃ m, EvPostMessage channel m ∈ log r.2
         ∧ m.(m_reviewerSlackIds) = [lit "U2"; lit "U2"]
         ∧ ¬ NoDup m.(m_reviewerSlackIds).
Proof.
  vm_compute. split; [reflexivity|]. eexists. split_and!.
  - repeat constructor.
  - reflexivity.
  - intros H. apply NoDup_cons in H as [H _]. apply H. constructor.
Qed.

End ScenarioFacts.

(** * Further properties of the sources *)

(** ** Lines: [split] and [join] *)

Section Lines.
Implicit Types (s t : jsstring) (ls : list jsstring) (sep : N).

Lemma split_on_length sep s :
  length (split_on sep s)
  = S (length (List.filter (fun c => c =? sep) s)).
Proof.
  induction s as [|c s IH]; [done|]. cbn [split_on List.filter].
  destruct (c =? sep); cbn [length]; [by rewrite IH|].
  destruct (split_on sep s) as [|cur more]; [done|]. by rewrite <- IH.
Qed.

Lemma split_on_nonempty sep s : split_on sep s ≠ [].
Proof.
  intros E. pose proof (split_on_length sep s) as H. by rewrite E in H.
Qed.

(** joining the pieces with the separator gives the string back. *)
Lemma join_split_on sep s : join [sep] (split_on sep s) = s.
Proof.
  induction s as [|c s IH]; [done|]. cbn [split_on].
  pose proof (split_on_nonempty sep s) as Hne.
  destruct (N.eqb_spec c sep) as [->|Hc].
  - cbn [join]. destruct (split_on sep s) as [|cur more]; [done|].
    cbn [app] in IH |- *. by rewrite IH.
  - destruct (split_on sep s) as [|cur more]; [done|].
    cbn [join] in IH |- *. destruct more; [by rewrite IH|].
    cbn [app] in IH |- *. by rewrite IH.
Qed.

Lemma split_on_app_sep sep s t :
  split_on sep (s ++ sep :: t) = split_on sep s ++ split_on sep t.
Proof.
  induction s as [|c s IH]; cbn [app split_on].
  - by rewrite N.eqb_refl.
  - rewrite IH. pose proof (split_on_nonempty sep s) as Hne.
    destruct (c =? sep); [done|].
    by destruct (split_on sep s).
Qed.

Lemma split_on_no_sep sep s : sep ∉ s → split_on sep s = [s].
Proof.
  induction s as [|c s IH]; [done|]. intros [Hc Hs]%not_elem_of_cons.
  cbn [split_on]. rewrite IH by done.
  apply N.eqb_neq in Hc. rewrite N.eqb_sym in Hc. by rewrite Hc.
Qed.

(** the pieces have no separator in them. *)
Lemma split_on_pieces sep s : Forall (fun l => sep ∉ l) (split_on sep s).
Proof.
  induction s as [|c s IH]; cbn [split_on].
  - constructor; [apply not_elem_of_nil|constructor].
  - destruct (N.eqb_spec c sep) as [->|Hc].
    + constructor; [apply not_elem_of_nil|done].
    + destruct (split_on sep s) as [|cur more]; inversion IH; subst.
      * repeat constructor. by intros [?|?%elem_of_nil]%elem_of_cons.
      * constructor; [|done]. apply not_elem_of_cons. split; [|done].
        by intros ->.
Qed.

(** splitting what was joined gives the pieces back, when they have no
    separator in them. *)
Lemma split_on_join sep ls :
  ls ≠ [] → Forall (fun l => sep ∉ l) ls → split_on sep (join [sep] ls) = ls.
Proof.
  intros Hne Hls. induction Hls as [|x ls Hx Hls IH]; [done|].
  destruct ls as [|y ls].
  - by apply split_on_no_sep.
  - change (join [sep] (x :: y :: ls)) with (x ++ sep :: join [sep] (y :: ls)).
    rewrite split_on_app_sep, IH by done. by rewrite split_on_no_sep.
Qed.

Lemma filter_take_length {A} (f : A → bool) (n : nat) (l : list A) :
  (length (List.filter f (take n l)) <= length (List.filter f l))%nat.
Proof.
  rewrite <- (take_drop n l) at 2. rewrite List.filter_app, length_app. lia.
Qed.

Lemma join_seps sep ls :
  Forall (fun l => sep ∉ l) ls →
  length (List.filter (fun c => c =? sep) (join [sep] ls))
  = pred (length ls).
Proof.
  intros Hls. destruct ls as [|x ls]; [done|].
  pose proof (split_on_length sep (join [sep] (x :: ls))) as H.
  rewrite split_on_join in H by done. cbn [length pred] in *. lia.
Qed.

End Lines.

(** ** The excerpt of the description *)

Section ExcerptFacts.

Lemma filter_pieces (f : jsstring → bool) (ls : list jsstring) :
  Forall (fun l => 10 ∉ l) ls → Forall (fun l => 10 ∉ l) (List.filter f ls).
Proof.
  rewrite !Forall_forall. intros H l Hl.
  apply list_elem_of_In, filter_In in Hl as [Hl _].
  by apply H, list_elem_of_In.
Qed.

(** X1: the excerpt of a description is never empty, has at most 200 code
    units and at most three lines, whatever the description. *)
Theorem summarizePRBody_bounds (body : option jsstring) :
  summarizePRBody body ≠ []
  ∧ (length (summarizePRBody body) <= 200)%nat
  ∧ (length (split_on 10 (summarizePRBody body)) <= 3)%nat.
Proof.
  unfold summarizePRBody, substring_to.
  destruct (negb (truthy_opt body) || _).
  { split_and!; [done | vm_compute; lia | vm_compute; lia]. }
  set (lines := List.filter _ (split_on 10 (default [] body))).
  assert (Forall (fun l => 10 ∉ l) (take 3 lines)) as Hlines.
  { apply Forall_take, filter_pieces, split_on_pieces. }
  pose proof (join_seps 10 (take 3 lines) Hlines) as Hseps.
  assert (length (take 3 lines) <= 3)%nat as Hthree.
  { rewrite length_take. lia. }
  set (summary := join [10] (take 3 lines)) in *.
  destruct (200 <? length summary)%nat eqn:Hlong.
  - apply Nat.ltb_lt in Hlong. split_and!.
    + intros [_ [=]]%app_eq_nil.
    + rewrite length_app, length_take.
      change (length (lit "...")) with 3%nat. lia.
    + rewrite split_on_length, List.filter_app, length_app.
      pose proof (filter_take_length (fun c => c =? 10) 197 summary).
      change (length (List.filter _ (lit "..."))) with 0%nat. lia.
  - apply Nat.ltb_ge in Hlong. destruct (truthy summary) eqn:Htruthy.
    + split_and!; [by intros E; rewrite E in Htruthy | done |].
      rewrite split_on_length. lia.
    + split_and!; [done | vm_compute; lia | vm_compute; lia].
Qed.

End ExcerptFacts.

(** ** The payload of a comment notification *)

Section ComposerFacts.
Implicit Types (m : comment_message) (b : jsstring).

Lemma join_cons_prefix (p : jsstring) (ls : list jsstring) :
  ls ≠ [] → p ++ join (10 :: p) ls = join [10] (map (app p) ls).
Proof.
  intros Hne. induction ls as [|x ls IH]; [done|].
  destruct ls as [|y ls]; [done|].
  change (join (10 :: p) (x :: y :: ls))
    with (x ++ (10 :: p) ++ join (10 :: p) (y :: ls)).
  change (join [10] (map (app p) (x :: y :: ls)))
    with ((p ++ x) ++ [10] ++ join [10] (map (app p) (y :: ls))).
  rewrite <- IH by done. by rewrite <- !app_assoc.
Qed.

(** X2: the body of a comment is shown cut to 500 code units, the first
    497 kept as they are, and the quotation has the lines of that text, in
    order, each behind a quotation mark. *)
Theorem quote_body_lines (b : jsstring) :
  length (truncate_body b) = Nat.min (length b) 500
  ∧ take 497 (truncate_body b) = take 497 b
  ∧ split_on 10 (quote_body (truncate_body b))
    = map (app (lit "> ")) (split_on 10 (truncate_body b)).
Proof.
  split_and!.
  - unfold truncate_body, substring_to.
    destruct (500 <? length b)%nat eqn:Hlong.
    + apply Nat.ltb_lt in Hlong. rewrite length_app, length_take.
      change (length (lit "...")) with 3%nat. lia.
    + apply Nat.ltb_ge in Hlong. lia.
  - unfold truncate_body, substring_to.
    destruct (500 <? length b)%nat eqn:Hlong; [|done].
    apply Nat.ltb_lt in Hlong.
    rewrite take_app_le by (rewrite length_take; lia).
    by rewrite take_take, Nat.min_id.
  - unfold quote_body.
    rewrite join_cons_prefix by apply split_on_nonempty.
    apply split_on_join.
    + intros E%map_eq_nil. by apply split_on_nonempty in E.
    + apply Forall_forall. intros l (x & <- & Hx)%list_elem_of_In%in_map_iff.
      pose proof (split_on_pieces 10 (truncate_body b)) as Hp.
      rewrite Forall_forall in Hp. apply list_elem_of_In, Hp in Hx.
      intros [Hin|Hin]%elem_of_app; [|done].
      change (lit "> ") with [62; 32] in Hin.
      by repeat (apply elem_of_cons in Hin as [?|Hin]; [done|]);
        apply elem_of_nil in Hin.
Qed.

Lemma mentions_truthy (ids : list jsstring) :
  truthy (join (lit " ") (map mention_of ids)) = true ↔ ids ≠ [].
Proof.
  destruct ids as [|id ids]; [done|]. split; [done|]. intros _.
  cbn [map join]. by destruct (map mention_of ids).
Qed.

(** X3: the payload of a comment notification opens with a section and
    closes with the button to the comment, which is of the danger style
    exactly for a request for changes; it has a line of mentions exactly
    when there is an identity to mention, and two to four blocks in
    all. *)
Theorem createCommentMessage_payload_blocks (m : comment_message) :
  let blocks := p_blocks (createCommentMessage_payload m) in
  (∃ heading, blocks !! 0%nat = Some (section_block heading))
  ∧ (∃ label, last blocks
       = Some (actions_block label m.(cm_commentData).(c_url)
                 (if decide (m.(cm_commentData).(reviewState)
                             = Some (lit "changes_requested"))
                  then lit "danger" else lit "primary")))
  ∧ ((∃ text, context_block text ∈ blocks) ↔ m.(cm_mentionedSlackIds) ≠ [])
  ∧ (2 <= length blocks <= 4)%nat.
Proof.
  unfold createCommentMessage_payload.
  destruct (comment_heading (cm_commentData m)) as [emoji title].
  assert ((if opt_is (reviewState (cm_commentData m)) (lit "changes_requested")
           then lit "danger" else lit "primary")
          = (if decide (reviewState (cm_commentData m)
                        = Some (lit "changes_requested"))
             then lit "danger" else lit "primary")) as ->.
  { unfold opt_is. case_bool_decide as E.
    - by rewrite decide_True.
    - by rewrite decide_False. }
  pose proof (mentions_truthy (cm_mentionedSlackIds m)) as Hm.
  destruct (truthy (join _ _)) eqn:Hmentions;
    destruct (truthy_opt (c_body (cm_commentData m)) && _);
    cbn [p_blocks app length lookup list_lookup last];
    (split_and!; [by eexists | by eexists | | lia..]).
  - split; [intros _; by apply Hm | intros _; eexists; rewrite !elem_of_cons; eauto].
  - split; [intros _; by apply Hm | intros _; eexists; rewrite !elem_of_cons; eauto].
  - split; [|intros H; apply Hm in H; done].
    intros (t & Ht). rewrite !elem_of_cons, elem_of_nil in Ht.
    by destruct Ht as [|[|[|]]].
  - split; [|intros H; apply Hm in H; done].
    intros (t & Ht). rewrite !elem_of_cons, elem_of_nil in Ht.
    by destruct Ht as [|[|]].
Qed.

End ComposerFacts.

(** ** The thread marker, read *)

Section MarkerFacts.
Implicit Types (s v p : jsstring).

Lemma lazy_until_Some p s v :
  lazy_until p s = Some v →
  ∃ post, s = v ++ p ++ post ∧ v ≠ []
          ∧ Forall (fun c => is_line_terminator c = false) v.
Proof.
  revert v. induction s as [|c s IH]; intros v; cbn [lazy_until]; [done|].
  destruct (is_line_terminator c) eqn:Hc; [done|].
  destruct (startsWith s p) eqn:Hstart.
  - intros [= <-]. apply startsWith_prefix in Hstart as [post ->].
    exists post. split_and!; [done..|]. by repeat constructor.
  - destruct (lazy_until p s) as [v'|]; [|done]. intros [= <-].
    destruct (IH v' eq_refl) as (post & -> & _ & Hv').
    exists post. split_and!; [done..|]. by constructor.
Qed.

Lemma match_marker_Some p s v :
  match_marker p s = Some v →
  ∃ pre post, s = pre ++ p ++ v ++ lit " -->" ++ post ∧ v ≠ []
              ∧ Forall (fun c => is_line_terminator c = false) v.
Proof.
  induction s as [|c s IH]; rewrite match_marker_unfold.
  - destruct (startsWith [] p) eqn:Hstart; [|done].
    apply startsWith_prefix in Hstart as [k Hk]. symmetry in Hk.
    apply app_eq_nil in Hk as [-> ->]. done.
  - destruct (startsWith (c :: s) p) eqn:Hstart.
    + apply startsWith_prefix in Hstart as [k Hk]. rewrite Hk at 1.
      rewrite drop_app_length.
      destruct (lazy_until (lit " -->") k) as [v'|] eqn:Hlazy.
      * intros [= <-]. apply lazy_until_Some in Hlazy as (post & -> & Hv).
        exists [], post. split; [by rewrite Hk|done].
      * intros H. destruct (IH H) as (pre & post & -> & Hv).
        by exists (c :: pre), post.
    + intros H. destruct (IH H) as (pre & post & -> & Hv).
      by exists (c :: pre), post.
Qed.

(** X4: the thread timestamp read from a body stands in the body, between
    the opening of the marker comment and its closing; it is not empty and
    has no line terminator in it. *)
Theorem thread_ts_of_body_in_body (body ts : jsstring) :
  thread_ts_of_body body = Some ts →
  ∃ pre post,
    body = pre ++ lit "<!-- slack-thread-ts: " ++ ts ++ lit " -->" ++ post
    ∧ ts ≠ []
    ∧ Forall (fun c => is_line_terminator c = false) ts.
Proof.
  rewrite thread_ts_of_body_marker. apply match_marker_Some.
Qed.

Lemma thread_ts_of_body_in_body_witness :
  ∃ pre post,
    lit "Fix <!-- slack-thread-ts: 123.45 --> things"
    = pre ++ lit "<!-- slack-thread-ts: " ++ lit "123.45" ++ lit " -->" ++ post
    ∧ lit "123.45" ≠ []
    ∧ Forall (fun c => is_line_terminator c = false) (lit "123.45").
Proof.
  apply (thread_ts_of_body_in_body
           (lit "Fix <!-- slack-thread-ts: 123.45 --> things") (lit "123.45")).
  reflexivity.
Defined.

(** the thread marker is read from a body to which the markers are
    appended, whatever the status written. *)
Lemma thread_ts_after_write (body ts status : jsstring) :
  thread_ts_of_body body = None →
  marker_value ts →
  thread_ts_of_body (body ++ pointer_markers ts status) = Some ts.
Proof.
  intros Hts Hv. rewrite thread_ts_of_body_marker in Hts |- *.
  assert (10 ∉ thread_ts_prefix) as Hp.
  { apply (bool_decide_unpack _). by vm_compute. }
  assert (thread_ts_prefix ≠ []) as Hn by done.
  rewrite pointer_markers_shape.
  rewrite match_marker_app_newline, Hts by done.
  rewrite match_marker_app_newline by done.
  rewrite match_marker_app_newline by done.
  by rewrite match_marker_here_end.
Qed.

End MarkerFacts.

(** ** The mention extractor, complete *)

Section MentionsComplete.
Implicit Types (s pre rest h : jsstring).

Lemma handle_prefix_before_at h pre s tail :
  Forall (fun c => is_handle_char c = true) h →
  h ++ tail = pre ++ 64 :: s → (length h <= length pre)%nat.
Proof.
  revert pre. induction h as [|c h IH]; intros pre Hh Heq; cbn; [lia|].
  apply Forall_cons in Hh as [Hc Hh].
  destruct pre as [|d pre]; cbn in *.
  - injection Heq as -> _. done.
  - injection Heq as _ Heq. apply IH in Heq; [lia|done].
Qed.

(** the scan of a text reaches every [@]: the matches before it are
    followed by the matches from it on. *)
Lemma matchAll_mentions_app_at pre s :
  ∃ ms, matchAll_mentions (pre ++ 64 :: s) = ms ++ matchAll_mentions (64 :: s).
Proof.
  remember (length pre) as n eqn:Hn. revert pre Hn.
  induction (lt_wf n) as [n _ IH]. intros pre ->.
  destruct pre as [|c pre]; [by exists []|].
  cbn [app]. rewrite matchAll_mentions_cons.
  destruct (if c =? 64 then match_handle (pre ++ 64 :: s) else None)
    as [h|] eqn:Hm.
  - destruct (c =? 64); [|done].
    apply match_handle_Some in Hm as (tail & Heq & (_ & _ & Hh) & _).
    pose proof (handle_prefix_before_at h pre s tail Hh (eq_sym Heq)) as Hlen.
    rewrite drop_app_le by done.
    destruct (IH (length (drop (length h) pre))) with (pre := drop (length h) pre)
      as (ms & ->); [rewrite length_drop; cbn; lia | done |].
    by exists (h :: ms).
  - destruct (IH (length pre)) with (pre := pre) as (ms & ->);
      [cbn; lia | done |].
    by exists ms.
Qed.

(** X5: every [@] of a text that is followed by an alphanumeric gives a
    mention, the handle read right after it; and a text has no mention
    exactly when it has no [@] followed by an alphanumeric. *)
Theorem extractMentions_complete (text : option jsstring) :
  (∀ pre c rest,
     default [] text = pre ++ 64 :: c :: rest → is_alnum c = true →
     ∃ h, match_handle (c :: rest) = Some h ∧ h ∈ extractMentions text)
  ∧ (extractMentions text = []
     ↔ ¬ ∃ pre c rest, default [] text = pre ++ 64 :: c :: rest
                       ∧ is_alnum c = true).
Proof.
  assert (extractMentions text
          = JSSet.of_array (matchAll_mentions (default [] text))) as Hex.
  { unfold extractMentions. destruct text as [[|c t]|]; simpl; try done. }
  assert (∀ pre c rest,
     default [] text = pre ++ 64 :: c :: rest → is_alnum c = true →
     ∃ h, match_handle (c :: rest) = Some h ∧ h ∈ extractMentions text)
    as Hcomplete.
  { intros pre c rest Htext Hc. rewrite Hex, Htext.
    destruct (matchAll_mentions_app_at pre (c :: rest)) as (ms & ->).
    rewrite matchAll_mentions_cons. cbn [N.eqb Pos.eqb].
    destruct (match_handle (c :: rest)) as [h|] eqn:Hh.
    - exists h. split; [done|].
      rewrite elem_of_of_array, elem_of_app, elem_of_cons. auto.
    - cbn in Hh. by rewrite Hc in Hh. }
  split; [done|]. split.
  - intros Hnil (pre & c & rest & Htext & Hc).
    destruct (Hcomplete pre c rest Htext Hc) as (h & _ & Hin).
    rewrite Hnil in Hin. by apply elem_of_nil in Hin.
  - intros Hnone. apply elem_of_nil_inv. intros h Hh.
    rewrite Hex, elem_of_of_array in Hh.
    destruct (matchAll_mentions_weave (default [] text))
      as (g0 & gaps & Hlen & Hweave & _ & Hshapes).
    destruct (matchAll_mentions (default [] text)) as [|h0 ms]; [by apply elem_of_nil in Hh|].
    destruct gaps as [|g gaps]; [done|].
    apply Forall_cons in Hshapes as [((a & Ha & Hac) & _) _].
    destruct h0 as [|a' h0]; [done|]. injection Ha as ->.
    apply Hnone. exists g0, a, (h0 ++ g ++ weave ms gaps).
    split; [|done]. rewrite Hweave. cbn. done.
Qed.

End MentionsComplete.

(** ** The ownership file, composed *)

Section CodeownersComposed.
Context (env : Env).
Implicit Types (rules : list rule) (file o : jsstring) (w : world).

(** X6: the rules of two texts joined by a line feed are the rules of the
    second followed by the rules of the first, so that for every file a
    rule of the second text wins over every rule of the first. *)
Theorem parseCodeowners_app (a b file : jsstring) :
  parseCodeowners (a ++ 10 :: b) = parseCodeowners b ++ parseCodeowners a
  ∧ first_match file (parseCodeowners (a ++ 10 :: b))
    = match first_match file (parseCodeowners b) with
      | Some r => Some r
      | None => first_match file (parseCodeowners a)
      end.
Proof.
  assert (parseCodeowners (a ++ 10 :: b)
          = parseCodeowners b ++ parseCodeowners a) as Happ.
  { unfold parseCodeowners. rewrite !rules_in_file_order_lines.
    by rewrite split_on_app_sep, omap_app, rev_app_distr. }
  split; [done|]. by rewrite Happ, first_match_app.
Qed.

Lemma add_all_absorb (set xs : list jsstring) :
  (∀ x, x ∈ xs → x ∈ set) → JSSet.add_all set xs = set.
Proof.
  unfold JSSet.add_all. induction xs as [|x xs IH]; intros Hxs; [done|].
  cbn [foldl]. unfold JSSet.add at 2.
  rewrite decide_True by (apply Hxs; left).
  apply IH. intros y Hy. apply Hxs. by right.
Qed.

Lemma owners_of_files_catch_all r rules (files : list jsstring) :
  pattern r = lit "*" → files ≠ [] →
  owners_of_files (r :: rules) files = JSSet.of_array (owners r).
Proof.
  intros Hp Hfiles. unfold owners_of_files.
  assert (∀ set file, add_file_owners (r :: rules) set file
                      = JSSet.add_all set (owners r)) as Hstep.
  { intros set file. unfold add_file_owners. cbn [first_match].
    by rewrite Hp. }
  destruct files as [|f files]; [done|]. cbn [foldl]. rewrite Hstep.
  fold (JSSet.of_array (owners r)). clear Hfiles.
  induction files as [|g files IH]; [done|]. cbn [foldl].
  rewrite Hstep, add_all_absorb; [done|].
  intros x Hx. by apply elem_of_of_array.
Qed.

(** X7: when the last rule of the ownership file is the catch-all [*],
    no other rule of the file has any effect: for a pull request that
    changes a file at all, the owners are the owners of that rule, once
    each. *)
Theorem getCodeOwners_catch_all_last (prNumber : N) (w : world)
    (c : jsstring) (rs : list rule) (r : rule) :
  found_codeowners env = Some c →
  rules_in_file_order c = rs ++ [r] →
  pattern r = lit "*" →
  default [] (env.(pulls_listFiles) prNumber) ≠ [] →
  (getCodeOwners env prNumber w).1 = Ret (JSSet.of_array (owners r)).
Proof.
  intros Hfound Hrules Hp Hfiles.
  destruct (getCodeOwners_logged env prNumber w) as (es & -> & _).
  cbn [fst]. f_equal. unfold code_owners. rewrite Hfound.
  destruct (default [] (pulls_listFiles env prNumber)) as [|f files] eqn:Hf;
    [done|].
  destruct (truthy c) eqn:Hc.
  - unfold parseCodeowners. rewrite Hrules, rev_app_distr. cbn [rev app].
    by apply owners_of_files_catch_all.
  - apply truthy_false in Hc. subst c. by destruct rs.
Qed.

Lemma first_match_elem_of file rules r :
  first_match file rules = Some r → r ∈ rules.
Proof.
  induction rules as [|r' rules IH]; cbn [first_match]; [done|].
  destruct (matchPattern file (pattern r')).
  - intros [= ->]. by left.
  - intros H. right. by apply IH.
Qed.

(** X8: the resolver invents no owner: every owner it returns is written
    in the ownership file that was found, as a token [@owner] that is not
    the first token of a line which is not a comment. *)
Theorem getCodeOwners_owners_written (prNumber : N) (w : world) :
  ∃ result,
    (getCodeOwners env prNumber w).1 = Ret result
    ∧ ∀ o, o ∈ result →
        ∃ c line, found_codeowners env = Some c
          ∧ line ∈ split_on 10 c
          ∧ ¬ lit "#" `prefix_of` trim line
          ∧ (64 :: o) ∈ drop 1 (split_ws (trim line)).
Proof.
  destruct (getCodeOwners_logged env prNumber w) as (es & -> & _).
  eexists. split; [done|]. intros o. unfold code_owners.
  destruct (default [] (pulls_listFiles env prNumber)) as [|f files];
    [by intros ?%elem_of_nil|].
  destruct (found_codeowners env) as [c|]; [|by intros ?%elem_of_nil].
  destruct (truthy c); [|by intros ?%elem_of_nil].
  unfold owners_of_files. rewrite elem_of_owners_fold.
  intros [?%elem_of_nil|(file & r & _ & Hr & Ho)]; [done|].
  apply first_match_elem_of in Hr. unfold parseCodeowners in Hr.
  rewrite list_elem_of_In, <- in_rev, <- list_elem_of_In in Hr.
  rewrite rules_in_file_order_lines, list_elem_of_omap in Hr.
  destruct Hr as (line & Hline & Hrule). exists c, line.
  split_and!; [done..| |].
  - unfold rule_of_line in Hrule. case_decide as Hd; [done|]. tauto.
  - unfold rule_of_line in Hrule. case_decide as Hd; [done|].
    injection Hrule as <-. cbn [owners] in Ho.
    by apply elem_of_at_owners in Ho.
Qed.

End CodeownersComposed.

Lemma getCodeOwners_catch_all_last_witness :
  (getCodeOwners Cases.env_catch_all_last 7
     (Scenario.world_of (lit "Fix things") [])).1
  = Ret (JSSet.of_array [Scenario.bob]).
Proof.
  apply (getCodeOwners_catch_all_last Cases.env_catch_all_last 7
           (Scenario.world_of (lit "Fix things") [])
           Cases.codeowners_catch_all_last
           [{| pattern := lit "*.js"; owners := [Scenario.carol] |}]
           {| pattern := lit "*"; owners := [Scenario.bob] |}).
  - reflexivity.
  - vm_compute. reflexivity.
  - reflexivity.
  - vm_compute. discriminate.
Defined.

(** ** The identity mapper, bounded *)

Section MapperBounds.
Context (env : Env).
Implicit Types (w : world) (cfg : config).

Lemma if_truthy_nonempty (x : option jsstring) (id : jsstring) :
  if_truthy x = Some id → id ≠ [].
Proof.
  unfold if_truthy. destruct x as [[|c s]|]; cbn; [done| |done].
  by intros [= <-].
Qed.

Lemma omap_bounds {A} (f : A → option jsstring) (l : list A) :
  (∀ a id, f a = Some id → id ≠ []) →
  (length (omap f l) <= length l)%nat ∧ Forall (fun id => id ≠ []) (omap f l).
Proof.
  intros Hf. induction l as [|a l [IHlen IHne]]; cbn; [by split; [lia|]|].
  destruct (f a) as [id|] eqn:Ha; cbn.
  - split; [lia|]. constructor; [by eapply Hf | done].
  - split; [lia | done].
Qed.

Lemma resolve_calls_length cfg handle :
  (length (resolve_calls env cfg handle) <= 3)%nat.
Proof.
  unfold resolve_calls. rewrite length_app.
  destruct (table_calls_cases cfg handle) as [->|[[email ->]|[name ->]]];
    destruct (table_step env cfg handle);
    destruct (auto_match_by_email cfg); destruct (public_email env handle);
    cbn; lia.
Qed.

(** X9: the batch resolution never fails and writes nothing; it gives at
    most one identity per handle and never an empty one; it makes at most
    three calls per handle; and with automatic matching disabled it makes
    no call at all for handles for which the mapping object reads nothing,
    that is, handles that have no mapping and do not name a member of
    [Object.prototype]. *)
Theorem mapGitHubUsersToSlack_bounds (handles : list jsstring) cfg w :
  ∃ ids es,
    mapGitHubUsersToSlack env handles cfg w = (Ret ids, logged w es)
    ∧ (length ids <= length handles)%nat
    ∧ Forall (fun id => id ≠ []) ids
    ∧ (length es <= 3 * length handles)%nat
    ∧ (cfg.(auto_match_by_email) = false →
       (∀ h, h ∈ handles →
             cfg.(email_mappings) !! h = None
             ∧ h ∉ object_prototype_members) →
       ids = [] ∧ es = []).
Proof.
  rewrite mapGitHubUsersToSlack_run. eexists _, _. split; [done|].
  destruct (omap_bounds (resolve env cfg) handles) as [Hlen Hne].
  { intros h id Hh. rewrite <- resolve_truthy in Hh.
    by apply if_truthy_nonempty in Hh. }
  split_and!; [done..| |].
  - clear. induction handles as [|h handles IH]; cbn [map concat length]; [lia|].
    rewrite length_app. pose proof (resolve_calls_length cfg h). lia.
  - intros Hauto Hnone.
    assert (∀ h, h ∈ handles →
              resolve env cfg h = None ∧ resolve_calls env cfg h = [])
      as Hh.
    { intros h Hin. destruct (Hnone h Hin) as [Hown Hmember].
      unfold resolve, resolve_calls, table_step, table_calls, get_property.
      by rewrite Hown, bool_decide_false, Hauto. }
    clear Hlen Hne Hnone. induction handles as [|h handles IH]; [done|].
    cbn [omap list_omap map concat].
    destruct (Hh h) as [-> ->]; [by left|]. cbn [app].
    apply IH. intros h' Hin. apply Hh. by right.
Qed.

End MapperBounds.

Section DefaultReviewers.
Context (env : Env).

(** X10: the default reviewers are looked up one by one, in the order of
    the configuration, a lookup that throws or misses stopping nothing;
    the identities come in that order, none of them empty, the misses
    left out; nothing is written. *)
Theorem getDefaultReviewersSlackIds_lookups (emails : list jsstring)
    (w : world) :
  ∃ ids,
    getDefaultReviewersSlackIds env emails w
    = (Ret ids, logged w (map EvLookupByEmail emails))
    ∧ ids = omap (fun email => if_truthy (lookup_id env email)) emails
    ∧ (length ids <= length emails)%nat
    ∧ Forall (fun id => id ≠ []) ids.
Proof.
  eexists. unfold getDefaultReviewersSlackIds.
  rewrite getDefaultReviewersSlackIds_loop_run. cbn [app].
  split_and!; [done..| |]; apply omap_bounds;
    intros email id; apply if_truthy_nonempty.
Qed.

End DefaultReviewers.

(** ** The handlers, step by step *)

Section HandlerFacts.
Context (env : Env).
Implicit Types (w : world) (cfg : config) (c : commentData) (d : prData).

Lemma sendSlackMessage_run channel m w :
  sendSlackMessage env channel m w
  = (match env.(chat_postMessage) channel None with
     | Some result => if result.(r_ok) then Ret result else Throw
     | None => Throw
     end, logged w [EvPostMessage channel m]).
Proof.
  unfold sendSlackMessage, try_catch, call, bind, emit, ret, throw.
  destruct (chat_postMessage env channel None) as [[[] ?]|]; done.
Qed.

Lemma sendThreadReply_run channel ts m w :
  sendThreadReply env channel ts m w
  = (match env.(chat_postMessage) channel (Some ts) with
     | Some result => if result.(r_ok) then Ret result else Throw
     | None => Throw
     end, logged w [EvThreadReply channel ts m]).
Proof.
  unfold sendThreadReply, try_catch, call, bind, emit, ret, throw.
  destruct (chat_postMessage env channel (Some ts)) as [[[] ?]|]; done.
Qed.

(** the handler of the PR-opened event, run: the calls that gather the
    reviewers, the head message, and the write of the pointer if the
    message went out. *)
Lemma handlePROpened_run (context : pr_context) cfg (channel : jsstring)
    w d :
  parsePRData context w = (Ret d, w) →
  ∃ es m,
    handlePROpened env context cfg channel w
    = match env.(chat_postMessage) channel None with
      | Some result =>
          if result.(r_ok)
          then pulls_update d.(number)
                 (d.(body) ++ pointer_markers result.(r_ts) REVIEW_PENDING)
                 (logged w (es ++ [EvPostMessage channel m]))
          else (Throw, logged w (es ++ [EvPostMessage channel m]))
      | None => (Throw, logged w (es ++ [EvPostMessage channel m]))
      end.
Proof.
  intros Hparse. unfold handlePROpened. unfold bind at 1. rewrite Hparse.
  unfold bind at 1. rewrite mapGitHubUserToSlack_run. cbv beta iota zeta.
  unfold bind at 1.
  destruct (getCodeOwners_logged env (number d)
              (logged w (resolve_calls env cfg (author d))))
    as (es1 & -> & _).
  cbv beta iota. unfold bind at 1.
  match goal with
  | |- context [reviewers_to_notify env ?all ?sources cfg ?w1] =>
      destruct (reviewers_to_notify_run env all sources cfg w1)
        as ([ids source] & es2 & -> & _)
  end.
  cbv beta iota. unfold bind at 1, emit at 1. cbv beta iota.
  unfold bind at 1. rewrite sendSlackMessage_run, !logged_logged, !app_assoc.
  eexists _, _.
  destruct (chat_postMessage env channel None) as [[[] ts]|];
    cbv beta iota; cbn [r_ok r_ts].
  - unfold pulls_update, bind, emit, ret. cbn [prs logged].
    destruct (prs w !! number d); reflexivity.
  - reflexivity.
  - reflexivity.
Qed.

(** X11: the PR-opened handler succeeds exactly when the message service
    accepts the head message and the pull request is known; when it fails
    no pull request is changed; when it succeeds the body of this pull
    request, and of no other, becomes the body of the event followed by
    the markers that carry the timestamp of the message. *)
Theorem handlePROpened_pointer (context : pr_context) cfg
    (channel : jsstring) w d :
  parsePRData context w = (Ret d, w) →
  let r := handlePROpened env context cfg channel w in
  (r.1 = Ret tt ↔
     (∃ result, env.(chat_postMessage) channel None = Some result
                ∧ result.(r_ok) = true)
     ∧ is_Some (prs w !! d.(number)))
  ∧ (r.1 ≠ Ret tt → prs r.2 = prs w)
  ∧ (r.1 = Ret tt →
     ∃ result, env.(chat_postMessage) channel None = Some result
       ∧ pr_body <$> (prs r.2 !! d.(number))
         = Some (Some (d.(body)
                       ++ pointer_markers result.(r_ts) REVIEW_PENDING))
       ∧ ∀ k, k ≠ d.(number) → prs r.2 !! k = prs w !! k).
Proof.
  intros Hparse. destruct (handlePROpened_run context cfg channel w d Hparse)
    as (es & m & Hrun).
  cbv zeta. rewrite Hrun. clear Hrun.
  destruct (chat_postMessage env channel None) as [[[] ts]|]; cbn [r_ok r_ts].
  - unfold pulls_update, bind, emit. cbn [prs logged fst snd].
    destruct (prs w !! number d) as [pr|] eqn:Hpr; cbn [fst snd prs].
    + split_and!.
      * split; [|done]. intros _. split; [by eexists | by eexists].
      * done.
      * intros _. eexists. split; [done|].
        rewrite lookup_insert_eq. split; [done|].
        intros k Hk. by rewrite lookup_insert_ne.
    + split_and!; [|done..]. split; [done|]. by intros [_ [? [=]]].
  - split_and!; [|done..]. split; [done|]. by intros [(? & [= <-] & [=]) _].
  - split_and!; [|done..]. split; [done|]. by intros [(? & [=] & _) _].
Qed.

Lemma getSlackThreadTs_run n w :
  getSlackThreadTs n w
  = (Ret (match prs w !! n with
          | Some pr => thread_ts_of_body (default [] pr.(pr_body))
          | None => None
          end), logged w [EvPullsGet n]).
Proof.
  unfold getSlackThreadTs, try_catch. unfold bind at 1.
  rewrite pulls_get_run. by destruct (prs w !! n).
Qed.

(** X12: once the PR-opened handler has succeeded on an event whose body
    carries no thread marker yet, the thread is found again: the reader of
    the pointer gives the timestamp under which the head message went
    out. *)
Theorem getSlackThreadTs_after_opened (context : pr_context) cfg
    (channel : jsstring) w d (result : chat_response) :
  parsePRData context w = (Ret d, w) →
  thread_ts_of_body d.(body) = None →
  env.(chat_postMessage) channel None = Some result →
  marker_value result.(r_ts) →
  (handlePROpened env context cfg channel w).1 = Ret tt →
  (getSlackThreadTs d.(number)
     (handlePROpened env context cfg channel w).2).1
  = Ret (Some result.(r_ts)).
Proof.
  intros Hparse Hnone Hpost Hts.
  destruct (handlePROpened_run context cfg channel w d Hparse)
    as (es & m & ->).
  rewrite Hpost. rewrite getSlackThreadTs_run. cbn [fst].
  destruct (r_ok result); [|done].
  unfold pulls_update, bind, emit. cbn [prs logged fst snd].
  destruct (prs w !! number d) as [pr|]; cbn [fst snd prs]; [|done].
  intros _. rewrite lookup_insert_eq. cbn [pr_body default id].
  by rewrite thread_ts_after_write.
Qed.

(** X13: a comment-like event on a pull request that has no thread (the
    pull request is unknown, or its body carries no thread marker) is
    dropped after the one read of the pull request: the handler returns
    normally, sends nothing and writes nothing. *)
Theorem handleComment_without_thread (context : comment_context) cfg
    (channel : jsstring) w c :
  parseCommentData context w = (Ret c, w) →
  c.(c_author) ≠ lit "github-actions[bot]" →
  (∀ pr, prs w !! c.(prNumber) = Some pr →
         thread_ts_of_body (default [] pr.(pr_body)) = None) →
  handleComment env context cfg channel w
  = (Ret tt, logged w [EvPullsGet c.(prNumber)]).
Proof.
  intros Hparse Hbot Hnone. unfold handleComment. unfold bind at 1.
  rewrite Hparse. unfold str_eqb. rewrite bool_decide_false by done.
  unfold bind at 1. rewrite getSlackThreadTs_run.
  destruct (prs w !! prNumber c) as [pr|]; [|done].
  by rewrite (Hnone pr eq_refl).
Qed.

(** the tail of the comment handler, run. *)
Lemma notify_thread_run c cfg (channel ts : jsstring) w :
  ∃ o calls replies,
    notify_thread env c cfg channel ts w = (o, logged w (calls ++ replies))
    ∧ Forall (fun e => ¬ is_reply e) calls
    ∧ (replies = []
       ∨ ∃ m, replies = [EvThreadReply channel ts m]
           ∧ m.(cm_commentData) = c
           ∧ m.(cm_mentionedSlackIds) ≠ []
           ∧ (o = Ret tt ↔
                ∃ result, env.(chat_postMessage) channel (Some ts)
                          = Some result ∧ result.(r_ok) = true)).
Proof.
  unfold notify_thread.
  assert (∀ (va : list jsstring) w1,
    ∃ o calls replies,
      (let targetUsers := targetUsers_of va (c_body c) in
       if (length targetUsers =? 0)%nat then ret tt
       else
         let targetUsers := JSSet.of_array targetUsers in
         let* targetSlackIds :=
           mapGitHubUsersToSlack env targetUsers cfg in
         if (length targetSlackIds =? 0)%nat then ret tt
         else
           let* authorSlackId :=
             mapGitHubUserToSlack env (c_author c) cfg in
           let message :=
             createCommentMessage c targetSlackIds authorSlackId in
           let* _ := sendThreadReply env channel ts message in
           ret tt) w1 = (o, logged w1 (calls ++ replies))
      ∧ Forall (fun e => ¬ is_reply e) calls
      ∧ (replies = []
         ∨ ∃ m, replies = [EvThreadReply channel ts m]
             ∧ m.(cm_commentData) = c
             ∧ m.(cm_mentionedSlackIds) ≠ []
             ∧ (o = Ret tt ↔
                  ∃ result, env.(chat_postMessage) channel (Some ts)
                            = Some result ∧ result.(r_ok) = true)))
    as Htail.
  { intros va w1. cbv zeta.
    destruct (length (targetUsers_of va (c_body c)) =? 0)%nat.
    { exists (Ret tt), [], []. rewrite logged_nil.
      split_and!; [done|constructor|by left]. }
    unfold bind at 1. rewrite mapGitHubUsersToSlack_run.
    pose proof (batch_calls_no_reply env cfg
      (JSSet.of_array (targetUsers_of va (c_body c)))) as Hbatch.
    pose proof (resolve_calls_no_reply env cfg (c_author c)) as Hauthor.
    destruct (length (omap _ _) =? 0)%nat eqn:Hids.
    { eexists _, _, []. rewrite app_nil_r. split_and!; [done..|by left]. }
    unfold bind at 1. rewrite mapGitHubUserToSlack_run.
    unfold bind at 1. rewrite sendThreadReply_run, !logged_logged, app_assoc.
    destruct (chat_postMessage env channel (Some ts)) as [[[] ts']|] eqn:Hpost;
      cbn [r_ok]; unfold ret;
      (eexists _, (_ ++ _), [_]; split_and!;
       [reflexivity | by apply Forall_app |]);
      right; (eexists; split_and!; [reflexivity|done| |]).
    all: try (cbn [cm_mentionedSlackIds createCommentMessage];
              intros E; by rewrite E in Hids).
    - split; [by eexists | done].
    - split; [done | by intros (? & [= <-] & [=])].
    - split; [done | by intros (? & [=] & _)]. }
  unfold bind at 1.
  destruct (is_verdict (reviewState c)).
  - unfold bind at 1. rewrite pulls_get_run.
    destruct (prs w !! prNumber c) as [pr|].
    + destruct (Htail [pr_user_login pr] (logged w [EvPullsGet (prNumber c)]))
        as (o & calls & replies & Hrun & Hcalls & Hreplies).
      exists o, (EvPullsGet (prNumber c) :: calls), replies.
      cbv zeta in Hrun. unfold ret at 1.
      split_and!.
      * rewrite Hrun, logged_logged. done.
      * constructor; [by intros [] | done].
      * exact Hreplies.
    + exists Throw, [EvPullsGet (prNumber c)], []. rewrite app_nil_r.
      split_and!; [done| |by left]. constructor; [by intros []|constructor].
  - apply (Htail [] w).
Qed.

(** X14: the tail of the comment handler writes nothing and sends at most
    one thread reply, as its last call; the reply goes to the thread it
    was given, carries the event and at least one identity to mention;
    and once a reply is sent the outcome is that of the message service:
    a reply that is refused, or whose call throws, makes the handler
    fail. *)
Theorem notify_thread_one_reply c cfg (channel ts : jsstring) w :
  let r := notify_thread env c cfg channel ts w in
  ∃ calls replies,
    r.2 = logged w (calls ++ replies)
    ∧ Forall (fun e => ¬ is_reply e) calls
    ∧ (replies = []
       ∨ ∃ m, replies = [EvThreadReply channel ts m]
           ∧ m.(cm_commentData) = c
           ∧ m.(cm_mentionedSlackIds) ≠ []
           ∧ (r.1 = Ret tt ↔
                ∃ result, env.(chat_postMessage) channel (Some ts)
                          = Some result ∧ result.(r_ok) = true)).
Proof.
  cbv zeta.
  destruct (notify_thread_run c cfg channel ts w)
    as (o & calls & replies & -> & Hcalls & Hreplies).
  by exists calls, replies.
Qed.

End HandlerFacts.

Lemma getSlackThreadTs_after_opened_witness :
  (getSlackThreadTs 7
     (handlePROpened Scenario.env (Scenario.opened []) Scenario.cfg
        Scenario.channel (Scenario.world_of (lit "Fix things") [])).2).1
  = Ret (Some (lit "123.45")).
Proof.
  apply (getSlackThreadTs_after_opened Scenario.env (Scenario.opened [])
           Scenario.cfg Scenario.channel
           (Scenario.world_of (lit "Fix things") [])
           {| number := 7; title := lit "Fix things";
              url := lit "https://example.org/pull/7";
              author := Scenario.alice; body := lit "Fix things";
              base := lit "main"; head := lit "fix"; isDraft := false;
              reviewers := [] |}
           {| r_ok := true; r_ts := lit "123.45" |}).
  - reflexivity.
  - reflexivity.
  - reflexivity.
  - split; [discriminate|]. vm_compute.
    repeat (constructor; [split_and!; [reflexivity|discriminate..]|]).
    constructor.
  - vm_compute. reflexivity.
Defined.

Lemma handleComment_without_thread_witness :
  handleComment Scenario.env Scenario.plain_comment Scenario.cfg
    Scenario.channel (Scenario.world_of (lit "Fix things") [])
  = (Ret tt, logged (Scenario.world_of (lit "Fix things") []) [EvPullsGet 7]).
Proof.
  apply (handleComment_without_thread Scenario.env Scenario.plain_comment
           Scenario.cfg Scenario.channel
           (Scenario.world_of (lit "Fix things") [])
           {| eventType := lit "issue_comment"; prNumber := 7;
              c_author := Scenario.bob;
              c_body := Some (lit "please look @carol and @alice, and @carol again");
              c_url := lit "https://example.org/c/2";
              reviewState := None |}).
  - reflexivity.
  - discriminate.
  - intros pr Hpr. vm_compute in Hpr. injection Hpr as <-. reflexivity.
Defined.

Lemma handlePROpened_pointer_witness :
  let r := handlePROpened Scenario.env (Scenario.opened []) Scenario.cfg
             Scenario.channel (Scenario.world_of (lit "Fix things") []) in
  (r.1 = Ret tt ↔
     (∃ result, Scenario.env.(chat_postMessage) Scenario.channel None
                = Some result ∧ result.(r_ok) = true)
     ∧ is_Some (prs (Scenario.world_of (lit "Fix things") []) !! 7))
  ∧ (r.1 ≠ Ret tt → prs r.2 = prs (Scenario.world_of (lit "Fix things") []))
  ∧ (r.1 = Ret tt →
     ∃ result, Scenario.env.(chat_postMessage) Scenario.channel None
               = Some result
       ∧ pr_body <$> (prs r.2 !! 7)
         = Some (Some (lit "Fix things"
                       ++ pointer_markers result.(r_ts) REVIEW_PENDING))
       ∧ ∀ k, k ≠ 7 →
              prs r.2 !! k
              = prs (Scenario.world_of (lit "Fix things") []) !! k).
Proof.
  apply (handlePROpened_pointer Scenario.env (Scenario.opened [])
           Scenario.cfg Scenario.channel
           (Scenario.world_of (lit "Fix things") [])
           {| number := 7; title := lit "Fix things";
              url := lit "https://example.org/pull/7";
              author := Scenario.alice; body := lit "Fix things";
              base := lit "main"; head := lit "fix"; isDraft := false;
              reviewers := [] |}).
  reflexivity.
Defined.

(** ** The configuration and the entry point *)

Section EntryFacts.
Context (env : Env).

(** X15: the loader always gives a configuration, with the mapping table
    of the action itself; automatic matching is off exactly when the file
    exists, is read and parsed, and says [false] for it; and a default
    reviewer is configured only by such a file. *)
Theorem loadConfig_defaults (fs : file_system)
    (userMappings : gmap jsstring jsstring) (configPath : jsstring) :
  let cfg := loadConfig fs userMappings configPath in
  cfg.(email_mappings) = userMappings
  ∧ (cfg.(auto_match_by_email) = false ↔
       fs.(existsSync) configPath = true
       ∧ ∃ text document,
           fs.(readFileSync) configPath = Some text
           ∧ fs.(yaml_load) text = Some (Some document)
           ∧ document.(y_auto_match_by_email) = Some (yaml_bool false))
  ∧ (cfg.(default_reviewers) ≠ [] →
       fs.(existsSync) configPath = true
       ∧ ∃ text document,
           fs.(readFileSync) configPath = Some text
           ∧ fs.(yaml_load) text = Some (Some document)
           ∧ document.(y_default_reviewers) = Some cfg.(default_reviewers)).
Proof.
  cbv zeta. unfold loadConfig.
  destruct (existsSync fs configPath); cbn [negb].
  2: { split_and!; [done| |done]. split; [done | by intros [[=] _]]. }
  destruct (readFileSync fs configPath) as [text|].
  2: { split_and!; [done| |done].
       split; [done | by intros [_ (? & ? & [=] & _)]]. }
  destruct (yaml_load fs text) as [[document|]|] eqn:Hload.
  - cbn [email_mappings auto_match_by_email default_reviewers].
    split_and!; [done| |].
    + split.
      * intros H. split; [done|]. exists text, document. split_and!; [done..|].
        by destruct (y_auto_match_by_email document) as [[[]|]|].
      * intros [_ (? & ? & [= <-] & Hdoc & Hfalse)].
        rewrite Hload in Hdoc. injection Hdoc as <-. by rewrite Hfalse.
    + intros H. split; [done|]. exists text, document. split_and!; [done..|].
      by destruct (y_default_reviewers document).
  - split_and!; [done| |done].
    split; [done | intros [_ (? & ? & [= <-] & Hdoc & _)]; congruence].
  - split_and!; [done| |done].
    split; [done | intros [_ (? & ? & [= <-] & Hdoc & _)]; congruence].
Qed.

(** the entry point, run: the inputs are checked, then the handler of the
    event runs and its outcome is reported. *)
Lemma run_unfold (i : inputs) (fs : file_system)
    (userMappings : gmap jsstring jsstring) (context : github_context)
    (w : world) :
  run env i fs userMappings context w
  = if truthy i.(slack_bot_token) && truthy i.(slack_channel)
       && truthy i.(github_token) && truthy (trim i.(github_token))
    then
      let cfg := loadConfig fs userMappings (trim i.(config_path)) in
      match (match context with
             | pull_request_event c =>
                 handlePROpened env c cfg (trim i.(slack_channel))
             | other_named_event (other_event _) => ret tt
             | other_named_event c =>
                 handleComment env c cfg (trim i.(slack_channel))
             end) w with
      | (Ret _, w') => (Ret succeeded, w')
      | (Throw, w') => (Ret failed, w')
      end
    else (Ret failed, w).
Proof.
  unfold run, try_catch, getInput_required, getOctokit.
  destruct (truthy (slack_bot_token i)); [|done].
  destruct (truthy (slack_channel i)); [|done].
  destruct (truthy (github_token i)); [|done].
  unfold bind at 1, ret at 1. unfold bind at 1, ret at 1.
  unfold bind at 1, ret at 1. unfold bind at 1.
  destruct (truthy (trim (github_token i))); [|done].
  unfold ret at 1. unfold bind at 1. cbn [andb]. cbv zeta.
  match goal with
  | |- context [match ?m w with _ => _ end] => by destruct (m w) as [[[]|] w']
  end.
Qed.

(** X16: the entry point never throws: it reports success or failure. A
    required input that is empty makes it fail before anything is called.
    An event of a name that is not supported makes no call and changes
    nothing. And it reports success only if the three required inputs are
    there and the handler of the event, run with the configuration loaded
    from the trimmed path and with the trimmed channel, returned
    normally. *)
Theorem run_reports (i : inputs) (fs : file_system)
    (userMappings : gmap jsstring jsstring) (context : github_context)
    (w : world) :
  let r := run env i fs userMappings context w in
  let cfg := loadConfig fs userMappings (trim i.(config_path)) in
  (∃ result, r.1 = Ret result)
  ∧ (i.(slack_bot_token) = [] ∨ i.(slack_channel) = []
     ∨ i.(github_token) = [] → r = (Ret failed, w))
  ∧ (∀ name, context = other_named_event (other_event name) → r.2 = w)
  ∧ (r.1 = Ret succeeded →
     i.(slack_bot_token) ≠ [] ∧ i.(slack_channel) ≠ []
     ∧ i.(github_token) ≠ []
     ∧ match context with
       | pull_request_event c =>
           (handlePROpened env c cfg (trim i.(slack_channel)) w).1 = Ret tt
       | other_named_event (other_event _) => True
       | other_named_event c =>
           (handleComment env c cfg (trim i.(slack_channel)) w).1 = Ret tt
       end).
Proof.
  cbv zeta. rewrite run_unfold. cbv zeta.
  set (cfg := loadConfig fs userMappings (trim (config_path i))).
  set (channel := trim (slack_channel i)).
  destruct (slack_bot_token i) as [|t1 token].
  { cbn. split_and!; [by eexists|done..]. }
  destruct (slack_channel i) as [|c1 chan].
  { cbn. split_and!; [by eexists|done..]. }
  destruct (github_token i) as [|g1 gh].
  { cbn. split_and!; [by eexists|done..]. }
  cbn [truthy andb].
  destruct (truthy (trim (g1 :: gh))).
  2: { split_and!; [by eexists| |done..]. by intros [?|[?|?]]. }
  assert (∀ (m : M unit),
    (∃ result,
       (match m w with
        | (Ret _, w') => (Ret succeeded, w')
        | (Throw, w') => (Ret failed, w')
        end).1 = Ret result)
    ∧ ((match m w with
        | (Ret _, w') => (Ret succeeded, w')
        | (Throw, w') => (Ret failed, w')
        end).1 = Ret succeeded → (m w).1 = Ret tt)) as Hm.
  { intros m. destruct (m w) as [[[]|] w']; cbn; split; by eauto. }
  destruct context as [c|c].
  - destruct (Hm (handlePROpened env c cfg channel)) as [Hret Hok].
    split_and!; [done| |done|].
    + by intros [?|[?|?]].
    + intros H. split_and!; [done..|]. by apply Hok.
  - destruct c as [is_pr n login b u|n login b u st|n login b u|name];
      [..|cbn; split_and!; [by eexists| |done..]; by intros [?|[?|?]]];
      (match goal with
       | |- context [handleComment env ?c cfg channel] =>
           destruct (Hm (handleComment env c cfg channel)) as [Hret Hok]
       end;
       (split_and!; [done| |done|]);
       [by intros [?|[?|?]]
       |intros H; split_and!; [done..|]; by apply Hok]).
Qed.

End EntryFacts.

(** ** The calls of the ownership resolver *)

Section ResolverCalls.
Context (env : Env).
Implicit Types (w : world) (path : jsstring).

Lemma find_codeowners_calls (paths : list jsstring) w :
  ∃ tried,
    tried `prefix_of` paths
    ∧ (find_codeowners env paths w).2 = logged w (map EvGetContent tried)
    ∧ (∀ path, path ∈ tried →
         (∃ content, env.(repos_getContent) path = Some content
                     ∧ content ≠ []) →
         last tried = Some path)
    ∧ (tried = paths
       ∨ ∃ path content, last tried = Some path
           ∧ env.(repos_getContent) path = Some content ∧ content ≠ []).
Proof.
  revert w. induction paths as [|p paths IH]; intros w.
  - exists []. rewrite logged_nil. split_and!; [done..| |by left].
    by intros path ?%elem_of_nil.
  - cbn [find_codeowners].
    unfold try_catch, call, bind, emit, ret, throw. cbn [fst snd].
    assert (∀ tried,
      (∀ path, path ∈ tried →
         (∃ content, repos_getContent env path = Some content ∧ content ≠ []) →
         last tried = Some path) →
      ¬ (∃ content, repos_getContent env p = Some content ∧ content ≠ []) →
      ∀ path, path ∈ p :: tried →
         (∃ content, repos_getContent env path = Some content ∧ content ≠ []) →
         last (p :: tried) = Some path) as Hmiss.
    { intros tried Htried Hp path [->|Hin]%elem_of_cons Hpath; [done|].
      rewrite last_cons, (Htried path Hin Hpath). done. }
    assert (∀ tried,
      (tried = paths
       ∨ ∃ path content, last tried = Some path
           ∧ repos_getContent env path = Some content ∧ content ≠ []) →
      p :: tried = p :: paths
      ∨ ∃ path content, last (p :: tried) = Some path
          ∧ repos_getContent env path = Some content ∧ content ≠ [])
      as Hnext.
    { intros tried [->|(path & content & Hlast & Hpath)]; [by left|].
      right. exists path, content. by rewrite last_cons, Hlast. }
    destruct (repos_getContent env p) as [content|] eqn:Hcontent; cbn.
    + destruct (truthy content) eqn:Htruthy; cbn.
      { exists [p]. split_and!; [by apply prefix_cons, prefix_nil|done| |].
        - by intros path ->%list_elem_of_singleton _.
        - right. exists p, content. split_and!; [done..|].
          intros ->. done. }
      apply truthy_false in Htruthy. subst content.
      destruct (IH (logged w [EvGetContent p]))
        as (tried & Hpre & Hlog & Hlast & Hall).
      exists (p :: tried). split_and!; [by apply prefix_cons| | |by apply Hnext].
      * by rewrite Hlog, logged_logged.
      * apply Hmiss; [done|]. by intros (content & [= <-] & ?).
    + destruct (IH (logged w [EvGetContent p]))
        as (tried & Hpre & Hlog & Hlast & Hall).
      exists (p :: tried). split_and!; [by apply prefix_cons| | |by apply Hnext].
      * by rewrite Hlog, logged_logged.
      * apply Hmiss; [done|]. by intros (content & [=] & ?).
Qed.

(** X17: the ownership resolver lists the changed files once and writes
    nothing. Without a changed file it asks for no content at all. With a
    changed file it asks for the ownership file at the candidate paths in
    their order, going on after every path that throws or answers without
    content, and stops at the first path that answers with some content:
    the paths asked are a prefix of the candidates; a path asked that has
    content is the last one asked; and either all candidates are asked or
    the last one asked has content. *)
Theorem getCodeOwners_calls (prNumber : N) w :
  ∃ tried,
    (getCodeOwners env prNumber w).2
    = logged w (EvListFiles prNumber :: map EvGetContent tried)
    ∧ tried `prefix_of` [lit ".github/CODEOWNERS"; lit "CODEOWNERS";
                          lit "docs/CODEOWNERS"]
    ∧ (default [] (env.(pulls_listFiles) prNumber) = [] → tried = [])
    ∧ (∀ path, path ∈ tried →
         (∃ content, env.(repos_getContent) path = Some content
                     ∧ content ≠ []) →
         last tried = Some path)
    ∧ (default [] (env.(pulls_listFiles) prNumber) ≠ [] →
       tried = [lit ".github/CODEOWNERS"; lit "CODEOWNERS";
                lit "docs/CODEOWNERS"]
       ∨ ∃ path content, last tried = Some path
           ∧ env.(repos_getContent) path = Some content ∧ content ≠ []).
Proof.
  unfold getCodeOwners, try_catch. unfold bind at 1.
  rewrite getChangedFiles_logged.
  destruct (default [] (pulls_listFiles env prNumber)) as [|f files].
  { exists []. split_and!; [done|apply prefix_nil|done| |done].
    by intros path ?%elem_of_nil. }
  cbn [length Nat.eqb]. unfold bind at 1.
  destruct (find_codeowners_calls codeowners_paths
              (logged w [EvListFiles prNumber]))
    as (tried & Hpre & Hlog & Hlast & Hall).
  exists tried. split_and!; [|done..|by intros _].
  destruct (find_codeowners env codeowners_paths
              (logged w [EvListFiles prNumber])) as [[found|] w1];
    cbn [snd] in Hlog; subst w1; rewrite logged_logged.
  - by destruct (negb (truthy_opt found)).
  - done.
Qed.

End ResolverCalls.

(** ** Directory patterns *)

Section DirectoryPattern.
Implicit Types (file dir : jsstring).

(** X18: a pattern that ends in a slash matches by its text without the
    slash: [dir/] matches exactly the files whose path starts with [dir],
    whether or not a slash follows. *)
Theorem matchPattern_directory (file dir : jsstring) :
  startsWith dir (lit "*.") = false →
  matchPattern file (dir ++ lit "/") = true ↔ dir `prefix_of` file.
Proof.
  intros Hext. unfold matchPattern, substring_to.
  assert (str_eqb (dir ++ lit "/") (lit "*") = false) as ->.
  { apply str_eqb_false. by destruct dir as [|c [|c' dir]]. }
  assert (startsWith (dir ++ lit "/") (lit "*.") = false) as ->.
  { destruct dir as [|c [|c' dir]]; [done| |done].
    change (lit "*.") with [42; 46]. change (lit "/") with [47].
    cbn [app startsWith]. by rewrite andb_false_r. }
  assert (endsWith (dir ++ lit "/") (lit "/") = true) as ->.
  { apply endsWith_suffix. by exists dir. }
  rewrite length_app. change (length (lit "/")) with 1%nat.
  replace (length dir + 1 - 1)%nat with (length dir) by lia.
  rewrite take_app_length, orb_true_iff, !startsWith_prefix.
  split; [|by right]. intros [[k ->]|H]; [|done].
  rewrite <- app_assoc. by eexists.
Qed.

Lemma matchPattern_directory_witness :
  matchPattern (lit "docsify/x.js") (lit "docs" ++ lit "/") = true
  ↔ lit "docs" `prefix_of` lit "docsify/x.js".
Proof.
  apply (matchPattern_directory (lit "docsify/x.js") (lit "docs")).
  reflexivity.
Defined.

End DirectoryPattern.

(** ** The excerpt of an excerpt *)

Section ExcerptAgain.
Implicit Types (s line : jsstring) (ls : list jsstring).

Lemma trimStart_nil s : trimStart s = [] ↔ forallb is_space s = true.
Proof.
  induction s as [|c s IH]; cbn [trimStart forallb]; [done|].
  destruct (is_space c); cbn [andb]; [exact IH | done].
Qed.

Lemma trimStart_head s c t : trimStart s = c :: t → is_space c = false.
Proof.
  induction s as [|a s IH]; cbn [trimStart]; [done|].
  destruct (is_space a) eqn:Ha; [done|]. by intros [= <- <-].
Qed.

Lemma forallb_rev {A} (f : A → bool) (l : list A) :
  forallb f (rev l) = forallb f l.
Proof.
  induction l as [|a l IH]; [done|]. cbn [rev forallb].
  rewrite forallb_app, IH. cbn [forallb].
  by rewrite andb_true_r, andb_comm.
Qed.

(** a string is trimmed to nothing exactly when it is white space
    throughout. *)
Lemma trim_nil s : trim s = [] ↔ forallb is_space s = true.
Proof.
  unfold trim. split.
  - intros H. apply (f_equal (@rev N)) in H. rewrite rev_involutive in H.
    cbn [rev] in H. apply trimStart_nil in H. rewrite forallb_rev in H.
    destruct (trimStart s) as [|c t] eqn:E; [by apply trimStart_nil|].
    apply trimStart_head in E. cbn [forallb] in H. by rewrite E in H.
  - intros H. apply trimStart_nil in H. by rewrite H.
Qed.

Lemma nonblank_spaces line :
  (0 <? length (trim line))%nat = negb (forallb is_space line).
Proof.
  destruct (forallb is_space line) eqn:E.
  - apply trim_nil in E. by rewrite E.
  - destruct (trim line) eqn:T; [|done]. apply trim_nil in T. congruence.
Qed.

Lemma filter_all {A} (f : A → bool) (l : list A) :
  Forall (fun x => f x = true) l → List.filter f l = l.
Proof.
  induction 1 as [|x l Hx _ IH]; [done|]. cbn [List.filter].
  by rewrite Hx, IH.
Qed.

Lemma filter_passes {A} (f : A → bool) (l : list A) :
  Forall (fun x => f x = true) (List.filter f l).
Proof.
  apply Forall_forall. intros x Hx.
  by apply list_elem_of_In, filter_In in Hx as [_ Hx].
Qed.

(** the pieces of a string in two parts: the last piece of the first part
    and the first piece of the second are one piece. *)
Lemma split_on_app sep s t :
  ∃ init lastp hd tl,
    split_on sep s = init ++ [lastp]
    ∧ split_on sep t = hd :: tl
    ∧ split_on sep (s ++ t) = init ++ (lastp ++ hd) :: tl.
Proof.
  induction s as [|c s (init & lastp & hd & tl & Hs & Ht & Hst)].
  - pose proof (split_on_nonempty sep t) as Hne.
    destruct (split_on sep t) as [|hd tl] eqn:Ht; [done|].
    by exists [], [], hd, tl.
  - cbn [app split_on]. rewrite Hs, Hst.
    destruct (c =? sep).
    + by exists ([] :: init), lastp, hd, tl.
    + destruct init as [|i init]; cbn [app].
      * by exists [], (c :: lastp), hd, tl.
      * by exists ((c :: i) :: init), lastp, hd, tl.
Qed.

Lemma join_spaces ls :
  forallb is_space (join [10] ls) = true →
  Forall (fun l => forallb is_space l = true) ls.
Proof.
  induction ls as [|x ls IH]; [constructor|].
  destruct ls as [|y ls]; cbn [join].
  - intros H. by repeat constructor.
  - rewrite forallb_app. intros [Hx Hrest]%andb_true_iff.
    constructor; [done|]. apply IH. cbn [app forallb] in Hrest.
    by apply andb_true_iff in Hrest as [_ Hrest].
Qed.

(** X19: the excerpt of an excerpt is the excerpt itself. *)
Theorem summarizePRBody_idempotent (body : option jsstring) :
  summarizePRBody (Some (summarizePRBody body)) = summarizePRBody body.
Proof.
  assert (summarizePRBody (Some no_description) = no_description) as Hplace.
  { by vm_compute. }
  unfold summarizePRBody at 2 3.
  destruct (negb (truthy_opt body) || _); [exact Hplace|].
  set (nonblank := fun line => (0 <? length (trim line))%nat).
  set (lines := List.filter nonblank (split_on 10 (default [] body))).
  assert (Forall (fun l => 10 ∉ l) (take 3 lines)) as Hpieces.
  { apply Forall_take, filter_pieces, split_on_pieces. }
  assert (Forall (fun l => nonblank l = true) (take 3 lines)) as Hnonblank.
  { apply Forall_take, filter_passes. }
  assert (length (take 3 lines) <= 3)%nat as Hthree.
  { rewrite length_take. lia. }
  generalize dependent (take 3 lines). intros ls Hpieces Hnonblank Hthree.
  cbv zeta.
  (* an excerpt that is its own lines, short enough, is its own excerpt *)
  assert (∀ s, s ≠ [] → (length s <= 200)%nat →
               (length (split_on 10 s) <= 3)%nat →
               Forall (fun l => nonblank l = true) (split_on 10 s) →
               summarizePRBody (Some s) = s) as Hfix.
  { intros s Hne Hlen Hcount Hall. unfold summarizePRBody.
    change (default [] (Some s)) with s. cbn [truthy_opt].
    assert (truthy s = true) as Htruthy by by destruct s.
    rewrite Htruthy. cbn [negb orb].
    assert (forallb is_space s = false) as Hs.
    { destruct (forallb is_space s) eqn:E; [|done].
      rewrite <- (join_split_on 10 s) in E. apply join_spaces in E.
      pose proof (split_on_nonempty 10 s) as Hsplit.
      destruct (split_on 10 s) as [|l ls']; [done|].
      apply Forall_cons in Hall as [Hl _]. apply Forall_cons in E as [E _].
      unfold nonblank in Hl. rewrite nonblank_spaces, E in Hl. done. }
    fold nonblank. replace (length (trim s) =? 0)%nat with false.
    2: { pose proof (nonblank_spaces s) as Hn. rewrite Hs in Hn.
         cbn [negb] in Hn. apply Nat.ltb_lt in Hn. symmetry.
         apply Nat.eqb_neq. lia. }
    rewrite (filter_all nonblank) by done.
    rewrite take_ge by done. rewrite join_split_on.
    replace (200 <? length s)%nat with false
      by (symmetry; apply Nat.ltb_ge; lia).
    by rewrite Htruthy. }
  destruct (Nat.ltb 200 (length (join [10] ls))) eqn:Hlong.
  - apply Nat.ltb_lt in Hlong. unfold substring_to.
    set (summary := join [10] ls) in *.
    assert (ls ≠ []) as Hls.
    { intros ->. cbn in Hlong. lia. }
    destruct (split_on_app 10 (take 197 summary) (drop 197 summary))
      as (init & lastp & hd & tl & Htake & _ & Hwhole).
    rewrite take_drop in Hwhole. unfold summary in Hwhole.
    rewrite split_on_join in Hwhole by done.
    destruct (split_on_app 10 (take 197 summary) (lit "..."))
      as (init' & lastp' & hd' & tl' & Htake' & Hdots & Hcut).
    rewrite Htake in Htake'. apply app_inj_tail in Htake' as [<- <-].
    injection Hdots as <- <-.
    apply Hfix.
    + intros [_ [=]]%app_eq_nil.
    + rewrite length_app, length_take.
      change (length (lit "...")) with 3%nat. lia.
    + rewrite Hcut, length_app. cbn [length].
      rewrite Hwhole, length_app in Hthree. cbn [length] in Hthree. lia.
    + rewrite Hcut. apply Forall_app. split.
      * rewrite Hwhole in Hnonblank. by apply Forall_app in Hnonblank as [? _].
      * constructor; [|constructor]. unfold nonblank.
        rewrite nonblank_spaces, forallb_app.
        change (forallb is_space (lit "...")) with false.
        by rewrite andb_false_r.
  - apply Nat.ltb_ge in Hlong.
    destruct (truthy (join [10] ls)) eqn:Htruthy; [|exact Hplace].
    assert (ls ≠ []) as Hls by (by intros ->).
    apply Hfix.
    + intros E. by rewrite E in Htruthy.
    + done.
    + by rewrite split_on_join.
    + by rewrite split_on_join.
Qed.

End ExcerptAgain.

(** ** The verdict that is not announced *)

Section VerdictFacts.
Context (env : Env).
Implicit Types (w : world) (cfg : config) (c : commentData).

Lemma getPRStatus_run n w :
  getPRStatus n w
  = (Ret (match prs w !! n with
          | Some pr =>
              default REVIEW_PENDING
                (status_of_body (default [] pr.(pr_body)))
          | None => REVIEW_PENDING
          end), logged w [EvPullsGet n]).
Proof.
  unfold getPRStatus, try_catch. unfold bind at 1.
  rewrite pulls_get_run. by destruct (prs w !! n).
Qed.

(** the block that renders the head message again never gets to the
    message: the pull request fetched is parsed as the payload of an event
    without repository, and that throws. *)
Lemma refresh_head_message_throws c cfg (channel ts status : jsstring) w :
  (refresh_head_message env c cfg channel ts status w).1 = Throw.
Proof.
  unfold refresh_head_message. unfold bind at 1.
  destruct (updatePRStatus (prNumber c) status w) as [[[]|] w1]; [|done].
  unfold bind at 1. rewrite pulls_get_run.
  destruct (prs w1 !! prNumber c) as [pr|]; [|done].
  unfold bind at 1. done.
Qed.

(** every event that changes the status makes the handler fail before
    the thread reply: nothing is sent to the thread. *)
Lemma handleComment_status_change_throws (context : comment_context) cfg
    (channel : jsstring) w c pr ts :
  parseCommentData context w = (Ret c, w) →
  c.(c_author) ≠ lit "github-actions[bot]" →
  prs w !! c.(prNumber) = Some pr →
  thread_ts_of_body (default [] pr.(pr_body)) = Some ts →
  nextStatus c.(reviewState)
    (default REVIEW_PENDING (status_of_body (default [] pr.(pr_body))))
  ≠ default REVIEW_PENDING (status_of_body (default [] pr.(pr_body))) →
  ∃ w' es,
    handleComment env context cfg channel w = (Throw, w')
    ∧ log w' = log w ++ es
    ∧ Forall (fun e => ¬ is_reply e) es.
Proof.
  intros Hparse Hbot Hpr Hts Hstatus. unfold handleComment. unfold bind at 1.
  rewrite Hparse. unfold str_eqb at 1. rewrite bool_decide_false by done.
  unfold bind at 1. rewrite getSlackThreadTs_run, Hpr, Hts.
  assert (if_truthy (Some ts) = Some ts) as ->.
  { unfold thread_ts_of_body in Hts.
    destruct (match_marker thread_ts_prefix _) as [t|]; [|done].
    destruct (truthy t) eqn:Ht; [|done]. injection Hts as <-.
    unfold if_truthy, truthy_opt. by rewrite Ht. }
  unfold bind at 1. rewrite getPRStatus_run. cbn [prs logged].
  rewrite Hpr. cbv zeta. unfold str_eqb at 1.
  rewrite bool_decide_false by done. cbn [negb].
  unfold bind at 1. rewrite logged_logged.
  match goal with
  | |- context [refresh_head_message env c cfg channel ts ?s ?w1] =>
      pose proof (refresh_head_message_throws c cfg channel ts s w1) as Hthrow;
      destruct (quiet_refresh_head_message env c cfg channel ts s w1)
        as (es & Hlog & Hes & _);
      destruct (refresh_head_message env c cfg channel ts s w1) as [[[]|] w2]
  end; [done|].
  cbn [snd fst] in *. eexists _, _. split; [reflexivity|].
  rewrite Hlog. cbn [log logged]. rewrite <- app_assoc.
  split; [reflexivity|]. apply Forall_app. split; [|done].
  repeat constructor; by intros [].
Qed.

End VerdictFacts.

(** C7, where the code departs from it: the first approving review of a
    pull request that has a thread. The thread is there, the event
    targets the author of the pull request, who resolves to a chat
    identity, so that a reply to the author is due; the handler persists
    the new status, fails on the way to the head message, and sends
    nothing to the thread. *)
Theorem handleComment_verdict_unannounced :
  let w := Scenario.world_of (Scenario.body_with_pointer REVIEW_PENDING)
             [Scenario.bob] in
  let r := handleComment Scenario.env Cases.approval Scenario.cfg
             Scenario.channel w in
  (getSlackThreadTs 7 w).1 = Ret (Some (lit "123.45"))
  ∧ (∃ c, parseCommentData Cases.approval w = (Ret c, w)
          ∧ reply_targets w c = [Scenario.alice]
          ∧ omap (resolve Scenario.env Scenario.cfg) (reply_targets w c)
            = [lit "U1"])
  ∧ r.1 = Throw
  ∧ Forall (fun e => ¬ is_reply e) (log r.2)
  ∧ (pr_body <$> (prs r.2 !! 7))
    = Some (Some (Scenario.body_with_pointer APPROVED)).
Proof.
  cbv zeta. split_and!.
  - by vm_compute.
  - eexists. split_and!; [reflexivity|by vm_compute..].
  - by vm_compute.
  - vm_compute. repeat constructor; by intros [].
  - by vm_compute.
Qed.

(** a handle without mapping that names a member of [Object.prototype]:
    the table read gives that member, and the directory is asked with it,
    even with automatic matching disabled. *)
Example mapGitHubUserToSlack_inherited_member :
  mapGitHubUserToSlack Scenario.env (lit "constructor")
    {| email_mappings := Scenario.mappings; default_reviewers := [];
       auto_match_by_email := false |}
    (Scenario.world_of (lit "Fix things") [])
  = (Ret None,
     logged (Scenario.world_of (lit "Fix things") [])
       [EvLookupByEmailMember (lit "constructor")]).
Proof. by vm_compute. Qed.
